(** * Signal localisation and layout engine of the WiFi heat-map front ends

    A shallow embedding of the algorithmic core of the four front-end
    scripts: the two trilateration variants ([script.js] and its twin) and
    the two radial-layout variants.  JavaScript numbers are read as real
    numbers: [Math.pow 10] is [Rpower 10], [Math.sqrt] is [sqrt],
    [Math.cos] is [cos], and comparisons are decided on [R].  Rounding of
    binary64 arithmetic is outside this model.  [Math.random] is an input:
    every function that draws from it takes the drawn number as an
    argument. *)

From Stdlib Require Import Reals Lra Lia ZArith List String Bool Permutation Arith.
From Stdlib Require Import Sorted.
Import ListNotations.

Open Scope R_scope.

(** ** JavaScript numeric helpers shared by every variant *)

Definition Rltb (a b : R) : bool := if Rlt_dec a b then true else false.
Definition Rgtb (a b : R) : bool := Rltb b a.

(** [function rand(a,b){return a + Math.random()*(b-a)}], with the draw of
    [Math.random], a number of [[0,1)], passed in as [u]. *)
Definition rand (u a b : R) : R := a + u * (b - a).

(** [function lerp(a,b,t){return a + (b-a)*t}] *)
Definition lerp (a b t : R) : R := a + (b - a) * t.

(** [function clamp(v,a,b){return Math.max(a, Math.min(b,v))}] *)
Definition clamp (v a b : R) : R := Rmax a (Rmin b v).

(** Decimal constants of the sources. *)
Definition alpha : R := 8 / 100.            (* 0.08 *)
Definition eps_det : R := 1 / 1000000.      (* 1e-6 *)

(** A network record as delivered by [/api/wifi]; only the fields read by
    the core are kept. *)
Record network : Type := mkNetwork {
  bssid : string;
  band  : string;
  rssi  : R
}.

(** Entry of the [smoothed] table: [{rssi, dist}]. *)
Record smooth : Type := mkSmooth {
  s_rssi : R;
  s_dist : R
}.

Definition is5GHz (b : string) : bool := String.eqb b "5 GHz".

(** The log-distance path-loss curve before clamping,
    [Math.pow(10, (P0 - rssi) / (10*n))]. *)
Definition pathLoss (n P0 r : R) : R := Rpower 10 ((P0 - r) / (10 * n)).

(** ** The JavaScript [Map]: insertion-ordered, one entry per key *)

Module JsMap.
Section Defs.
Context {V : Type}.

Definition t : Type := list (string * V).

Definition empty : t := [].

Fixpoint get (m : t) (k : string) : option V :=
  match m with
  | [] => None
  | (k', v) :: m' => if String.eqb k' k then Some v else get m' k
  end.

Definition has (m : t) (k : string) : bool :=
  match get m k with Some _ => true | None => false end.

(** [Map.prototype.set]: an existing key keeps its place, a new key goes
    to the end. *)
Fixpoint set (m : t) (k : string) (v : V) : t :=
  match m with
  | [] => [(k, v)]
  | (k', v') :: m' =>
      if String.eqb k' k then (k', v) :: m' else (k', v') :: set m' k v
  end.

Definition size (m : t) : nat := List.length m.

Definition keys (m : t) : list string := map fst m.
End Defs.
Arguments t V : clear implicits.
End JsMap.

(** ** Rolling-analysis scoring, shared by all variants up to the weight

    The body of the [analysisWindow.forEach] callback run once the 30 s
    have elapsed.  The trilateration variants use
    [score = avgRssi - 2*avgDist], the radial ones [avgRssi - avgDist]. *)

Record sample : Type := mkSample {
  t_ms   : R;
  a_rssi : R;
  a_dist : R;
  a_meta : network
}.

Record best_t : Type := mkBest {
  b_bssid   : string;
  b_avgRssi : R;
  b_avgDist : R;
  b_meta    : option network;
  b_score   : R
}.

(** [arr[arr.length-1].meta]; [undefined] on an empty array. *)
Definition lastMeta (arr : list sample) : option network :=
  option_map a_meta (nth_error arr (List.length arr - 1)).

(** [arr.reduce((s,a)=>s+a.rssi,0)/arr.length] *)
Definition avgOf (f : sample -> R) (arr : list sample) : R :=
  fold_left (fun s a => s + f a) arr 0 / INR (List.length arr).

Definition scoreOf (k : R) (arr : list sample) : R :=
  avgOf a_rssi arr - k * avgOf a_dist arr.

(** One call of the [forEach] callback on the entry [(bssid, arr)]. *)
Definition scoreEntry (k : R) (best : option best_t)
           (e : string * list sample) : option best_t :=
  let '(key, arr) := e in
  if (List.length arr <? 5)%nat then best
  else
    let avgRssi := avgOf a_rssi arr in
    let avgDist := avgOf a_dist arr in
    let meta := lastMeta arr in
    let score := avgRssi - k * avgDist in
    match best with
    | None => Some (mkBest key avgRssi avgDist meta score)
    | Some b =>
        if Rgtb score (b_score b)
        then Some (mkBest key avgRssi avgDist meta score)
        else best
    end.

(** [let best = null; analysisWindow.forEach(...)] *)
Definition suggestBest (k : R) (analysisWindow : JsMap.t (list sample))
  : option best_t :=
  fold_left (scoreEntry k) analysisWindow None.

(** Sample collection of one [step()] at wall-clock time [ts]: for every
    live network push the current smoothed values and drop, from the
    front, the samples older than 30 000 ms. *)
Fixpoint evictOld (ts : R) (arr : list sample) : list sample :=
  match arr with
  | [] => []
  | a :: arr' => if Rgtb (ts - t_ms a) 30000 then evictOld ts arr' else arr
  end.

Section Collect.
Variable rssiToDistance : R -> string -> R.

Definition collectOne (ts : R) (smoothed : JsMap.t smooth)
           (w : JsMap.t (list sample)) (n : network)
  : JsMap.t (list sample) :=
  let s := match JsMap.get smoothed (bssid n) with
           | Some s => s
           | None => mkSmooth (rssi n) (rssiToDistance (rssi n) (band n))
           end in
  let arr := match JsMap.get w (bssid n) with
             | Some arr => arr
             | None => []
             end in
  let arr := arr ++ [mkSample ts (s_rssi s) (s_dist s) n] in
  JsMap.set w (bssid n) (evictOld ts arr).

Definition collect (ts : R) (smoothed : JsMap.t smooth)
           (liveNetworks : list network) (w : JsMap.t (list sample))
  : JsMap.t (list sample) :=
  fold_left (collectOne ts smoothed) liveNetworks w.

(** One [step()]: [t] is [performance.now() - start].  While [t] is
    below the duration the step re-arms itself ([inl]); afterwards it
    scores the window and yields the recommendation ([inr]). *)
Definition step (k t ts : R) (smoothed : JsMap.t smooth)
           (liveNetworks : list network) (w : JsMap.t (list sample))
  : JsMap.t (list sample) + option best_t :=
  let w' := collect ts smoothed liveNetworks w in
  if Rltb t 30000 then inl w' else inr (suggestBest k w').
End Collect.

(** ** Drawing helpers shared by every variant *)

(** [rssiToColor]: the red and green channels of the [rgb(r,g,80)] string;
    [Math.floor] is [Int_part]. *)
Definition colorT (rssi : R) : R := clamp ((rssi + 90) / 60) 0 1.

Definition rssiToColor (rssi : R) : Z * Z * Z :=
  let t := colorT rssi in
  let r := Int_part (lerp 255 20 t) in
  let g := Int_part (lerp 40 255 t) in
  (r, g, 80%Z).

(** [maxGlow] of [drawHotspot]. *)
Definition maxGlow (rssi : R) : R := clamp ((- rssi - 30) / 60) (2 / 10) 1.

(** A point of the distance/strength graph; [distance] may be missing. *)
Record graphPoint : Type := mkGraphPoint {
  gp_distance : option R;
  gp_rssi     : R;
  gp_band     : string
}.

(** [p.distance||0] *)
Definition distanceOr0 (p : graphPoint) : R :=
  match gp_distance p with Some d => d | None => 0 end.

(** [drawGraph]: the margins [m = {l:48, r:12, t:18, b:36}], the range
    [rssiMin = -90], [rssiMax = -30], and the coordinates it computes. *)
Definition m_l : R := 48.
Definition m_r : R := 12.
Definition m_t : R := 18.
Definition m_b : R := 36.
Definition rssiMin : R := - 90.
Definition rssiMax : R := - 30.

(** [Math.max(5, ...graphPoints.map(p=>p.distance||0))] *)
Definition maxDist (graphPoints : list graphPoint) : R :=
  fold_left Rmax (map distanceOr0 graphPoints) 5.

(** [x] and [y] of a plotted point. *)
Definition graphX (gW : R) (graphPoints : list graphPoint) (p : graphPoint) : R :=
  m_l + distanceOr0 p * ((gW - m_l - m_r) / maxDist graphPoints).

Definition graphY (gH : R) (p : graphPoint) : R :=
  m_t + (rssiMax - gp_rssi p) * ((gH - m_b - m_t) / (rssiMax - rssiMin)).

(** [tx] of the [i]-th distance tick and [ty] of the tick at [ydb] dBm. *)
Definition tickX (gW : R) (graphPoints : list graphPoint) (i : nat) : R :=
  let d := (maxDist graphPoints * INR i) / 5 in
  m_l + d * ((gW - m_l - m_r) / maxDist graphPoints).

Definition tickY (gH ydb : R) : R :=
  m_t + (rssiMax - ydb) * ((gH - m_b - m_t) / (rssiMax - rssiMin)).

(** ** Trilateration variants ([script.js] and its twin) *)

Module Trilat.

(** [rssiToDistance(rssi, band)]: [n] is 2.4 on 5 GHz and 2.1 otherwise,
    [P0] is -45 on 5 GHz and -40 otherwise. *)
Definition rssiToDistance (rssi : R) (band : string) : R :=
  let n := if is5GHz band then 24 / 10 else 21 / 10 in
  let P0 := if is5GHz band then - 45 else - 40 in
  let d := Rpower 10 ((P0 - rssi) / (10 * n)) in
  clamp d (5 / 10) 100.

(** [updateSmoothed(network)]; [u] is the draw of [Math.random] consumed by
    [rand(-2,2)].  Returns the new entry and the updated table. *)
Definition updateSmoothed (u : R) (smoothed : JsMap.t smooth) (nw : network)
  : smooth * JsMap.t smooth :=
  let key := bssid nw in
  let prev := match JsMap.get smoothed key with
              | Some p => p
              | None => mkSmooth (rssi nw) (rssiToDistance (rssi nw) (band nw))
              end in
  let targetRssi := rssi nw + rand u (- 2) 2 in
  let newRssi := lerp (s_rssi prev) targetRssi alpha in
  let dist := rssiToDistance newRssi (band nw) in
  let newDist := lerp (s_dist prev) dist alpha in
  let data := mkSmooth newRssi newDist in
  (data, JsMap.set smoothed key data).

(** *** Multilateration *)

Record snapshot : Type := mkSnapshot {
  lat  : R;
  lon  : R;
  dist : R
}.

Record point : Type := mkPoint {
  px : R;
  py : R
}.

(** The inner [toXY(s)] of [trilaterate], closed over [ref]. *)
Definition toXY (ref s : snapshot) : point :=
  mkPoint ((lon s - lon ref) * (40075000 * cos (lat ref * PI / 180) / 360))
          ((lat s - lat ref) * 111320).

(** Rows [Ai] and entries [bi] built by the [for] loop, for [i >= 1]. *)
Definition rowA (p1 pi : point * R) : R * R :=
  (2 * (px (fst pi) - px (fst p1)), 2 * (py (fst pi) - py (fst p1))).

Definition rowb (p1 pi : point * R) : R :=
  (px (fst p1) ^ 2 - px (fst pi) ^ 2) + (py (fst p1) ^ 2 - py (fst pi) ^ 2)
  + (snd pi ^ 2 - snd p1 ^ 2).

(** The five [A.reduce] sums and the determinant. *)
Record normal_eqs : Type := mkNormal {
  AtA00 : R; AtA01 : R; AtA11 : R; Atb0 : R; Atb1 : R
}.

Definition normalEqs (A : list (R * R)) (b : list R) : normal_eqs :=
  mkNormal
    (fold_left (fun s row => s + fst row * fst row) A 0)
    (fold_left (fun s row => s + fst row * snd row) A 0)
    (fold_left (fun s row => s + snd row * snd row) A 0)
    (fold_left (fun s rb => s + fst (fst rb) * snd rb) (combine A b) 0)
    (fold_left (fun s rb => s + snd (fst rb) * snd rb) (combine A b) 0).

Definition detOf (ne : normal_eqs) : R :=
  AtA00 ne * AtA11 ne - AtA01 ne * AtA01 ne.

(** The linear system of [trilaterate] for a list of at least one
    snapshot: [P], then [A] and [b]. *)
Definition systemOf (snapshots : list snapshot) : normal_eqs :=
  match snapshots with
  | [] => normalEqs [] []
  | ref :: _ =>
      let P := map (fun s => (toXY ref s, dist s)) snapshots in
      match P with
      | [] => normalEqs [] []
      | p1 :: rest => normalEqs (map (rowA p1) rest) (map (rowb p1) rest)
      end
  end.

(** [trilaterate(hotspotKey, snapshots)]; [null] is [None]. *)
Definition trilaterate (hotspotKey : string) (snapshots : list snapshot)
  : option point :=
  if (List.length snapshots <? 3)%nat then None
  else
    let ne := systemOf snapshots in
    let det := detOf ne in
    if Rltb (Rabs det) eps_det then None
    else
      let x := (AtA11 ne * Atb0 ne - AtA01 ne * Atb1 ne) / det in
      let y := (- AtA01 ne * Atb0 ne + AtA00 ne * Atb1 ne) / det in
      Some (mkPoint x y).

(** *** Obstruction model *)

Record obstacle : Type := mkObstacle {
  ox : R; oy : R; ow : R; oh : R;
  attenuation : R
}.

(** The inner [ccw] of [segmentsIntersect]. *)
Definition ccw (ax ay bx by_ cx cy : R) : bool :=
  Rgtb ((cy - ay) * (bx - ax)) ((by_ - ay) * (cx - ax)).

(** [a !== b] on booleans. *)
Definition bneq (a b : bool) : bool := xorb a b.

Definition segmentsIntersect (x1 y1 x2 y2 x3 y3 x4 y4 : R) : bool :=
  bneq (ccw x1 y1 x3 y3 x4 y4) (ccw x2 y2 x3 y3 x4 y4)
  && bneq (ccw x1 y1 x2 y2 x3 y3) (ccw x1 y1 x2 y2 x4 y4).

Definition edges (r : obstacle) : list (R * R * R * R) :=
  [ (ox r, oy r, ox r + ow r, oy r);
    (ox r + ow r, oy r, ox r + ow r, oy r + oh r);
    (ox r + ow r, oy r + oh r, ox r, oy r + oh r);
    (ox r, oy r + oh r, ox r, oy r) ].

(** [lineIntersectsRect]: the [for..of] with its early [return true]. *)
Definition lineIntersectsRect (x1 y1 x2 y2 : R) (r : obstacle) : bool :=
  existsb (fun e => let '(ax, ay, bx, by_) := e in
                    segmentsIntersect x1 y1 x2 y2 ax ay bx by_)
          (edges r).

(** [obstacleAttenuationOnPath]; the global [obstacles] is an argument. *)
Definition obstacleAttenuationOnPath (obstacles : list obstacle)
           (x1 y1 x2 y2 : R) : R :=
  fold_left (fun atten ob =>
               if lineIntersectsRect x1 y1 x2 y2 ob
               then atten * (1 - attenuation ob) else atten)
            obstacles 1.

(** Scoring weight of this variant: [avgRssi - 2*avgDist]. *)
Definition suggest := suggestBest 2.
Definition step := step rssiToDistance 2.

(** *** [computeTrilateration] *)

(** One GPS fix of [/api/data]: [{lat, lon}]. *)
Record gpsfix : Type := mkGps {
  g_lat : R;
  g_lon : R
}.

(** One scan of [/api/data]; the object may come without [networks]. *)
Record scan : Type := mkScan {
  networks : option (list network)
}.

(** The answer of [/api/data]; each part may be missing. *)
Record alldata : Type := mkData {
  gps_original  : option gpsfix;
  gps_copy1     : option gpsfix;
  gps_copy2     : option gpsfix;
  wifi_original : option scan;
  wifi_copy1    : option scan;
  wifi_copy2    : option scan
}.

(** [[a, b, c].filter(Boolean)] on objects that may be missing. *)
Definition present {A : Type} (l : list (option A)) : list A :=
  flat_map (fun o => match o with Some a => [a] | None => [] end) l.

(** The snapshot pushed for network [n] seen from the fix [g] (its [band]
    field is not read again and is left out). *)
Definition snapshotOf (g : gpsfix) (n : network) : snapshot :=
  mkSnapshot (g_lat g) (g_lon g) (rssiToDistance (rssi n) (band n)).

(** Body of [for (const n of w.networks)]. *)
Definition pushSnapshot (g : gpsfix) (byBssid : JsMap.t (list snapshot))
           (n : network) : JsMap.t (list snapshot) :=
  let list := match JsMap.get byBssid (bssid n) with
              | Some l => l
              | None => []
              end in
  JsMap.set byBssid (bssid n) (list ++ [snapshotOf g n]).

(** Body of [for (let i = 0; i < 3; i++)] for the pair [(gps[i], wifi[i])]. *)
Definition groupScan (byBssid : JsMap.t (list snapshot)) (gw : gpsfix * scan)
  : JsMap.t (list snapshot) :=
  match networks (snd gw) with
  | None => byBssid
  | Some ns => fold_left (pushSnapshot (fst gw)) ns byBssid
  end.

Definition groupAll (gps : list gpsfix) (wifi : list scan)
  : JsMap.t (list snapshot) :=
  fold_left groupScan (combine (firstn 3 gps) (firstn 3 wifi)) JsMap.empty.

(** The [byBssid.forEach] callback: a position is stored only when the
    solver returns one. *)
Definition storePosition (trilatPositions : JsMap.t point)
           (e : string * list snapshot) : JsMap.t point :=
  match trilaterate (fst e) (snd e) with
  | Some pos => JsMap.set trilatPositions (fst e) pos
  | None => trilatPositions
  end.

(** [computeTrilateration]; [data] is what [fetchAllData] resolved to
    ([null] on a failed fetch), the global [trilatPositions] is threaded. *)
Definition computeTrilateration (data : option alldata)
           (trilatPositions : JsMap.t point) : JsMap.t point :=
  match data with
  | None => trilatPositions
  | Some d =>
      let gps := present [gps_original d; gps_copy1 d; gps_copy2 d] in
      let wifi := present [wifi_original d; wifi_copy1 d; wifi_copy2 d] in
      if (List.length gps <? 3)%nat || (List.length wifi <? 3)%nat
      then trilatPositions
      else fold_left storePosition (groupAll gps wifi) trilatPositions
  end.

(** *** [loadObstacles] and the reset button *)

(** The obstacle built by the [i]-th call of the [Array.from] callback;
    [u] is the sequence of [Math.random] draws, consumed in the order
    [w], [h], [x], [y], [attenuation]. *)
Definition defaultObstacle (W H : R) (u : nat -> R) (i : nat) : obstacle :=
  let w := rand (u (5 * i)%nat) 80 200 in
  let h := rand (u (5 * i + 1)%nat) 40 160 in
  let x := rand (u (5 * i + 2)%nat) 100 (W - 100 - w) in
  let y := rand (u (5 * i + 3)%nat) 100 (H - 100 - h) in
  mkObstacle x y w h (rand (u (5 * i + 4)%nat) (2 / 10) (6 / 10)).

(** [loadObstacles]; [stored] is the list read back from [localStorage]
    ([None] when the key is absent, empty or does not parse).  Returns
    the new [obstacles] and the new content of the storage key. *)
Definition loadObstacles (stored : option (list obstacle)) (W H : R)
           (u : nat -> R) : list obstacle * option (list obstacle) :=
  match stored with
  | Some l => (l, stored)
  | None =>
      let obstacles := map (defaultObstacle W H u) (seq 0 6) in
      (obstacles, Some obstacles)
  end.

(** The obstacle part of the [btnReset] handler:
    [obstacles = []; loadObstacles()]. *)
Definition resetObstacles (stored : option (list obstacle)) (W H : R)
           (u : nat -> R) : list obstacle * option (list obstacle) :=
  loadObstacles stored W H u.

(** *** Drawing a hotspot, and the zoom wheel *)

(** [metersToCanvas]; the globals [devicePos] and [zoom] are arguments. *)
Definition metersToCanvas (devX devY zoom dx dy : R) : point :=
  mkPoint (devX + dx * zoom) (devY - dy * zoom).

(** [lineAtten] of [drawHotspot] for a node at [(x, y)] metres. *)
Definition lineAtten (obstacles : list obstacle) (devX devY zoom x y : R) : R :=
  let canvasPos := metersToCanvas devX devY zoom x y in
  obstacleAttenuationOnPath obstacles devX devY (px canvasPos) (py canvasPos).

(** The alpha of the connection line, [0.35*lineAtten]. *)
Definition strokeAlpha (obstacles : list obstacle) (devX devY zoom x y : R) : R :=
  35 / 100 * lineAtten obstacles devX devY zoom x y.

(** [glowR], the radius of the aura. *)
Definition glowR (obstacles : list obstacle) (devX devY zoom x y rssi : R) : R :=
  (18 + 90 * maxGlow rssi)
  * (6 / 10 + 4 / 10 * lineAtten obstacles devX devY zoom x y).

(** [Math.sign] on a number. *)
Definition sign (x : R) : R :=
  if Rltb 0 x then 1 else if Rltb x 0 then - 1 else 0.

(** The [wheel] listener: the new [zoom]. *)
Definition wheel (deltaY zoom : R) : R :=
  let delta := - sign deltaY * (1 / 10) in
  clamp (zoom * (1 + delta)) 2 200.

End Trilat.

(** ** Radial-layout variants *)

Module Radial.

(** [rssiToDistance(rssi, band)]: [n] is 2.7 on 5 GHz and 2.2 otherwise,
    [P0] is -47 on 5 GHz and -42 otherwise. *)
Definition rssiToDistance (rssi : R) (band : string) : R :=
  let n := if is5GHz band then 27 / 10 else 22 / 10 in
  let P0 := if is5GHz band then - 47 else - 42 in
  let d := Rpower 10 ((P0 - rssi) / (10 * n)) in
  clamp d (5 / 10) 100.

(** [updateSmoothed(network)]: the blend target is the raw reading. *)
Definition updateSmoothed (smoothed : JsMap.t smooth) (nw : network)
  : smooth * JsMap.t smooth :=
  let key := bssid nw in
  let prev := match JsMap.get smoothed key with
              | Some p => p
              | None => mkSmooth (rssi nw) (rssiToDistance (rssi nw) (band nw))
              end in
  let targetRssi := rssi nw in
  let newRssi := lerp (s_rssi prev) targetRssi alpha in
  let dist := rssiToDistance newRssi (band nw) in
  let newDist := lerp (s_dist prev) dist alpha in
  let data := mkSmooth newRssi newDist in
  (data, JsMap.set smoothed key data).

(** *** [draw]: ideal positions *)

Record node : Type := mkNode {
  n_id   : string;
  n_x    : R;
  n_y    : R;
  n_rssi : R;
  n_dist : R;
  n_meta : network
}.

(** [Math.PI * (3 - Math.sqrt(5))] *)
Definition goldenAngleIncrement : R := PI * (3 - sqrt 5).

(** [Math.pow(b, 0.7)] for a base in [[0,1]]: 0 at 0. *)
Definition pow07 (b : R) : R :=
  if Rle_dec b 0 then 0 else Rpower b (7 / 10).

(** State threaded through a frame: the [smoothed] and [networkAngles]
    tables and the [displayNodes] array under construction. *)
Record frame_state : Type := mkFrame {
  smoothed      : JsMap.t smooth;
  networkAngles : JsMap.t R;
  displayNodes  : list node
}.

(** The angle bookkeeping of the [forEach] callback:
    [if (!networkAngles.has(id)) networkAngles.set(id, size * increment)]. *)
Definition assignAngle (angles : JsMap.t R) (id : string) : JsMap.t R :=
  if negb (JsMap.has angles id)
  then JsMap.set angles id (INR (JsMap.size angles) * goldenAngleIncrement)
  else angles.

Section Draw.
(** Canvas geometry of the variant: the device position and the outer
    radius ([devicePos] is the origin in the pan/zoom variant). *)
Variables devX devY MAX_RADIUS : R.

Definition MIN_RADIUS : R := 80.

(** Body of [liveNetworks.forEach(n => ...)]. *)
Definition placeOne (st : frame_state) (n : network) : frame_state :=
  let '(smooth, sm') := updateSmoothed (smoothed st) n in
  let angles' := assignAngle (networkAngles st) (bssid n) in
  let angle := match JsMap.get angles' (bssid n) with
               | Some a => a
               | None => 0
               end in
  let rssiT := (clamp (s_rssi smooth) (- 90) (- 30) + 90) / 60 in
  let radiusT := pow07 (1 - rssiT) in
  let displayRadius := MIN_RADIUS + (MAX_RADIUS - MIN_RADIUS) * radiusT in
  let x := devX + displayRadius * cos angle in
  let y := devY + displayRadius * sin angle in
  mkFrame sm' angles'
          (displayNodes st
           ++ [mkNode (bssid n) x y (s_rssi smooth) (s_dist smooth) n]).

(** Stage 1 of [draw]: [displayNodes = []], then the [forEach]. *)
Definition placeAll (st : frame_state) (liveNetworks : list network)
  : frame_state :=
  fold_left placeOne liveNetworks
            (mkFrame (smoothed st) (networkAngles st) []).
End Draw.

(** *** [draw]: repulsion relaxation *)

Definition iterations : nat := 5.
Definition repulsionStrength : R := 6 / 10.
Definition minSeparation : R := 110.

(** In-place write of element [i]; out of range nothing is written (the
    loops below only use indices in range). *)
Fixpoint setNth (i : nat) (v : node) (l : list node) : list node :=
  match l, i with
  | [], _ => []
  | _ :: l', O => v :: l'
  | a :: l', S i' => a :: setNth i' v l'
  end.

Definition moveTo (n : node) (x y : R) : node :=
  mkNode (n_id n) x y (n_rssi n) (n_dist n) (n_meta n).

(** Body of the innermost loop for the pair [(i, j)]. *)
Definition repelPair (nodes : list node) (i j : nat) : list node :=
  match nth_error nodes i, nth_error nodes j with
  | Some nodeA, Some nodeB =>
      let dx := n_x nodeB - n_x nodeA in
      let dy := n_y nodeB - n_y nodeA in
      let distanceSq := dx * dx + dy * dy in
      if Rgtb distanceSq 0 && Rltb distanceSq (minSeparation * minSeparation)
      then
        let distance := sqrt distanceSq in
        let force := (minSeparation - distance) / distance * repulsionStrength in
        let moveX := dx * force * (5 / 10) in
        let moveY := dy * force * (5 / 10) in
        let nodes1 :=
          setNth i (moveTo nodeA (n_x nodeA - moveX) (n_y nodeA - moveY)) nodes in
        setNth j (moveTo nodeB (n_x nodeB + moveX) (n_y nodeB + moveY)) nodes1
      else nodes
  | _, _ => nodes
  end.

(** [for (j = i + 1; j < displayNodes.length; j++)] *)
Definition repelFrom (i : nat) (nodes : list node) : list node :=
  fold_left (fun ns j => repelPair ns i j)
            (seq (S i) (List.length nodes - S i)) nodes.

(** [for (i = 0; i < displayNodes.length; i++)]: one relaxation pass. *)
Definition relaxOnce (nodes : list node) : list node :=
  fold_left (fun ns i => repelFrom i ns) (seq 0 (List.length nodes)) nodes.

(** [for (iter = 0; iter < iterations; iter++)] *)
Definition relax (nodes : list node) : list node :=
  Nat.iter iterations relaxOnce nodes.

(** The whole layout part of [draw]. *)
Definition draw (devX devY MAX_RADIUS : R) (st : frame_state)
           (liveNetworks : list network) : frame_state :=
  let st1 := placeAll devX devY MAX_RADIUS st liveNetworks in
  mkFrame (smoothed st1) (networkAngles st1) (relax (displayNodes st1)).

(** [btnReset]: [networkAngles.clear()]. *)
Definition reset (st : frame_state) : frame_state :=
  mkFrame (smoothed st) JsMap.empty (displayNodes st).

(** Scoring weight of this variant: [avgRssi - avgDist]. *)
Definition suggest := suggestBest 1.
Definition step := step rssiToDistance 1.

(** *** Pan and zoom of the interactive radial variant *)

(** The globals [zoom], [panX], [panY], [isPanning] and [lastPan]. *)
Record view : Type := mkView {
  zoom      : R;
  panX      : R;
  panY      : R;
  isPanning : bool;
  lastPanX  : R;
  lastPanY  : R
}.

(** Their values when the script is loaded. *)
Definition initView : view := mkView 1 0 0 false 0 0.

(** The [wheel] listener; [rleft] and [rtop] are [left] and [top] of
    [getBoundingClientRect], [W] and [H] are the canvas size. *)
Definition wheel (W H rleft rtop clientX clientY deltaY : R) (v : view) : view :=
  let mouseX := clientX - rleft - W / 2 in
  let mouseY := clientY - rtop - H / 2 in
  let zoomFactor := 11 / 10 in
  let oldZoom := zoom v in
  let zoom' := if Rltb deltaY 0
               then Rmin (zoom v * zoomFactor) 10
               else Rmax (zoom v / zoomFactor) (2 / 10) in
  mkView zoom'
         (mouseX - (mouseX - panX v) * (zoom' / oldZoom))
         (mouseY - (mouseY - panY v) * (zoom' / oldZoom))
         (isPanning v) (lastPanX v) (lastPanY v).

(** The [mousedown] listener. *)
Definition mousedown (clientX clientY : R) (v : view) : view :=
  mkView (zoom v) (panX v) (panY v) true clientX clientY.

(** The pan part of the [mousemove] listener. *)
Definition mousemove (clientX clientY : R) (v : view) : view :=
  if isPanning v
  then mkView (zoom v)
              (panX v + (clientX - lastPanX v))
              (panY v + (clientY - lastPanY v))
              true clientX clientY
  else v.

(** The [mouseup] and [mouseleave] listeners. *)
Definition mouseup (v : view) : view :=
  mkView (zoom v) (panX v) (panY v) false (lastPanX v) (lastPanY v).

(** The view part of the [btnReset] handler. *)
Definition resetView (v : view) : view :=
  mkView 1 0 0 (isPanning v) (lastPanX v) (lastPanY v).

(** The layout coordinates under the pointer, as the [mousemove] listener
    computes them for the hover test. *)
Definition pointerX (W rleft clientX : R) (v : view) : R :=
  (clientX - rleft - W / 2 - panX v) / zoom v.

Definition pointerY (H rtop clientY : R) (v : view) : R :=
  (clientY - rtop - H / 2 - panY v) / zoom v.

(** [glowR] of [drawHotspot] in the radial variants. *)
Definition glowR (rssi : R) : R := 18 + 90 * maxGlow rssi.

End Radial.

(** * Vocabulary of the properties *)

(** ** Smoothing filter: runs of calls *)

(** The signal the filter blends from: the stored entry, or the raw
    reading when the emitter has no entry yet. *)
Definition prevRssi (sm : JsMap.t smooth) (nw : network) : R :=
  match JsMap.get sm (bssid nw) with
  | Some p => s_rssi p
  | None => rssi nw
  end.

(** The table after [n] successive radial [updateSmoothed] calls for the
    same network record. *)
Fixpoint radialCalls (n : nat) (sm : JsMap.t smooth) (nw : network)
  : JsMap.t smooth :=
  match n with
  | O => sm
  | S n' => snd (Radial.updateSmoothed (radialCalls n' sm nw) nw)
  end.

(** The table after [n] successive trilateration-variant
    [updateSmoothed] calls for the same network record; the [i]-th call
    consumes the draw [us i] of [Math.random]. *)
Fixpoint trilatCalls (us : nat -> R) (n : nat) (sm : JsMap.t smooth)
         (nw : network) : JsMap.t smooth :=
  match n with
  | O => sm
  | S n' => snd (Trilat.updateSmoothed (us n') (trilatCalls us n' sm nw) nw)
  end.

(** ** Multilateration: determinant and noiseless observations *)

(** Sum of a list of numbers. *)
Definition Rsum (l : list R) : R := fold_right Rplus 0 l.

(** The determinant of [AtA] as the specification words it: rows
    [A_i = [2(x_i - x_1), 2(y_i - y_1)]] for the observations after the
    first, all projected relative to the first one. *)
Definition specRows (snapshots : list Trilat.snapshot) : list (R * R) :=
  match snapshots with
  | [] => []
  | s1 :: others =>
      map (fun s => (2 * (Trilat.px (Trilat.toXY s1 s) - Trilat.px (Trilat.toXY s1 s1)),
                     2 * (Trilat.py (Trilat.toXY s1 s) - Trilat.py (Trilat.toXY s1 s1))))
          others
  end.

Definition specDet (snapshots : list Trilat.snapshot) : R :=
  let A := specRows snapshots in
  Rsum (map (fun r => fst r * fst r) A) * Rsum (map (fun r => snd r * snd r) A)
  - Rsum (map (fun r => fst r * snd r) A) * Rsum (map (fun r => fst r * snd r) A).

(** Euclidean distance of the plane, [Math.sqrt(dx*dx + dy*dy)]. *)
Definition euclid (p q : Trilat.point) : R :=
  sqrt ((Trilat.px p - Trilat.px q) ^ 2 + (Trilat.py p - Trilat.py q) ^ 2).

(** Three observations are noiseless for the offset [t] when each
    distance is the Euclidean distance from the observation's projected
    position to [t]. *)
Definition noiseless (t : Trilat.point) (s1 s2 s3 : Trilat.snapshot) : Prop :=
  Trilat.dist s1 = euclid (Trilat.toXY s1 s1) t
  /\ Trilat.dist s2 = euclid (Trilat.toXY s1 s2) t
  /\ Trilat.dist s3 = euclid (Trilat.toXY s1 s3) t.

(** Three vantage points on the equator grid, 40.075 m east and 11.132 m
    north of the first one, all at the same distance from the emitter. *)
Definition ex_dist : R := sqrt (43248176225 / 100000000).
Definition ex_s1 : Trilat.snapshot := Trilat.mkSnapshot 0 0 ex_dist.
Definition ex_s2 : Trilat.snapshot := Trilat.mkSnapshot 0 (36 / 100000) ex_dist.
Definition ex_s3 : Trilat.snapshot := Trilat.mkSnapshot (1 / 10000) 0 ex_dist.
Definition ex_true : Trilat.point := Trilat.mkPoint (200375 / 10000) (5566 / 1000).

(** ** Obstruction model: crossing, sides and scenarios *)

(** Product of a list of numbers. *)
Definition Rprod (l : list R) : R := fold_right Rmult 1 l.

(** The orientation predicate and the two-sided test, as propositions:
    [c] is strictly counter-clockwise of the ray from [a] through [b]. *)
Definition ccwP (ax ay bx by_ cx cy : R) : Prop :=
  (by_ - ay) * (cx - ax) < (cy - ay) * (bx - ax).

(** Exactly one of the two holds: the [!==] of the two test results. *)
Definition differ (P Q : Prop) : Prop := (P /\ ~ Q) \/ (~ P /\ Q).

Definition crossesEdge (x1 y1 x2 y2 : R) (e : R * R * R * R) : Prop :=
  let '(x3, y3, x4, y4) := e in
  differ (ccwP x1 y1 x3 y3 x4 y4) (ccwP x2 y2 x3 y3 x4 y4)
  /\ differ (ccwP x1 y1 x2 y2 x3 y3) (ccwP x1 y1 x2 y2 x4 y4).

(** The segment crosses the boundary of the rectangle when it passes the
    test against one of the four edges. *)
Definition crossesBoundary (x1 y1 x2 y2 : R) (r : Trilat.obstacle) : Prop :=
  exists e, In e (Trilat.edges r) /\ crossesEdge x1 y1 x2 y2 e.

(** A point of the closed segment from [(x1,y1)] to [(x2,y2)]. *)
Definition onSegment (x1 y1 x2 y2 px py : R) : Prop :=
  exists t, 0 <= t <= 1 /\ px = x1 + t * (x2 - x1) /\ py = y1 + t * (y2 - y1).

(** The factor one obstacle contributes to the path. *)
Definition factorOf (x1 y1 x2 y2 : R) (ob : Trilat.obstacle) : R :=
  if Trilat.lineIntersectsRect x1 y1 x2 y2 ob then 1 - Trilat.attenuation ob else 1.

(** Three disjoint obstacles along one row of the canvas. *)
Definition ex_wall : Trilat.obstacle := Trilat.mkObstacle 100 100 80 40 (4 / 10).
Definition ex_door : Trilat.obstacle := Trilat.mkObstacle 300 100 80 40 (5 / 10).
Definition ex_desk : Trilat.obstacle := Trilat.mkObstacle 500 100 80 40 (5 / 10).

(** Each edge's orientation test on a point says on which side of the
    edge's line the point is; a point on the line is on the outer side. *)
Definition cell (r : Trilat.obstacle) (x y : R) : bool * bool * bool * bool :=
  (Rltb (Trilat.oy r) y, Rltb x (Trilat.ox r + Trilat.ow r),
   Rltb y (Trilat.oy r + Trilat.oh r), Rltb (Trilat.ox r) x).

(** A point of the open rectangle. *)
Definition strictlyInside (r : Trilat.obstacle) (x y : R) : Prop :=
  Trilat.ox r < x < Trilat.ox r + Trilat.ow r
  /\ Trilat.oy r < y < Trilat.oy r + Trilat.oh r.

(** The rectangle [0,10] x [0,10] with attenuation 0.4. *)
Definition ex_box : Trilat.obstacle := Trilat.mkObstacle 0 0 10 10 (4 / 10).

(** ** Rolling analysis: admissible answers and scenarios *)

(** An entry takes part in the scoring when its window holds at least
    five samples. *)
Definition qualifies (arr : list sample) : Prop := (5 <= List.length arr)%nat.

(** What a scoring run over the window [w] with weight [k] may answer. *)
Definition scoring_ok (k : R) (w : JsMap.t (list sample))
           (res : option best_t) : Prop :=
  match res with
  | None => forall key arr, In (key, arr) w -> ~ qualifies arr
  | Some b =>
      (exists arr, In (b_bssid b, arr) w /\ qualifies arr
                   /\ b_avgRssi b = avgOf a_rssi arr
                   /\ b_avgDist b = avgOf a_dist arr
                   /\ b_meta b = lastMeta arr
                   /\ b_score b = b_avgRssi b - k * b_avgDist b)
      /\ (forall key arr, In (key, arr) w -> qualifies arr ->
                          avgOf a_rssi arr - k * avgOf a_dist arr <= b_score b)
  end.

(** The same with a running [best] carried in from earlier entries. *)
Definition scoring_from (k : R) (acc : option best_t)
           (w : JsMap.t (list sample)) (res : option best_t) : Prop :=
  match res with
  | None => acc = None /\ forall key arr, In (key, arr) w -> ~ qualifies arr
  | Some b =>
      (acc = Some b
       \/ exists arr, In (b_bssid b, arr) w /\ qualifies arr
                      /\ b_avgRssi b = avgOf a_rssi arr
                      /\ b_avgDist b = avgOf a_dist arr
                      /\ b_meta b = lastMeta arr
                      /\ b_score b = b_avgRssi b - k * b_avgDist b)
      /\ (forall a, acc = Some a -> b_score a <= b_score b)
      /\ (forall key arr, In (key, arr) w -> qualifies arr ->
                          avgOf a_rssi arr - k * avgOf a_dist arr <= b_score b)
  end.

(** A network record for the scenarios. *)
Definition ex_net (id : string) : network := mkNetwork id "5 GHz" (- 60).

(** A window of [n] identical samples. *)
Definition ex_window (id : string) (n : nat) (sig dst : R) : list sample :=
  repeat (mkSample 0 sig dst (ex_net id)) n.

(** A very strong emitter with only two samples next to a weak one with
    five. *)
Definition ex_short : JsMap.t (list sample) :=
  [ ("strong"%string, ex_window "strong"%string 2 (- 30) 1);
    ("steady"%string, ex_window "steady"%string 5 (- 70) 30) ].

(** The entry the scoring builds from the window of the weak emitter. *)
Definition ex_steady_best : best_t :=
  mkBest "steady"%string (avgOf a_rssi (ex_window "steady"%string 5 (- 70) 30))
         (avgOf a_dist (ex_window "steady"%string 5 (- 70) 30))
         (Some (ex_net "steady"%string))
         (avgOf a_rssi (ex_window "steady"%string 5 (- 70) 30)
          - 2 * avgOf a_dist (ex_window "steady"%string 5 (- 70) 30)).

(** ** Radial layout: event runs and the angle invariant *)

(** What happens to the radial front end between two observations of its
    state: a frame is drawn for the current scan, with the canvas
    geometry of that moment, or the reset button is pressed. *)
Inductive event : Type :=
| Frame (devX devY MAX_RADIUS : R) (liveNetworks : list network)
| Reset.

(** One event applied to the state. *)
Definition runEvent (st : Radial.frame_state) (ev : event) : Radial.frame_state :=
  match ev with
  | Frame devX devY MAX_RADIUS liveNetworks =>
      Radial.draw devX devY MAX_RADIUS st liveNetworks
  | Reset => Radial.reset st
  end.

(** A sequence of events, oldest first. *)
Definition run (events : list event) (st : Radial.frame_state)
  : Radial.frame_state :=
  fold_left runEvent events st.

(** The tables are empty when the script is loaded. *)
Definition initState : Radial.frame_state :=
  Radial.mkFrame JsMap.empty JsMap.empty [].

(** The entry at position [i] of the table, that is the [i]-th emitter to
    have appeared since the table was last empty, holds [i] increments. *)
Definition angles_ok (angles : JsMap.t R) : Prop :=
  forall i key a, nth_error angles i = Some (key, a) ->
                  a = INR i * Radial.goldenAngleIncrement.

(** A scan that lists the first access point twice. *)
Definition ex_scan : list network :=
  [ mkNetwork "aa:01" "5 GHz" (- 48); mkNetwork "aa:02" "2.4 GHz" (- 71);
    mkNetwork "aa:01" "5 GHz" (- 50) ].

(** ** Radial layout: centroid *)

(** Coordinate sums over the node array. *)
Definition sumX (nodes : list Radial.node) : R := Rsum (map Radial.n_x nodes).
Definition sumY (nodes : list Radial.node) : R := Rsum (map Radial.n_y nodes).

(** Centroid of the node set: mean x and mean y. *)
Definition meanX (nodes : list Radial.node) : R :=
  sumX nodes / INR (List.length nodes).
Definition meanY (nodes : list Radial.node) : R :=
  sumY nodes / INR (List.length nodes).

(** Quantities kept by a transformation of the node array. *)
Definition keeps_centroid (f : list Radial.node -> list Radial.node) : Prop :=
  forall nodes,
    List.length (f nodes) = List.length nodes
    /\ sumX (f nodes) = sumX nodes /\ sumY (f nodes) = sumY nodes.

(** ** Smoothing filter: runs over several emitters *)

(** The table after a run of radial [updateSmoothed] calls, one network
    record per call, oldest first. *)
Definition radialRun (calls : list network) (sm : JsMap.t smooth)
  : JsMap.t smooth :=
  fold_left (fun sm nw => snd (Radial.updateSmoothed sm nw)) calls sm.

(** The same for the trilateration variants; each call comes with the
    draw of [Math.random] it consumes. *)
Definition trilatRun (calls : list (R * network)) (sm : JsMap.t smooth)
  : JsMap.t smooth :=
  fold_left (fun sm c => snd (Trilat.updateSmoothed (fst c) sm (snd c))) calls sm.

(** Every entry of the table holds a distance of the clamp range. *)
Definition dist_in_range (sm : JsMap.t smooth) : Prop :=
  forall key s, JsMap.get sm key = Some s -> 5 / 10 <= s_dist s <= 100.

(** Every entry of the table holds a signal between [lo] and [hi]. *)
Definition rssi_within (lo hi : R) (sm : JsMap.t smooth) : Prop :=
  forall key s, JsMap.get sm key = Some s -> lo <= s_rssi s <= hi.

(** ** Multilateration: the linear system and its residual *)




(** ** Multilateration: the snapshots of one emitter *)

(** The list stored under a key, [[]] when the key is absent. *)
Definition getList {A : Type} (m : JsMap.t (list A)) (k : string) : list A :=
  match JsMap.get m k with
  | Some l => l
  | None => []
  end.

(** The snapshots of emitter [k]: one per listing of [k] in the scans,
    scan by scan, each taken at the fix paired with its scan. *)
Definition snapshotsFor (k : string) (gws : list (Trilat.gpsfix * Trilat.scan))
  : list Trilat.snapshot :=
  flat_map (fun gw =>
              match Trilat.networks (snd gw) with
              | None => []
              | Some ns =>
                  map (Trilat.snapshotOf (fst gw))
                      (filter (fun n => String.eqb (bssid n) k) ns)
              end) gws.

(** The three fixes paired with the three scans of a complete answer. *)
Definition pairsOf (g1 g2 g3 : Trilat.gpsfix) (w1 w2 w3 : Trilat.scan)
  : list (Trilat.gpsfix * Trilat.scan) :=
  [(g1, w1); (g2, w2); (g3, w3)].

(** ** Obstruction model: orientation, corners, attenuation ranges *)

(** Twice the signed area of the triangle [a b c]; [ccw] tests its sign. *)
Definition orient (ax ay bx by_ cx cy : R) : R :=
  (cy - ay) * (bx - ax) - (by_ - ay) * (cx - ax).

(** The four corners of the rectangle. *)
Definition corners (r : Trilat.obstacle) : list (R * R) :=
  [ (Trilat.ox r, Trilat.oy r);
    (Trilat.ox r + Trilat.ow r, Trilat.oy r);
    (Trilat.ox r + Trilat.ow r, Trilat.oy r + Trilat.oh r);
    (Trilat.ox r, Trilat.oy r + Trilat.oh r) ].

(** No corner of the rectangle lies on the line through the two points. *)
Definition clearOfCorners (x1 y1 x2 y2 : R) (r : Trilat.obstacle) : Prop :=
  forall c, In c (corners r) -> orient x1 y1 x2 y2 (fst c) (snd c) <> 0.

(** Every obstacle absorbs a fraction of [[lo, hi]]. *)
Definition attenuations_in (lo hi : R) (obstacles : list Trilat.obstacle) : Prop :=
  forall ob, In ob obstacles -> lo <= Trilat.attenuation ob <= hi.

(** ** Rolling analysis: time order and age of a window *)

(** Timestamps never decrease along the window. *)
Definition timeSorted (arr : list sample) : Prop :=
  StronglySorted Rle (map t_ms arr).

(** No sample of the window is more than 30 000 ms older than [ts]. *)
Definition fresh (ts : R) (arr : list sample) : Prop :=
  Forall (fun a => ts - t_ms a <= 30000) arr.

(** Every window of the table is time-ordered and holds no sample later
    than [ts]. *)
Definition windows_ordered (ts : R) (w : JsMap.t (list sample)) : Prop :=
  forall k arr, JsMap.get w k = Some arr ->
                timeSorted arr /\ Forall (fun a => t_ms a <= ts) arr.

(** The running best is strictly below [x] (no running best counts). *)
Definition beaten (acc : option best_t) (x : R) : Prop :=
  match acc with
  | None => True
  | Some a => b_score a < x
  end.

(** There is a running best and [x] does not exceed it. *)
Definition covered (acc : option best_t) (x : R) : Prop :=
  match acc with
  | None => False
  | Some a => x <= b_score a
  end.

(** ** Radial layout: radius and spacing *)

(** The display radius [placeOne] derives from a smoothed signal. *)
Definition radiusFor (MAX_RADIUS s : R) : R :=
  Radial.MIN_RADIUS
  + (MAX_RADIUS - Radial.MIN_RADIUS)
    * Radial.pow07 (1 - (clamp s (- 90) (- 30) + 90) / 60).

(** Squared distance between two nodes. *)
Definition distSq (a b : Radial.node) : R :=
  (Radial.n_x b - Radial.n_x a) * (Radial.n_x b - Radial.n_x a)
  + (Radial.n_y b - Radial.n_y a) * (Radial.n_y b - Radial.n_y a).

(** No pair of nodes triggers the repulsion: every two nodes coincide or
    are at least [minSeparation] apart. *)
Definition settled (nodes : list Radial.node) : Prop :=
  forall i j a b, nth_error nodes i = Some a -> nth_error nodes j = Some b ->
                  distSq a b = 0 \/ 110 * 110 <= distSq a b.

(** The part of a node the relaxation has no business with. *)
Definition identityOf (n : Radial.node) : string * R * R * network :=
  (Radial.n_id n, Radial.n_rssi n, Radial.n_dist n, Radial.n_meta n).

(** ** Interactive radial variant: pointer events *)

Inductive viewEvent : Type :=
| Wheel (W H rleft rtop clientX clientY deltaY : R)
| MouseDown (clientX clientY : R)
| MouseMove (clientX clientY : R)
| MouseUp
| ResetView.

Definition viewStep (v : Radial.view) (e : viewEvent) : Radial.view :=
  match e with
  | Wheel W H rleft rtop cx cy dy => Radial.wheel W H rleft rtop cx cy dy v
  | MouseDown cx cy => Radial.mousedown cx cy v
  | MouseMove cx cy => Radial.mousemove cx cy v
  | MouseUp => Radial.mouseup v
  | ResetView => Radial.resetView v
  end.

(** The pointer positions of a drag, as [mousemove] events. *)
Definition dragMoves (path : list (R * R)) : list viewEvent :=
  map (fun p => MouseMove (fst p) (snd p)) path.

(** ** Obstruction model: the rectangle as the specification names it *)

(** The four sides of the rectangle with corner [(x, y)], width [w] and
    height [h], each running from one corner to the next, going round
    from [(x, y)] by [(x + w, y)], [(x + w, y + h)] and [(x, y + h)]. *)
Definition rectSides (r : Trilat.obstacle) : list (R * R * R * R) :=
  let xa := Trilat.ox r in
  let ya := Trilat.oy r in
  let xb := Trilat.ox r + Trilat.ow r in
  let yb := Trilat.oy r + Trilat.oh r in
  [ (xa, ya, xb, ya); (xb, ya, xb, yb); (xb, yb, xa, yb); (xa, yb, xa, ya) ].

(** The segment passes the orientation test against one of the four
    sides. *)
Definition crossesRect (x1 y1 x2 y2 : R) (r : Trilat.obstacle) : Prop :=
  exists e, In e (rectSides r) /\ crossesEdge x1 y1 x2 y2 e.

(** The segment and the boundary of the rectangle have a point in
    common. *)
Definition meetsRect (x1 y1 x2 y2 : R) (r : Trilat.obstacle) : Prop :=
  exists px py,
    onSegment x1 y1 x2 y2 px py
    /\ exists x3 y3 x4 y4,
         In (x3, y3, x4, y4) (rectSides r) /\ onSegment x3 y3 x4 y4 px py.

(** The segment crosses the side properly: the two are not parallel and
    meet in a point that is an endpoint of neither. *)
Definition crossesProperly (x1 y1 x2 y2 : R) (e : R * R * R * R) : Prop :=
  let '(x3, y3, x4, y4) := e in
  exists t u,
    0 < t < 1 /\ 0 < u < 1
    /\ x1 + t * (x2 - x1) = x3 + u * (x4 - x3)
    /\ y1 + t * (y2 - y1) = y3 + u * (y4 - y3)
    /\ (x2 - x1) * (y4 - y3) <> (y2 - y1) * (x4 - x3).

(** The segment passes through the rectangle: it holds a point of the
    open rectangle and does not have both endpoints in it. *)
Definition passesThrough (x1 y1 x2 y2 : R) (r : Trilat.obstacle) : Prop :=
  (exists px py, onSegment x1 y1 x2 y2 px py /\ strictlyInside r px py)
  /\ ~ (strictlyInside r x1 y1 /\ strictlyInside r x2 y2).

(** ** Rolling analysis: the recommendation as the specification words it *)

(** The average of a list of numbers: their sum divided by their count. *)
Definition mean (l : list R) : R := Rsum l / INR (List.length l).

(** The score of a window: its average signal minus [k] times its
    average distance. *)
Definition windowScore (k : R) (arr : list sample) : R :=
  mean (map a_rssi arr) - k * mean (map a_dist arr).

(** The recommendation [res] made from the window table [w] with weight
    [k]: none when no window holds 5 samples; otherwise an emitter of the
    table whose window holds at least 5 samples, reported with the
    averages and the score of that window, the score being the largest
    among the windows with at least 5 samples. *)
Definition recommends (k : R) (w : JsMap.t (list sample))
           (res : option best_t) : Prop :=
  match res with
  | None => forall key arr, In (key, arr) w -> ~ qualifies arr
  | Some b =>
      exists arr,
        In (b_bssid b, arr) w /\ qualifies arr
        /\ b_avgRssi b = mean (map a_rssi arr)
        /\ b_avgDist b = mean (map a_dist arr)
        /\ b_score b = windowScore k arr
        /\ forall key' arr', In (key', arr') w -> qualifies arr' ->
                             windowScore k arr' <= b_score b
  end.

(** * Properties *)

(** ** Numeric helpers *)

Lemma Rltb_true (a b : R) : Rltb a b = true <-> a < b.
Proof. unfold Rltb; destruct (Rlt_dec a b); split; intros; try easy; lra. Qed.

Lemma Rltb_false (a b : R) : Rltb a b = false <-> b <= a.
Proof. unfold Rltb; destruct (Rlt_dec a b); split; intros; try easy; lra. Qed.

Lemma clamp_bounds (v a b : R) : a <= b -> a <= clamp v a b <= b.
Proof.
  intros Hab; unfold clamp, Rmax, Rmin.
  destruct (Rle_dec b v); destruct (Rle_dec a _); lra.
Qed.

Lemma clamp_mono (v w a b : R) : v <= w -> clamp v a b <= clamp w a b.
Proof.
  intros Hvw; unfold clamp.
  apply Rle_max_compat_l, Rle_min_compat_l; exact Hvw.
Qed.

Lemma pathLoss_antitone (n P0 r1 r2 : R) :
  0 < n -> r1 <= r2 -> pathLoss n P0 r2 <= pathLoss n P0 r1.
Proof.
  intros Hn Hr; unfold pathLoss.
  apply Rle_Rpower; [lra|].
  unfold Rdiv; apply Rmult_le_compat_r.
  - left; apply Rinv_0_lt_compat; lra.
  - lra.
Qed.

(** ** Facts about the [Map] model *)

Module JsMapFacts.
Import JsMap.
Section Facts.
Context {V : Type}.

Lemma get_set_same (m : t V) (k : string) (v : V) : get (set m k v) k = Some v.
Proof.
  induction m as [|[k' v'] m IH]; simpl.
  - now rewrite String.eqb_refl.
  - destruct (String.eqb k' k) eqn:E; simpl; rewrite E; auto.
Qed.

Lemma get_set_other (m : t V) (k k0 : string) (v : V) :
  k0 <> k -> get (set m k v) k0 = get m k0.
Proof.
  intros Hne; induction m as [|[k' v'] m IH]; simpl.
  - destruct (String.eqb k k0) eqn:E; auto.
    apply String.eqb_eq in E; congruence.
  - destruct (String.eqb k' k) eqn:E; simpl.
    + apply String.eqb_eq in E; subst k'.
      destruct (String.eqb k k0) eqn:E0; auto.
      apply String.eqb_eq in E0; congruence.
    + now rewrite IH.
Qed.

Lemma get_None_not_In (m : t V) (k : string) :
  get m k = None <-> ~ In k (keys m).
Proof.
  induction m as [|[k' v'] m IH]; simpl.
  - tauto.
  - destruct (String.eqb k' k) eqn:E.
    + apply String.eqb_eq in E; subst; split; [discriminate | tauto].
    + apply String.eqb_neq in E; rewrite IH; tauto.
Qed.

Lemma set_absent (m : t V) (k : string) (v : V) :
  get m k = None -> set m k v = m ++ [(k, v)].
Proof.
  induction m as [|[k' v'] m IH]; simpl; auto.
  destruct (String.eqb k' k); [discriminate|].
  intros H; now rewrite IH.
Qed.

Lemma get_In (m : t V) (k : string) (v : V) : get m k = Some v -> In (k, v) m.
Proof.
  induction m as [|[k' v'] m IH]; simpl; [discriminate|].
  destruct (String.eqb k' k) eqn:E.
  - apply String.eqb_eq in E; subst; intros [= ->]; now left.
  - intros H; right; auto.
Qed.

Lemma In_get_NoDup (m : t V) (k : string) (v : V) :
  NoDup (keys m) -> In (k, v) m -> get m k = Some v.
Proof.
  induction m as [|[k' v'] m IH]; simpl; [tauto|].
  intros Hnd [H|H]; inversion Hnd as [|? ? Hni Hnd']; subst.
  - injection H as -> ->; now rewrite String.eqb_refl.
  - destruct (String.eqb k' k) eqn:E; auto.
    apply String.eqb_eq in E; subst k'.
    exfalso; apply Hni; unfold keys; change k with (fst (k, v)); now apply in_map.
Qed.
End Facts.
End JsMapFacts.

(** ** Distance model *)

Lemma clamped_pathLoss_range (n P0 r : R) :
  5 / 10 <= clamp (pathLoss n P0 r) (5 / 10) 100 <= 100.
Proof. apply clamp_bounds; lra. Qed.

Lemma clamped_pathLoss_antitone (n P0 r1 r2 : R) :
  0 < n -> r1 <= r2 ->
  clamp (pathLoss n P0 r2) (5 / 10) 100 <= clamp (pathLoss n P0 r1) (5 / 10) 100.
Proof. intros Hn Hr; apply clamp_mono, pathLoss_antitone; assumption. Qed.

Lemma Trilat_rssiToDistance_pathLoss (r : R) (b : string) :
  Trilat.rssiToDistance r b =
  clamp (pathLoss (if is5GHz b then 24 / 10 else 21 / 10)
                  (if is5GHz b then - 45 else - 40) r) (5 / 10) 100.
Proof. reflexivity. Qed.

Lemma Radial_rssiToDistance_pathLoss (r : R) (b : string) :
  Radial.rssiToDistance r b =
  clamp (pathLoss (if is5GHz b then 27 / 10 else 22 / 10)
                  (if is5GHz b then - 47 else - 42) r) (5 / 10) 100.
Proof. reflexivity. Qed.

(** C3. For every signal value in [-90,-30] and every band string (the
    5 GHz band, and any other string, which takes the non-5 GHz
    constants), [rssiToDistance] of either variant lies in [0.5, 100], and
    for a fixed band a stronger signal never gives a larger distance. *)
Theorem rssiToDistance_range_antitone :
  forall (b : string) (s1 s2 : R),
    - 90 <= s1 <= - 30 -> - 90 <= s2 <= - 30 -> s1 <= s2 ->
    (5 / 10 <= Trilat.rssiToDistance s1 b <= 100
     /\ Trilat.rssiToDistance s2 b <= Trilat.rssiToDistance s1 b)
    /\ (5 / 10 <= Radial.rssiToDistance s1 b <= 100
        /\ Radial.rssiToDistance s2 b <= Radial.rssiToDistance s1 b).
Proof.
  intros b s1 s2 _ _ Hle.
  rewrite !Trilat_rssiToDistance_pathLoss, !Radial_rssiToDistance_pathLoss.
  repeat split;
    try apply clamped_pathLoss_range;
    apply clamped_pathLoss_antitone; try assumption;
    destruct (is5GHz b); lra.
Qed.

Lemma rssiToDistance_range_antitone_witness :
  (5 / 10 <= Trilat.rssiToDistance (- 60) "5 GHz" <= 100
   /\ Trilat.rssiToDistance (- 50) "5 GHz" <= Trilat.rssiToDistance (- 60) "5 GHz")
  /\ (5 / 10 <= Radial.rssiToDistance (- 60) "5 GHz" <= 100
      /\ Radial.rssiToDistance (- 50) "5 GHz" <= Radial.rssiToDistance (- 60) "5 GHz").
Proof. apply (rssiToDistance_range_antitone "5 GHz" (- 60) (- 50)); lra. Defined.

(** A band string other than ["5 GHz"] takes the constants of the 2.4 GHz
    band. *)
Lemma rssiToDistance_fallback (r : R) (b : string) :
  b <> "5 GHz"%string ->
  Trilat.rssiToDistance r b = Trilat.rssiToDistance r "2.4 GHz"
  /\ Radial.rssiToDistance r b = Radial.rssiToDistance r "2.4 GHz".
Proof.
  intros Hb; unfold Trilat.rssiToDistance, Radial.rssiToDistance, is5GHz.
  apply String.eqb_neq in Hb; rewrite Hb; simpl; split; reflexivity.
Qed.

(** Inside the clamp the curve is strictly decreasing: on 2.4 GHz the
    trilateration constants give exactly 1 m at -40 dBm and 10 m at
    -61 dBm. *)
Lemma rssiToDistance_samples :
  Trilat.rssiToDistance (- 40) "2.4 GHz" = 1
  /\ Trilat.rssiToDistance (- 61) "2.4 GHz" = 10.
Proof.
  unfold Trilat.rssiToDistance, is5GHz, clamp; simpl; split.
  - replace ((- 40 - - 40) / (10 * (21 / 10))) with 0 by lra.
    rewrite Rpower_O by lra.
    rewrite Rmin_right, Rmax_right; lra.
  - replace ((- 40 - - 61) / (10 * (21 / 10))) with 1 by lra.
    rewrite Rpower_1 by lra.
    rewrite Rmin_right, Rmax_right; lra.
Qed.

(** ** Smoothing filter *)

Lemma lerp_between (a b t : R) :
  0 <= t <= 1 -> Rmin a b <= lerp a b t <= Rmax a b.
Proof.
  intros Ht; unfold lerp, Rmin, Rmax; destruct (Rle_dec a b); nra.
Qed.

Lemma lerp_error (a b t : R) : lerp a b t - b = (1 - t) * (a - b).
Proof. unfold lerp; ring. Qed.

Lemma Radial_updateSmoothed_rssi (sm : JsMap.t smooth) (nw : network) :
  s_rssi (fst (Radial.updateSmoothed sm nw)) = lerp (prevRssi sm nw) (rssi nw) alpha.
Proof.
  unfold Radial.updateSmoothed, prevRssi; simpl.
  destruct (JsMap.get sm (bssid nw)); reflexivity.
Qed.

Lemma Trilat_updateSmoothed_rssi (u : R) (sm : JsMap.t smooth) (nw : network) :
  s_rssi (fst (Trilat.updateSmoothed u sm nw))
  = lerp (prevRssi sm nw) (rssi nw + rand u (- 2) 2) alpha.
Proof.
  unfold Trilat.updateSmoothed, prevRssi; simpl.
  destruct (JsMap.get sm (bssid nw)); reflexivity.
Qed.

Lemma Radial_updateSmoothed_stored (sm : JsMap.t smooth) (nw : network) :
  JsMap.get (snd (Radial.updateSmoothed sm nw)) (bssid nw)
  = Some (fst (Radial.updateSmoothed sm nw)).
Proof. unfold Radial.updateSmoothed; simpl; apply JsMapFacts.get_set_same. Qed.

Lemma Trilat_updateSmoothed_stored (u : R) (sm : JsMap.t smooth) (nw : network) :
  JsMap.get (snd (Trilat.updateSmoothed u sm nw)) (bssid nw)
  = Some (fst (Trilat.updateSmoothed u sm nw)).
Proof. unfold Trilat.updateSmoothed; simpl; apply JsMapFacts.get_set_same. Qed.

Lemma prevRssi_radialCalls_S (n : nat) (sm : JsMap.t smooth) (nw : network) :
  prevRssi (radialCalls (S n) sm nw) nw
  = s_rssi (fst (Radial.updateSmoothed (radialCalls n sm nw) nw)).
Proof.
  unfold prevRssi; cbn [radialCalls].
  now rewrite Radial_updateSmoothed_stored.
Qed.

Lemma alpha_range : 0 <= alpha <= 1.
Proof. unfold alpha; lra. Qed.

Lemma radialCalls_error (n : nat) (sm : JsMap.t smooth) (nw : network) :
  s_rssi (fst (Radial.updateSmoothed (radialCalls n sm nw) nw)) - rssi nw
  = (1 - alpha) ^ S n * (prevRssi sm nw - rssi nw).
Proof.
  induction n as [|n IH].
  - cbn [radialCalls]. rewrite Radial_updateSmoothed_rssi, lerp_error. ring.
  - rewrite Radial_updateSmoothed_rssi, lerp_error, prevRssi_radialCalls_S, IH.
    simpl; ring.
Qed.

Lemma prevRssi_trilatCalls_S (us : nat -> R) (n : nat) (sm : JsMap.t smooth)
      (nw : network) :
  prevRssi (trilatCalls us (S n) sm nw) nw
  = s_rssi (fst (Trilat.updateSmoothed (us n) (trilatCalls us n sm nw) nw)).
Proof.
  unfold prevRssi; cbn [trilatCalls].
  now rewrite Trilat_updateSmoothed_stored.
Qed.

(** One trilateration-variant call: the error against the raw reading is
    0.92 times the previous one plus 0.08 times the drift. *)
Lemma Trilat_updateSmoothed_error (u : R) (sm : JsMap.t smooth) (nw : network) :
  s_rssi (fst (Trilat.updateSmoothed u sm nw)) - rssi nw
  = 92 / 100 * (prevRssi sm nw - rssi nw) + 8 / 100 * rand u (- 2) 2.
Proof. rewrite Trilat_updateSmoothed_rssi; unfold lerp, alpha; field. Qed.

Lemma Trilat_updateSmoothed_step_bound (u : R) (sm : JsMap.t smooth) (nw : network) :
  0 <= u < 1 ->
  Rabs (s_rssi (fst (Trilat.updateSmoothed u sm nw)) - rssi nw)
  <= 92 / 100 * Rabs (prevRssi sm nw - rssi nw) + 16 / 100.
Proof.
  intros Hu; rewrite Trilat_updateSmoothed_error.
  assert (Hd : - 2 <= rand u (- 2) 2 < 2) by (unfold rand; lra).
  set (e := prevRssi sm nw - rssi nw); set (d := rand u (- 2) 2) in *.
  unfold Rabs; destruct (Rcase_abs _), (Rcase_abs e); lra.
Qed.

Lemma trilatCalls_bound (us : nat -> R) (n : nat) (sm : JsMap.t smooth)
      (nw : network) :
  (forall i, 0 <= us i < 1) ->
  Rabs (s_rssi (fst (Trilat.updateSmoothed (us n) (trilatCalls us n sm nw) nw))
        - rssi nw)
  <= (92 / 100) ^ S n * Rabs (prevRssi sm nw - rssi nw)
     + 2 * (1 - (92 / 100) ^ S n).
Proof.
  intros Hus; induction n as [|n IH].
  - cbn [trilatCalls].
    pose proof (Trilat_updateSmoothed_step_bound (us O) sm nw (Hus O)) as Hstep.
    replace ((92 / 100) ^ 1) with (92 / 100) by (simpl; lra).
    set (e0 := Rabs (prevRssi sm nw - rssi nw)) in *.
    lra.
  - pose proof (Trilat_updateSmoothed_step_bound (us (S n))
                  (trilatCalls us (S n) sm nw) nw (Hus (S n))) as Hstep.
    rewrite prevRssi_trilatCalls_S in Hstep.
    change ((92 / 100) ^ S (S n)) with (92 / 100 * (92 / 100) ^ S n).
    set (p := (92 / 100) ^ S n) in *.
    set (e0 := Rabs (prevRssi sm nw - rssi nw)) in *.
    lra.
Qed.

Lemma trilatCalls_no_drift (us : nat -> R) (n : nat) (sm : JsMap.t smooth)
      (nw : network) :
  (forall i, us i = 1 / 2) ->
  s_rssi (fst (Trilat.updateSmoothed (us n) (trilatCalls us n sm nw) nw)) - rssi nw
  = (92 / 100) ^ S n * (prevRssi sm nw - rssi nw).
Proof.
  intros Hus; induction n as [|n IH].
  - cbn [trilatCalls]; rewrite Trilat_updateSmoothed_error, Hus; unfold rand; simpl; lra.
  - rewrite Trilat_updateSmoothed_error, prevRssi_trilatCalls_S, IH, Hus.
    unfold rand; simpl; lra.
Qed.

(** C6, as the code has it.  Radial variants: whatever the table held
    before, the [n]-th of a run of calls with one constant raw reading
    returns a signal between the previously smoothed signal and the raw
    reading, and its distance to the raw reading is [0.92^(n+1)] times
    the initial one.  Trilateration variants: a call blends toward the
    raw reading plus the drawn drift of [[-2, 2)]; its output lies between
    the previously smoothed signal and that drifted target, at 0.92 times
    the previous distance from the target, and its distance to the raw
    reading is at most 0.92 times the previous one plus 0.16.  Over a run
    of calls with one constant raw reading the distance to the raw
    reading after the [n]-th call is at most [0.92^(n+1)] times the
    initial one plus [2 (1 - 0.92^(n+1))]: the outputs converge
    geometrically into the band of 2 dBm around the raw reading, and
    exactly as in the radial variants when every draw gives no drift. *)
Theorem updateSmoothed_converges :
  (forall (sm : JsMap.t smooth) (nw : network) (n : nat),
     let tbl := radialCalls n sm nw in
     let out := s_rssi (fst (Radial.updateSmoothed tbl nw)) in
     Rmin (prevRssi tbl nw) (rssi nw) <= out <= Rmax (prevRssi tbl nw) (rssi nw)
     /\ out - rssi nw = (92 / 100) ^ S n * (prevRssi sm nw - rssi nw)
     /\ prevRssi (radialCalls (S n) sm nw) nw = out)
  /\ (forall (u : R) (sm : JsMap.t smooth) (nw : network),
        0 <= u < 1 ->
        let target := rssi nw + rand u (- 2) 2 in
        let out := s_rssi (fst (Trilat.updateSmoothed u sm nw)) in
        rssi nw - 2 <= target < rssi nw + 2
        /\ Rmin (prevRssi sm nw) target <= out <= Rmax (prevRssi sm nw) target
        /\ out - target = 92 / 100 * (prevRssi sm nw - target)
        /\ Rabs (out - rssi nw) <= 92 / 100 * Rabs (prevRssi sm nw - rssi nw) + 16 / 100)
  /\ (forall (us : nat -> R) (sm : JsMap.t smooth) (nw : network) (n : nat),
        (forall i, 0 <= us i < 1) ->
        let tbl := trilatCalls us n sm nw in
        let out := s_rssi (fst (Trilat.updateSmoothed (us n) tbl nw)) in
        Rabs (out - rssi nw)
        <= (92 / 100) ^ S n * Rabs (prevRssi sm nw - rssi nw)
           + 2 * (1 - (92 / 100) ^ S n)
        /\ prevRssi (trilatCalls us (S n) sm nw) nw = out
        /\ ((forall i, us i = 1 / 2) ->
            out - rssi nw = (92 / 100) ^ S n * (prevRssi sm nw - rssi nw))).
Proof.
  split; [|split].
  - intros sm nw n tbl out; subst tbl out; repeat split.
    + rewrite Radial_updateSmoothed_rssi; apply lerp_between, alpha_range.
    + rewrite Radial_updateSmoothed_rssi; apply lerp_between, alpha_range.
    + rewrite radialCalls_error.
      replace (1 - alpha) with (92 / 100) by (unfold alpha; lra); reflexivity.
    + apply prevRssi_radialCalls_S.
  - intros u sm nw Hu target out; subst target out.
    split; [unfold rand; lra|]; split; [|split].
    + rewrite Trilat_updateSmoothed_rssi; apply lerp_between, alpha_range.
    + rewrite Trilat_updateSmoothed_rssi, lerp_error; unfold alpha; lra.
    + now apply Trilat_updateSmoothed_step_bound.
  - intros us sm nw n Hus tbl out; subst tbl out.
    split; [now apply trilatCalls_bound|].
    split; [apply prevRssi_trilatCalls_S|].
    apply trilatCalls_no_drift.
Qed.

Lemma updateSmoothed_converges_witness :
  let nw := mkNetwork "aa:bb" "5 GHz" (- 50) in
  let sm := [("aa:bb"%string, mkSmooth (- 70) 10)] in
  let us := fun _ : nat => 7 / 8 in
  Rabs (s_rssi (fst (Trilat.updateSmoothed (us 2%nat) (trilatCalls us 2 sm nw) nw))
        - rssi nw)
  <= (92 / 100) ^ 3 * Rabs (prevRssi sm nw - rssi nw) + 2 * (1 - (92 / 100) ^ 3).
Proof.
  intros nw sm us.
  apply (proj1 (proj2 (proj2 updateSmoothed_converges) us sm nw 2%nat
                  ltac:(intros i; unfold us; lra))).
Defined.

(** C6 as worded fails in the trilateration variants: from an empty table
    and a constant raw reading of -50 dBm, two calls that both draw 0.875
    (a drift of +1.5 dBm) return -49.88 and then -49.7696: the second
    output is not between the previous smoothed value and the raw reading,
    and it is farther from the raw reading than the first. *)
Lemma updateSmoothed_drift_overshoots :
  let nw := mkNetwork "aa:bb" "5 GHz" (- 50) in
  let r1 := Trilat.updateSmoothed (7 / 8) JsMap.empty nw in
  let r2 := Trilat.updateSmoothed (7 / 8) (snd r1) nw in
  s_rssi (fst r1) = - 4988 / 100
  /\ s_rssi (fst r2) = - 497696 / 10000
  /\ ~ (Rmin (s_rssi (fst r1)) (rssi nw) <= s_rssi (fst r2)
        <= Rmax (s_rssi (fst r1)) (rssi nw))
  /\ Rabs (s_rssi (fst r1) - rssi nw) < Rabs (s_rssi (fst r2) - rssi nw).
Proof.
  intros nw r1 r2.
  assert (H1 : s_rssi (fst r1) = - 4988 / 100).
  { subst r1 nw; rewrite Trilat_updateSmoothed_rssi.
    unfold prevRssi, lerp, rand, alpha; simpl; lra. }
  assert (H2 : s_rssi (fst r2) = - 497696 / 10000).
  { subst r2; rewrite Trilat_updateSmoothed_rssi.
    unfold prevRssi; unfold r1; rewrite Trilat_updateSmoothed_stored.
    fold r1; rewrite H1.
    subst nw; unfold lerp, rand, alpha; simpl; lra. }
  rewrite H1, H2; subst nw; simpl rssi.
  repeat split.
  - unfold Rmin, Rmax; destruct (Rle_dec (- 4988 / 100) (- 50)); lra.
  - rewrite !Rabs_right by lra; lra.
Qed.

(** C8. In the trilateration variants the value returned by
    [updateSmoothed] depends on the draw of [Math.random]: the blend
    target is the raw reading plus [rand(-2,2)], which lies in [-2, 2),
    and with the same table and the same network two different draws
    return two different smoothed signals. *)
Theorem updateSmoothed_depends_on_draw :
  forall (sm : JsMap.t smooth) (nw : network) (u1 u2 : R),
    0 <= u1 < 1 -> 0 <= u2 < 1 -> u1 <> u2 ->
    - 2 <= rand u1 (- 2) 2 < 2
    /\ s_rssi (fst (Trilat.updateSmoothed u1 sm nw))
       = lerp (prevRssi sm nw) (rssi nw + rand u1 (- 2) 2) alpha
    /\ s_rssi (fst (Trilat.updateSmoothed u1 sm nw))
       <> s_rssi (fst (Trilat.updateSmoothed u2 sm nw)).
Proof.
  intros sm nw u1 u2 H1 H2 Hne; repeat split.
  - unfold rand; lra.
  - unfold rand; lra.
  - apply Trilat_updateSmoothed_rssi.
  - rewrite !Trilat_updateSmoothed_rssi; unfold lerp, rand, alpha.
    intros Heq; apply Hne; lra.
Qed.

Lemma updateSmoothed_depends_on_draw_witness :
  let nw := mkNetwork "aa:bb" "2.4 GHz" (- 60) in
  - 2 <= rand 0 (- 2) 2 < 2
  /\ s_rssi (fst (Trilat.updateSmoothed 0 JsMap.empty nw))
     = lerp (prevRssi JsMap.empty nw) (rssi nw + rand 0 (- 2) 2) alpha
  /\ s_rssi (fst (Trilat.updateSmoothed 0 JsMap.empty nw))
     <> s_rssi (fst (Trilat.updateSmoothed (1 / 2) JsMap.empty nw)).
Proof.
  apply (updateSmoothed_depends_on_draw JsMap.empty
           (mkNetwork "aa:bb" "2.4 GHz" (- 60)) 0 (1 / 2)); lra.
Defined.

(** ** Multilateration solver *)

Lemma fold_left_Rsum {A : Type} (f : A -> R) (l : list A) (acc : R) :
  fold_left (fun s a => s + f a) l acc = acc + Rsum (map f l).
Proof.
  revert acc; induction l as [|a l IH]; intros acc; simpl.
  - ring.
  - rewrite IH; ring.
Qed.

Lemma detOf_systemOf_specDet (snapshots : list Trilat.snapshot) :
  Trilat.detOf (Trilat.systemOf snapshots) = specDet snapshots.
Proof.
  unfold specDet, specRows, Trilat.detOf, Trilat.systemOf.
  destruct snapshots as [|s1 others]; simpl.
  - ring.
  - unfold Trilat.normalEqs; simpl.
    rewrite !fold_left_Rsum, !map_map; unfold Trilat.rowA; simpl.
    ring.
Qed.

(** Below the threshold the solver gives up, whatever the observations. *)
Lemma trilaterate_guard (key : string) (snapshots : list Trilat.snapshot) :
  Rabs (specDet snapshots) < 1 / 1000000 ->
  Trilat.trilaterate key snapshots = None.
Proof.
  intros Hdet; rewrite <- detOf_systemOf_specDet in Hdet.
  unfold Trilat.trilaterate, eps_det.
  destruct (List.length snapshots <? 3)%nat; [reflexivity|].
  now rewrite (proj2 (Rltb_true _ _) Hdet).
Qed.

(** C2. [trilaterate] returns [null] exactly when fewer than 3
    observations are supplied or the determinant of [AtA] is below 1e-6
    in absolute value; in every other case it returns a position. *)
Theorem trilaterate_null_policy :
  forall (key : string) (snapshots : list Trilat.snapshot),
    let degenerate :=
      (List.length snapshots < 3)%nat \/ Rabs (specDet snapshots) < 1 / 1000000 in
    (Trilat.trilaterate key snapshots = None <-> degenerate)
    /\ (degenerate /\ Trilat.trilaterate key snapshots = None
        \/ ~ degenerate /\ exists p, Trilat.trilaterate key snapshots = Some p).
Proof.
  intros key snapshots degenerate; subst degenerate.
  rewrite <- detOf_systemOf_specDet.
  unfold Trilat.trilaterate, eps_det.
  destruct (List.length snapshots <? 3)%nat eqn:Hlen.
  - apply Nat.ltb_lt in Hlen; split; [tauto | left; tauto].
  - apply Nat.ltb_ge in Hlen.
    destruct (Rltb _ _) eqn:Hdet.
    + apply Rltb_true in Hdet; split; [tauto | left; tauto].
    + apply Rltb_false in Hdet; split.
      * split; [discriminate | intros [H|H]; [lia | lra]].
      * right; split; [intros [H|H]; [lia | lra] | eexists; reflexivity].
Qed.

Lemma euclid_sq (p q : Trilat.point) :
  euclid p q ^ 2 = (Trilat.px p - Trilat.px q) ^ 2 + (Trilat.py p - Trilat.py q) ^ 2.
Proof.
  unfold euclid; apply pow2_sqrt.
  apply Rplus_le_le_0_compat; apply pow2_ge_0.
Qed.

Lemma toXY_ref (s : Trilat.snapshot) : Trilat.toXY s s = Trilat.mkPoint 0 0.
Proof. unfold Trilat.toXY; f_equal; ring. Qed.

(** With three observations the determinant is the squared cross product
    of the two rows: it vanishes exactly on colinear vantage points. *)
Lemma specDet_three (s1 s2 s3 : Trilat.snapshot) :
  specDet [s1; s2; s3]
  = 16 * (Trilat.px (Trilat.toXY s1 s2) * Trilat.py (Trilat.toXY s1 s3)
          - Trilat.px (Trilat.toXY s1 s3) * Trilat.py (Trilat.toXY s1 s2)) ^ 2.
Proof.
  unfold specDet, specRows; rewrite toXY_ref; simpl; ring.
Qed.

(** What the solver returns on three noiseless observations that pass the
    determinant guard: the true offset with both signs flipped.  The rows
    [Ai] carry [pi - p1] while [bi] is the right-hand side for
    [p1 - pi]. *)
Lemma trilaterate_noiseless_negated
      (key : string) (t : Trilat.point) (s1 s2 s3 : Trilat.snapshot) :
  noiseless t s1 s2 s3 ->
  1 / 1000000 <= Rabs (specDet [s1; s2; s3]) ->
  Trilat.trilaterate key [s1; s2; s3]
  = Some (Trilat.mkPoint (- Trilat.px t) (- Trilat.py t)).
Proof.
  intros (H1 & H2 & H3) Hdet.
  assert (Hne : specDet [s1; s2; s3] <> 0).
  { intros E; rewrite E, Rabs_R0 in Hdet; lra. }
  rewrite <- detOf_systemOf_specDet in Hdet, Hne.
  unfold Trilat.trilaterate.
  change (List.length [s1; s2; s3] <? 3)%nat with false; cbv iota.
  destruct (Rltb _ _) eqn:E.
  { apply Rltb_true in E; unfold eps_det in E; lra. }
  clear E Hdet.
  pose proof (euclid_sq (Trilat.toXY s1 s1) t) as Q1.
  pose proof (euclid_sq (Trilat.toXY s1 s2) t) as Q2.
  pose proof (euclid_sq (Trilat.toXY s1 s3) t) as Q3.
  rewrite <- H1 in Q1; rewrite <- H2 in Q2; rewrite <- H3 in Q3.
  rewrite toXY_ref in Q1; simpl in Q1.
  revert Hne.
  unfold Trilat.detOf, Trilat.systemOf, Trilat.normalEqs, Trilat.rowA, Trilat.rowb.
  cbn [map]; rewrite toXY_ref.
  set (p2 := Trilat.toXY s1 s2) in *; set (p3 := Trilat.toXY s1 s3) in *.
  clearbody p2 p3; destruct p2 as [x2 y2], p3 as [x3 y3], t as [tx ty].
  set (d1 := Trilat.dist s1) in *.
  set (d2 := Trilat.dist s2) in *.
  set (d3 := Trilat.dist s3) in *.
  clearbody d1 d2 d3; simpl in *.
  intros Hne.
  assert (E2 : d2 * (d2 * 1) = x2 * x2 - 2 * x2 * tx
                               + y2 * y2 - 2 * y2 * ty + d1 * (d1 * 1)) by lra.
  assert (E3 : d3 * (d3 * 1) = x3 * x3 - 2 * x3 * tx
                               + y3 * y3 - 2 * y3 * ty + d1 * (d1 * 1)) by lra.
  rewrite E2, E3.
  f_equal; f_equal; field; intros E; apply Hne;
    (etransitivity; [|exact E]); ring.
Qed.

Lemma ex_toXY_s2 : Trilat.toXY ex_s1 ex_s2 = Trilat.mkPoint (40075 / 1000) 0.
Proof.
  unfold Trilat.toXY, ex_s1, ex_s2; simpl.
  replace (0 * PI / 180) with 0 by lra; rewrite cos_0.
  f_equal; lra.
Qed.

Lemma ex_toXY_s3 : Trilat.toXY ex_s1 ex_s3 = Trilat.mkPoint 0 (11132 / 1000).
Proof.
  unfold Trilat.toXY, ex_s1, ex_s3; simpl.
  f_equal; lra.
Qed.

Lemma ex_noiseless : noiseless ex_true ex_s1 ex_s2 ex_s3.
Proof.
  unfold noiseless; rewrite toXY_ref, ex_toXY_s2, ex_toXY_s3.
  unfold euclid, ex_true, ex_s1, ex_s2, ex_s3, ex_dist; simpl.
  repeat split; f_equal; lra.
Qed.

Lemma ex_det : 1 / 1000000 <= Rabs (specDet [ex_s1; ex_s2; ex_s3]).
Proof.
  rewrite specDet_three, ex_toXY_s2, ex_toXY_s3; simpl.
  rewrite Rabs_right; lra.
Qed.

(** C1 asks that three noiseless observations of a known offset solve
    back to that offset.  At a concrete input they do not: [ex_s1],
    [ex_s2] and [ex_s3] all lie at the square root of 432.48176225 (about
    20.796 m) from the offset (20.0375, 5.566), the vantage points are not
    colinear and the determinant guard passes, yet [trilaterate] returns
    (-20.0375, -5.566), the offset mirrored through the reference. *)
Theorem trilaterate_noiseless_example :
  noiseless ex_true ex_s1 ex_s2 ex_s3
  /\ 1 / 1000000 <= Rabs (specDet [ex_s1; ex_s2; ex_s3])
  /\ Trilat.trilaterate "ap" [ex_s1; ex_s2; ex_s3]
     = Some (Trilat.mkPoint (- (200375 / 10000)) (- (5566 / 1000)))
  /\ Trilat.trilaterate "ap" [ex_s1; ex_s2; ex_s3] <> Some ex_true.
Proof.
  pose proof (trilaterate_noiseless_negated "ap" ex_true ex_s1 ex_s2 ex_s3
                ex_noiseless ex_det) as H.
  split; [apply ex_noiseless | split; [apply ex_det | split; [exact H |]]].
  rewrite H; unfold ex_true; simpl; intros [= E _]; lra.
Qed.

(** *** The determinant guard on small triangles

    The guard compares the determinant with an absolute threshold, so it
    also rejects vantage points that are not colinear but close together:
    three points about a millimetre apart return no position. *)
Lemma trilaterate_small_baseline_null :
  let s1 := Trilat.mkSnapshot 0 0 1 in
  let s2 := Trilat.mkSnapshot 0 (1 / 100000000) 1 in
  let s3 := Trilat.mkSnapshot (1 / 100000000) 0 1 in
  specDet [s1; s2; s3] <> 0
  /\ Trilat.trilaterate "ap" [s1; s2; s3] = None.
Proof.
  intros s1 s2 s3.
  assert (Hx : Trilat.toXY s1 s2 = Trilat.mkPoint (40075 / 36000000) 0).
  { unfold Trilat.toXY, s1, s2; simpl.
    replace (0 * PI / 180) with 0 by lra; rewrite cos_0; f_equal; lra. }
  assert (Hy : Trilat.toXY s1 s3 = Trilat.mkPoint 0 (11132 / 10000000)).
  { unfold Trilat.toXY, s1, s3; simpl; f_equal; lra. }
  assert (Hd : specDet [s1; s2; s3]
               = 16 * (40075 / 36000000 * (11132 / 10000000)) ^ 2).
  { rewrite specDet_three, Hx, Hy; simpl; ring. }
  split; [rewrite Hd; lra|].
  apply trilaterate_guard; rewrite Hd, Rabs_right; lra.
Qed.

(** ** Obstruction model *)

(** Evaluation of the comparisons of the model on closed numerals. *)
Ltac rltb :=
  repeat match goal with
         | |- context [Rltb ?a ?b] =>
             first [ rewrite (proj2 (Rltb_true a b)) by lra
                   | rewrite (proj2 (Rltb_false a b)) by lra ]
         end.

Lemma Rprod_Permutation (l l' : list R) : Permutation l l' -> Rprod l = Rprod l'.
Proof.
  induction 1 as [|a l l' _ IH|a b l|l l' l'' _ IH1 _ IH2]; simpl.
  - reflexivity.
  - now rewrite IH.
  - ring.
  - now rewrite IH1.
Qed.

Lemma ccw_spec (ax ay bx by_ cx cy : R) :
  Trilat.ccw ax ay bx by_ cx cy = true <-> ccwP ax ay bx by_ cx cy.
Proof. unfold Trilat.ccw, Rgtb, ccwP; apply Rltb_true. Qed.

Lemma bneq_spec (a b : bool) (P Q : Prop) :
  (a = true <-> P) -> (b = true <-> Q) ->
  (Trilat.bneq a b = true <-> differ P Q).
Proof.
  unfold differ; intros HP HQ; destruct a, b; simpl; split; intros H;
    try discriminate; try reflexivity; intuition congruence.
Qed.

Lemma segmentsIntersect_spec (x1 y1 x2 y2 x3 y3 x4 y4 : R) :
  Trilat.segmentsIntersect x1 y1 x2 y2 x3 y3 x4 y4 = true
  <-> crossesEdge x1 y1 x2 y2 (x3, y3, x4, y4).
Proof.
  unfold Trilat.segmentsIntersect, crossesEdge.
  rewrite andb_true_iff.
  rewrite (bneq_spec _ _ _ _ (ccw_spec x1 y1 x3 y3 x4 y4) (ccw_spec x2 y2 x3 y3 x4 y4)).
  rewrite (bneq_spec _ _ _ _ (ccw_spec x1 y1 x2 y2 x3 y3) (ccw_spec x1 y1 x2 y2 x4 y4)).
  tauto.
Qed.

Lemma lineIntersectsRect_spec (x1 y1 x2 y2 : R) (r : Trilat.obstacle) :
  Trilat.lineIntersectsRect x1 y1 x2 y2 r = true <-> crossesBoundary x1 y1 x2 y2 r.
Proof.
  unfold Trilat.lineIntersectsRect, crossesBoundary.
  rewrite existsb_exists; split.
  - intros ([[[x3 y3] x4] y4] & Hin & H); exists (x3, y3, x4, y4); split; auto.
    now apply segmentsIntersect_spec.
  - intros ([[[x3 y3] x4] y4] & Hin & H); exists (x3, y3, x4, y4); split; auto.
    now apply segmentsIntersect_spec.
Qed.

(** The orientation test is sound: two segments that pass it have a point
    in common. *)
Lemma cross_point (x1 y1 x2 y2 x3 y3 x4 y4 : R) :
  differ (ccwP x1 y1 x3 y3 x4 y4) (ccwP x2 y2 x3 y3 x4 y4) ->
  differ (ccwP x1 y1 x2 y2 x3 y3) (ccwP x1 y1 x2 y2 x4 y4) ->
  exists px py, onSegment x1 y1 x2 y2 px py /\ onSegment x3 y3 x4 y4 px py.
Proof.
  unfold differ, ccwP; intros H1 H2.
  set (oa := (y4 - y1) * (x3 - x1) - (y3 - y1) * (x4 - x1)).
  set (ob := (y4 - y2) * (x3 - x2) - (y3 - y2) * (x4 - x2)).
  set (oc := (y3 - y1) * (x2 - x1) - (y2 - y1) * (x3 - x1)).
  set (od := (y4 - y1) * (x2 - x1) - (y2 - y1) * (x4 - x1)).
  assert (HD : oa - ob = od - oc) by (unfold oa, ob, oc, od; ring).
  assert (Ha : (0 < oa /\ ob <= 0) \/ (oa <= 0 /\ 0 < ob)) by (unfold oa, ob; lra).
  assert (Hc : (0 < oc /\ od <= 0) \/ (oc <= 0 /\ 0 < od)) by (unfold oc, od; lra).
  assert (Dne : oa - ob <> 0) by lra.
  exists (x1 + oa / (oa - ob) * (x2 - x1)), (y1 + oa / (oa - ob) * (y2 - y1)).
  split.
  - exists (oa / (oa - ob)); split; [|split; reflexivity].
    destruct Ha as [[Ha Hb]|[Ha Hb]].
    + split.
      * apply Rmult_le_pos; [lra | left; apply Rinv_0_lt_compat; lra].
      * apply Rmult_le_reg_r with (oa - ob); [lra|].
        unfold Rdiv; rewrite Rmult_assoc, Rinv_l by lra; lra.
    + replace (oa / (oa - ob)) with ((- oa) / (ob - oa)) by (field; lra).
      split.
      * apply Rmult_le_pos; [lra | left; apply Rinv_0_lt_compat; lra].
      * apply Rmult_le_reg_r with (ob - oa); [lra|].
        unfold Rdiv; rewrite Rmult_assoc, Rinv_l by lra; lra.
  - exists (- oc / (oa - ob)); split; [|split].
    + rewrite HD. destruct Hc as [[Hc Hd]|[Hc Hd]].
      * replace (- oc / (od - oc)) with (oc / (oc - od)) by (field; lra).
        split.
        -- apply Rmult_le_pos; [lra | left; apply Rinv_0_lt_compat; lra].
        -- apply Rmult_le_reg_r with (oc - od); [lra|].
           unfold Rdiv; rewrite Rmult_assoc, Rinv_l by lra; lra.
      * split.
        -- apply Rmult_le_pos; [lra | left; apply Rinv_0_lt_compat; lra].
        -- apply Rmult_le_reg_r with (od - oc); [lra|].
           unfold Rdiv; rewrite Rmult_assoc, Rinv_l by lra; lra.
    + unfold oa, ob, oc in *; field; exact Dne.
    + unfold oa, ob, oc in *; field; exact Dne.
Qed.

(** The test is complete for proper crossings: when the endpoints of each
    segment lie strictly on opposite sides of the line of the other, the
    test passes. *)
Lemma proper_crossing_counted (x1 y1 x2 y2 x3 y3 x4 y4 : R) :
  ((y4 - y1) * (x3 - x1) - (y3 - y1) * (x4 - x1))
  * ((y4 - y2) * (x3 - x2) - (y3 - y2) * (x4 - x2)) < 0 ->
  ((y3 - y1) * (x2 - x1) - (y2 - y1) * (x3 - x1))
  * ((y4 - y1) * (x2 - x1) - (y2 - y1) * (x4 - x1)) < 0 ->
  crossesEdge x1 y1 x2 y2 (x3, y3, x4, y4).
Proof.
  unfold crossesEdge, differ, ccwP; intros H1 H2; split.
  - destruct (Rlt_dec 0 ((y4 - y1) * (x3 - x1) - (y3 - y1) * (x4 - x1)));
      [left | right]; split; nra.
  - destruct (Rlt_dec 0 ((y3 - y1) * (x2 - x1) - (y2 - y1) * (x3 - x1)));
      [left | right]; split; nra.
Qed.

Lemma attenuation_fold (x1 y1 x2 y2 acc : R) (obs : list Trilat.obstacle) :
  fold_left (fun atten ob =>
               if Trilat.lineIntersectsRect x1 y1 x2 y2 ob
               then atten * (1 - Trilat.attenuation ob) else atten) obs acc
  = acc * Rprod (map (fun ob => 1 - Trilat.attenuation ob)
                     (filter (Trilat.lineIntersectsRect x1 y1 x2 y2) obs)).
Proof.
  revert acc; induction obs as [|ob obs IH]; intros acc; simpl.
  - ring.
  - rewrite IH; destruct (Trilat.lineIntersectsRect x1 y1 x2 y2 ob); simpl; ring.
Qed.

Lemma attenuation_product (x1 y1 x2 y2 : R) (obs : list Trilat.obstacle) :
  Trilat.obstacleAttenuationOnPath obs x1 y1 x2 y2
  = Rprod (map (fun ob => 1 - Trilat.attenuation ob)
               (filter (Trilat.lineIntersectsRect x1 y1 x2 y2) obs)).
Proof.
  unfold Trilat.obstacleAttenuationOnPath; rewrite attenuation_fold; ring.
Qed.

Lemma attenuation_factors (x1 y1 x2 y2 : R) (obs : list Trilat.obstacle) :
  Trilat.obstacleAttenuationOnPath obs x1 y1 x2 y2
  = Rprod (map (factorOf x1 y1 x2 y2) obs).
Proof.
  rewrite attenuation_product; unfold factorOf.
  induction obs as [|ob obs IH]; simpl; auto.
  destruct (Trilat.lineIntersectsRect x1 y1 x2 y2 ob); simpl; rewrite IH; ring.
Qed.

Lemma filter_none {A : Type} (f : A -> bool) (l : list A) :
  (forall a, In a l -> f a = false) -> filter f l = [].
Proof.
  induction l as [|a l IH]; simpl; intros H; auto.
  rewrite (H a) by now left. apply IH; auto.
Qed.

Ltac eval_rect :=
  unfold Trilat.obstacleAttenuationOnPath, Trilat.lineIntersectsRect,
    Trilat.edges, Trilat.segmentsIntersect, Trilat.ccw, Rgtb;
  simpl; rltb; simpl.

(** The three obstruction scenarios: outside every obstacle, through one
    obstacle of attenuation 0.4, through two obstacles of attenuation 0.5. *)
Lemma attenuation_scenarios :
  Trilat.obstacleAttenuationOnPath [ex_wall; ex_door; ex_desk] 50 50 650 50 = 1
  /\ Trilat.obstacleAttenuationOnPath [ex_wall; ex_door; ex_desk] 50 120 250 120 = 6 / 10
  /\ Trilat.obstacleAttenuationOnPath [ex_wall; ex_door; ex_desk] 250 120 650 120 = 25 / 100.
Proof. repeat split; eval_rect; lra. Qed.

Lemma Rltb_ext (a b c d : R) : (a < b <-> c < d) -> Rltb a b = Rltb c d.
Proof.
  intros H; destruct (Rltb a b) eqn:E1, (Rltb c d) eqn:E2; auto;
    rewrite ?Rltb_true, ?Rltb_false in *; lra.
Qed.

Section Sides.
Variable r : Trilat.obstacle.
Hypothesis Hw : 0 < Trilat.ow r.
Hypothesis Hh : 0 < Trilat.oh r.
Let x0 := Trilat.ox r.
Let y0 := Trilat.oy r.
Let w := Trilat.ow r.
Let h := Trilat.oh r.

Lemma ccw_top (x y : R) :
  Trilat.ccw x y x0 y0 (x0 + w) y0 = Rltb y0 y.
Proof. unfold Trilat.ccw, Rgtb; apply Rltb_ext; subst x0 y0 w h; nra. Qed.

Lemma ccw_right (x y : R) :
  Trilat.ccw x y (x0 + w) y0 (x0 + w) (y0 + h) = Rltb x (x0 + w).
Proof. unfold Trilat.ccw, Rgtb; apply Rltb_ext; subst x0 y0 w h; nra. Qed.

Lemma ccw_bottom (x y : R) :
  Trilat.ccw x y (x0 + w) (y0 + h) x0 (y0 + h) = Rltb y (y0 + h).
Proof. unfold Trilat.ccw, Rgtb; apply Rltb_ext; subst x0 y0 w h; nra. Qed.

Lemma ccw_left (x y : R) :
  Trilat.ccw x y x0 (y0 + h) x0 y0 = Rltb x0 x.
Proof. unfold Trilat.ccw, Rgtb; apply Rltb_ext; subst x0 y0 w h; nra. Qed.

Lemma same_cell_not_counted (x1 y1 x2 y2 : R) :
  cell r x1 y1 = cell r x2 y2 ->
  Trilat.lineIntersectsRect x1 y1 x2 y2 r = false.
Proof.
  unfold cell; intros [= Ht Hr Hb Hl].
  unfold Trilat.lineIntersectsRect, Trilat.edges, Trilat.segmentsIntersect.
  fold x0 y0 w h; simpl.
  rewrite !ccw_top, !ccw_right, !ccw_bottom, !ccw_left.
  fold x0 y0 w h in Ht, Hr, Hb, Hl.
  rewrite Ht, Hr, Hb, Hl; unfold Trilat.bneq; rewrite !xorb_nilpotent.
  reflexivity.
Qed.

Lemma strictlyInside_cell (x y : R) :
  strictlyInside r x y -> cell r x y = (true, true, true, true).
Proof.
  unfold strictlyInside, cell; intros [Hx Hy].
  repeat f_equal; apply Rltb_true; lra.
Qed.
End Sides.

Lemma attenuation_skip (x1 y1 x2 y2 : R) (r : Trilat.obstacle)
      (before after : list Trilat.obstacle) :
  Trilat.lineIntersectsRect x1 y1 x2 y2 r = false ->
  Trilat.obstacleAttenuationOnPath (before ++ r :: after) x1 y1 x2 y2
  = Trilat.obstacleAttenuationOnPath (before ++ after) x1 y1 x2 y2.
Proof.
  intros H; rewrite !attenuation_product, !filter_app; simpl; now rewrite H.
Qed.

(** ** Obstruction model: which obstacles are counted *)

Lemma differ_iff (P Q P' Q' : Prop) :
  (P <-> P') -> (Q <-> Q') -> differ P Q -> differ P' Q'.
Proof. unfold differ; tauto. Qed.

(** Picks, for each of the two tests of a side, the way in which the two
    results differ. *)
Ltac side_test :=
  unfold differ;
  split; [first [left; split; nra | right; split; nra]
         |first [left; split; nra | right; split; nra]].

Section Through.
Variables a b w h dx dy t u : R.
Hypothesis Ha : 0 < a < w.
Hypothesis Hb : 0 < b < h.
Hypothesis Ht : 0 <= t.
Hypothesis Hu : 0 <= u.

(** The segment runs from [(a - t dx, b - t dy)] through the point [(a, b)]
    of the open rectangle to [(a + u dx, b + u dy)], in coordinates relative
    to the corner [(x, y)].  Orientation of the four corners against its
    line: *)
Let fA := - b * dx + a * dy.
Let fB := - b * dx - (w - a) * dy.
Let fC := (h - b) * dx - (w - a) * dy.
Let fD := (h - b) * dx + a * dy.

(** The two tests on each of the four sides, in coordinates relative to
    the corner [(x, y)] of the rectangle. *)
Let E1 := differ (0 < b - t * dy) (0 < b + u * dy) /\ differ (0 < fA) (0 < fB).
Let E2 := differ (a - t * dx < w) (a + u * dx < w) /\ differ (0 < fB) (0 < fC).
Let E3 := differ (b - t * dy < h) (b + u * dy < h) /\ differ (0 < fC) (0 < fD).
Let E4 := differ (0 < a - t * dx) (0 < a + u * dx) /\ differ (0 < fD) (0 < fA).

(** The far endpoint is not in the open rectangle: it lies at or beyond
    the line of one of the four sides.  The side the segment leaves by
    passes both tests; which side that is depends on where the corners
    lie against the line of the segment. *)
Lemma ends_y0 : b + u * dy <= 0 -> E1 \/ E2 \/ E3 \/ E4.
Proof.
  intros Hv; assert (Hdy : dy < 0) by nra.
  destruct (Rlt_dec 0 fA) as [HA|HA]; [|destruct (Rlt_dec 0 fB) as [HB|HB]].
  - right; right; right.
    assert (Hs : dx < 0) by (unfold fA, fB, fC, fD in *; nra).
    assert (Hp : 0 <= u * fA) by (apply Rmult_le_pos; lra).
    unfold E4, fD, fA in *; side_test.
  - left; unfold E1, fA, fB in *; side_test.
  - right; left.
    assert (Hs : 0 < dx) by (unfold fA, fB, fC, fD in *; nra).
    assert (Hp : u * fB <= 0) by nra.
    unfold E2, fB, fC in *; side_test.
Qed.

Lemma ends_y1 : h <= b + u * dy -> E1 \/ E2 \/ E3 \/ E4.
Proof.
  intros Hv; assert (Hdy : 0 < dy) by nra.
  destruct (Rlt_dec 0 fC) as [HC|HC]; [|destruct (Rlt_dec 0 fD) as [HD|HD]].
  - right; left.
    assert (Hs : 0 < dx) by (unfold fA, fB, fC, fD in *; nra).
    assert (Hp : 0 <= u * fC) by (apply Rmult_le_pos; lra).
    unfold E2, fB, fC in *; side_test.
  - right; right; left; unfold E3, fC, fD in *; side_test.
  - right; right; right.
    assert (Hs : dx < 0) by (unfold fA, fB, fC, fD in *; nra).
    assert (Hp : u * fD <= 0) by nra.
    unfold E4, fD, fA in *; side_test.
Qed.

Lemma ends_x1 : w <= a + u * dx -> E1 \/ E2 \/ E3 \/ E4.
Proof.
  intros Hv; assert (Hdx : 0 < dx) by nra.
  destruct (Rlt_dec 0 fB) as [HB|HB]; [|destruct (Rlt_dec 0 fC) as [HC|HC]].
  - left.
    assert (Hs : dy < 0) by (unfold fA, fB, fC, fD in *; nra).
    assert (Hp : 0 <= u * fB) by (apply Rmult_le_pos; lra).
    unfold E1, fA, fB in *; side_test.
  - right; left; unfold E2, fB, fC in *; side_test.
  - right; right; left.
    assert (Hs : 0 < dy) by (unfold fA, fB, fC, fD in *; nra).
    assert (Hp : u * fC <= 0) by nra.
    unfold E3, fC, fD in *; side_test.
Qed.

Lemma ends_x0 : a + u * dx <= 0 -> E1 \/ E2 \/ E3 \/ E4.
Proof.
  intros Hv; assert (Hdx : dx < 0) by nra.
  destruct (Rlt_dec 0 fD) as [HD|HD]; [|destruct (Rlt_dec 0 fA) as [HA|HA]].
  - right; right; left.
    assert (Hs : 0 < dy) by (unfold fA, fB, fC, fD in *; nra).
    assert (Hp : 0 <= u * fD) by (apply Rmult_le_pos; lra).
    unfold E3, fC, fD in *; side_test.
  - right; right; right; unfold E4, fD, fA in *; side_test.
  - left.
    assert (Hs : dy < 0) by (unfold fA, fB, fC, fD in *; nra).
    assert (Hp : u * fA <= 0) by nra.
    unfold E1, fA, fB in *; side_test.
Qed.

(** The same when the near endpoint is not in the open rectangle. *)
Lemma starts_y0 : b - t * dy <= 0 -> E1 \/ E2 \/ E3 \/ E4.
Proof.
  intros Hv; assert (Hdy : 0 < dy) by nra.
  destruct (Rlt_dec 0 fB) as [HB|HB]; [|destruct (Rlt_dec 0 fA) as [HA|HA]].
  - right; left.
    assert (Hs : dx < 0) by (unfold fA, fB, fC, fD in *; nra).
    assert (Hp : 0 <= t * fB) by (apply Rmult_le_pos; lra).
    unfold E2, fB, fC in *; side_test.
  - left; unfold E1, fA, fB in *; side_test.
  - right; right; right.
    assert (Hs : 0 < dx) by (unfold fA, fB, fC, fD in *; nra).
    assert (Hp : t * fA <= 0) by nra.
    unfold E4, fD, fA in *; side_test.
Qed.

Lemma starts_y1 : h <= b - t * dy -> E1 \/ E2 \/ E3 \/ E4.
Proof.
  intros Hv; assert (Hdy : dy < 0) by nra.
  destruct (Rlt_dec 0 fD) as [HD|HD]; [|destruct (Rlt_dec 0 fC) as [HC|HC]].
  - right; right; right.
    assert (Hs : 0 < dx) by (unfold fA, fB, fC, fD in *; nra).
    assert (Hp : 0 <= t * fD) by (apply Rmult_le_pos; lra).
    unfold E4, fD, fA in *; side_test.
  - right; right; left; unfold E3, fC, fD in *; side_test.
  - right; left.
    assert (Hs : dx < 0) by (unfold fA, fB, fC, fD in *; nra).
    assert (Hp : t * fC <= 0) by nra.
    unfold E2, fB, fC in *; side_test.
Qed.

Lemma starts_x1 : w <= a - t * dx -> E1 \/ E2 \/ E3 \/ E4.
Proof.
  intros Hv; assert (Hdx : dx < 0) by nra.
  destruct (Rlt_dec 0 fC) as [HC|HC]; [|destruct (Rlt_dec 0 fB) as [HB|HB]].
  - right; right; left.
    assert (Hs : dy < 0) by (unfold fA, fB, fC, fD in *; nra).
    assert (Hp : 0 <= t * fC) by (apply Rmult_le_pos; lra).
    unfold E3, fC, fD in *; side_test.
  - right; left; unfold E2, fB, fC in *; side_test.
  - left.
    assert (Hs : 0 < dy) by (unfold fA, fB, fC, fD in *; nra).
    assert (Hp : t * fB <= 0) by nra.
    unfold E1, fA, fB in *; side_test.
Qed.

Lemma starts_x0 : a - t * dx <= 0 -> E1 \/ E2 \/ E3 \/ E4.
Proof.
  intros Hv; assert (Hdx : 0 < dx) by nra.
  destruct (Rlt_dec 0 fA) as [HA|HA]; [|destruct (Rlt_dec 0 fD) as [HD|HD]].
  - left.
    assert (Hs : 0 < dy) by (unfold fA, fB, fC, fD in *; nra).
    assert (Hp : 0 <= t * fA) by (apply Rmult_le_pos; lra).
    unfold E1, fA, fB in *; side_test.
  - right; right; right; unfold E4, fD, fA in *; side_test.
  - right; right; left.
    assert (Hs : dy < 0) by (unfold fA, fB, fC, fD in *; nra).
    assert (Hp : t * fD <= 0) by nra.
    unfold E3, fC, fD in *; side_test.
Qed.

(** A segment through a point of the open rectangle that does not have
    both endpoints in it passes both tests on one of the four sides. *)
Lemma through_sides :
  ~ ((0 < a - t * dx < w /\ 0 < b - t * dy < h)
     /\ (0 < a + u * dx < w /\ 0 < b + u * dy < h)) ->
  E1 \/ E2 \/ E3 \/ E4.
Proof.
  intros Hnot.
  destruct (Rlt_dec 0 (b + u * dy)); [|apply ends_y0; lra].
  destruct (Rlt_dec (b + u * dy) h); [|apply ends_y1; lra].
  destruct (Rlt_dec 0 (a + u * dx)); [|apply ends_x0; lra].
  destruct (Rlt_dec (a + u * dx) w); [|apply ends_x1; lra].
  destruct (Rlt_dec 0 (b - t * dy)); [|apply starts_y0; lra].
  destruct (Rlt_dec (b - t * dy) h); [|apply starts_y1; lra].
  destruct (Rlt_dec 0 (a - t * dx)); [|apply starts_x0; lra].
  destruct (Rlt_dec (a - t * dx) w); [|apply starts_x1; lra].
  exfalso; apply Hnot; lra.
Qed.
End Through.

(** The tests of the code against their form relative to the corner. *)
Ltac side_iff := unfold ccwP; split; intro; nra.

(** Every obstacle of positive size the segment passes through is
    counted. *)
Lemma passesThrough_counted (r : Trilat.obstacle) (x1 y1 x2 y2 : R) :
  0 < Trilat.ow r -> 0 < Trilat.oh r ->
  passesThrough x1 y1 x2 y2 r ->
  Trilat.lineIntersectsRect x1 y1 x2 y2 r = true.
Proof.
  intros Hw Hh [(px & py & (t & Ht & -> & ->) & Hin) Hnot].
  unfold strictlyInside in *.
  apply lineIntersectsRect_spec; unfold crossesBoundary, Trilat.edges.
  set (x0 := Trilat.ox r) in *; set (y0 := Trilat.oy r) in *.
  set (w := Trilat.ow r) in *; set (h := Trilat.oh r) in *.
  clearbody x0 y0 w h; destruct Hin as [[Hi1 Hi2] [Hi3 Hi4]].
  assert (Ha : 0 < x1 + t * (x2 - x1) - x0 < w) by lra.
  assert (Hb : 0 < y1 + t * (y2 - y1) - y0 < h) by lra.
  assert (Ht0 : 0 <= t) by lra.
  assert (Hu0 : 0 <= 1 - t) by lra.
  assert (Hcore := through_sides _ _ w h (x2 - x1) (y2 - y1) t (1 - t) Ha Hb Ht0 Hu0).
  cbv zeta in Hcore.
  destruct Hcore as [[T1 T2]|[[T1 T2]|[[T1 T2]|[T1 T2]]]].
  - intros [[H1 H2] [H3 H4]]; apply Hnot; lra.
  - exists (x0, y0, x0 + w, y0); split; [simpl; tauto|].
    split; [revert T1 | revert T2]; apply differ_iff; side_iff.
  - exists (x0 + w, y0, x0 + w, y0 + h); split; [simpl; tauto|].
    split; [revert T1 | revert T2]; apply differ_iff; side_iff.
  - exists (x0 + w, y0 + h, x0, y0 + h); split; [simpl; tauto|].
    split; [revert T1 | revert T2]; apply differ_iff; side_iff.
  - exists (x0, y0 + h, x0, y0); split; [simpl; tauto|].
    split; [revert T1 | revert T2]; apply differ_iff; side_iff.
Qed.

(** The code enumerates the sides exactly as the specification names
    them. *)
Lemma edges_rectSides (r : Trilat.obstacle) : Trilat.edges r = rectSides r.
Proof. reflexivity. Qed.

Lemma lineIntersectsRect_crossesRect (x1 y1 x2 y2 : R) (r : Trilat.obstacle) :
  Trilat.lineIntersectsRect x1 y1 x2 y2 r = true <-> crossesRect x1 y1 x2 y2 r.
Proof.
  rewrite lineIntersectsRect_spec; unfold crossesBoundary, crossesRect.
  now rewrite edges_rectSides.
Qed.

(** A proper crossing, written with the offsets from the crossing point. *)
Lemma proper_crossing_offsets (x1 y1 dx dy ex ey t u : R) :
  0 < t < 1 -> 0 < u < 1 -> dx * ey <> dy * ex ->
  crossesEdge x1 y1 (x1 + dx) (y1 + dy)
    (x1 + t * dx - u * ex, y1 + t * dy - u * ey,
     x1 + t * dx - u * ex + ex, y1 + t * dy - u * ey + ey).
Proof.
  intros Ht Hu Hne.
  set (cr := ey * dx - dy * ex).
  assert (Hcr : 0 < cr * cr).
  { assert (cr <> 0) by (unfold cr; lra).
    destruct (Rlt_dec 0 cr); [apply Rmult_lt_0_compat; lra|].
    replace (cr * cr) with ((- cr) * (- cr)) by ring.
    apply Rmult_lt_0_compat; lra. }
  apply proper_crossing_counted.
  - match goal with |- ?a * ?b < 0 =>
      replace a with (t * cr) by (unfold cr; ring);
      replace b with (- (1 - t) * cr) by (unfold cr; ring) end.
    assert (0 < t * (1 - t)) by (apply Rmult_lt_0_compat; lra).
    replace (t * cr * (- (1 - t) * cr)) with (- (t * (1 - t) * (cr * cr))) by ring.
    assert (0 < t * (1 - t) * (cr * cr)) by (apply Rmult_lt_0_compat; lra).
    lra.
  - match goal with |- ?a * ?b < 0 =>
      replace a with (- u * cr) by (unfold cr; ring);
      replace b with ((1 - u) * cr) by (unfold cr; ring) end.
    assert (0 < u * (1 - u)) by (apply Rmult_lt_0_compat; lra).
    replace (- u * cr * ((1 - u) * cr)) with (- (u * (1 - u) * (cr * cr))) by ring.
    assert (0 < u * (1 - u) * (cr * cr)) by (apply Rmult_lt_0_compat; lra).
    lra.
Qed.

(** A side the segment crosses properly passes the test. *)
Lemma crossesProperly_counted (x1 y1 x2 y2 : R) (e : R * R * R * R) :
  crossesProperly x1 y1 x2 y2 e -> crossesEdge x1 y1 x2 y2 e.
Proof.
  destruct e as [[[x3 y3] x4] y4]; intros (t & u & Ht & Hu & Hx & Hy & Hne).
  pose proof (proper_crossing_offsets x1 y1 (x2 - x1) (y2 - y1) (x4 - x3) (y4 - y3)
                t u Ht Hu Hne) as H.
  replace (x1 + (x2 - x1)) with x2 in H by ring.
  replace (y1 + (y2 - y1)) with y2 in H by ring.
  replace (x1 + t * (x2 - x1) - u * (x4 - x3)) with x3 in H by lra.
  replace (y1 + t * (y2 - y1) - u * (y4 - y3)) with y3 in H by lra.
  replace (x3 + (x4 - x3)) with x4 in H by ring.
  replace (y3 + (y4 - y3)) with y4 in H by ring.
  exact H.
Qed.

(** A counted obstacle has a boundary point on the segment. *)
Lemma crossesRect_meets (x1 y1 x2 y2 : R) (r : Trilat.obstacle) :
  crossesRect x1 y1 x2 y2 r -> meetsRect x1 y1 x2 y2 r.
Proof.
  intros ([[[x3 y3] x4] y4] & Hin & H1 & H2).
  destruct (cross_point _ _ _ _ _ _ _ _ H1 H2) as (px & py & Hs & He).
  exists px, py; split; [exact Hs|].
  exists x3, y3, x4, y4; split; assumption.
Qed.

(** C4. [obstacleAttenuationOnPath] is the product of [1 - attenuation]
    over the obstacles whose boundary the segment crosses.  An obstacle
    is in the product exactly when the segment passes the orientation
    test against one of the four sides of its rectangle.  Every obstacle
    with a side that the segment crosses properly is in the product, and
    so is every obstacle of positive size that the segment passes
    through; an obstacle in the product has a boundary point on the
    segment.  A segment that meets no boundary gives exactly 1, and
    reordering the obstacle list does not change the result.  Outside
    every obstacle the factor is 1, through one obstacle of attenuation
    0.4 it is 0.6, through two of attenuation 0.5 it is 0.25. *)
Theorem obstacleAttenuation_product :
  forall (x1 y1 x2 y2 : R) (obstacles : list Trilat.obstacle),
    let crossed := filter (Trilat.lineIntersectsRect x1 y1 x2 y2) obstacles in
    Trilat.obstacleAttenuationOnPath obstacles x1 y1 x2 y2
    = Rprod (map (fun ob => 1 - Trilat.attenuation ob) crossed)
    /\ (forall ob, In ob crossed <-> In ob obstacles /\ crossesRect x1 y1 x2 y2 ob)
    /\ (forall ob, In ob obstacles ->
          (exists e, In e (rectSides ob) /\ crossesProperly x1 y1 x2 y2 e) ->
          In ob crossed)
    /\ (forall ob, In ob obstacles -> 0 < Trilat.ow ob -> 0 < Trilat.oh ob ->
          passesThrough x1 y1 x2 y2 ob -> In ob crossed)
    /\ (forall ob, In ob crossed -> meetsRect x1 y1 x2 y2 ob)
    /\ ((forall ob, In ob obstacles -> ~ crossesRect x1 y1 x2 y2 ob) ->
        Trilat.obstacleAttenuationOnPath obstacles x1 y1 x2 y2 = 1)
    /\ ((forall ob, In ob obstacles -> ~ meetsRect x1 y1 x2 y2 ob) ->
        Trilat.obstacleAttenuationOnPath obstacles x1 y1 x2 y2 = 1)
    /\ (forall obstacles', Permutation obstacles obstacles' ->
        Trilat.obstacleAttenuationOnPath obstacles' x1 y1 x2 y2
        = Trilat.obstacleAttenuationOnPath obstacles x1 y1 x2 y2)
    /\ (Trilat.obstacleAttenuationOnPath [ex_wall; ex_door; ex_desk] 50 50 650 50 = 1
        /\ Trilat.obstacleAttenuationOnPath [ex_wall; ex_door; ex_desk] 50 120 250 120
           = 6 / 10
        /\ Trilat.obstacleAttenuationOnPath [ex_wall; ex_door; ex_desk] 250 120 650 120
           = 25 / 100).
Proof.
  intros x1 y1 x2 y2 obstacles crossed; subst crossed.
  assert (Hnone : (forall ob, In ob obstacles -> ~ crossesRect x1 y1 x2 y2 ob) ->
                  Trilat.obstacleAttenuationOnPath obstacles x1 y1 x2 y2 = 1).
  { intros Hnone; rewrite attenuation_product, filter_none; [reflexivity|].
    intros ob Hin; destruct (Trilat.lineIntersectsRect x1 y1 x2 y2 ob) eqn:E; auto.
    apply lineIntersectsRect_crossesRect in E; now apply Hnone in E. }
  split; [apply attenuation_product|].
  split; [intros ob; rewrite filter_In, lineIntersectsRect_crossesRect; tauto|].
  split.
  { intros ob Hin (e & He & Hp); apply filter_In; split; [exact Hin|].
    apply lineIntersectsRect_crossesRect; exists e; split; [exact He|].
    now apply crossesProperly_counted. }
  split.
  { intros ob Hin Hw Hh Hp; apply filter_In; split; [exact Hin|].
    now apply passesThrough_counted. }
  split.
  { intros ob Hin; apply filter_In in Hin; destruct Hin as [_ Hin].
    now apply crossesRect_meets, lineIntersectsRect_crossesRect. }
  split; [exact Hnone|].
  split.
  { intros Hfree; apply Hnone; intros ob Hin Hc.
    exact (Hfree ob Hin (crossesRect_meets _ _ _ _ _ Hc)). }
  split; [|exact attenuation_scenarios].
  intros obstacles' Hperm; rewrite !attenuation_factors.
  symmetry; apply Rprod_Permutation, Permutation_map, Hperm.
Qed.

Lemma obstacleAttenuation_product_witness :
  In ex_door
     (filter (Trilat.lineIntersectsRect 250 120 650 120) [ex_wall; ex_door; ex_desk]).
Proof.
  apply (proj1 (proj2 (proj2 (proj2
           (obstacleAttenuation_product 250 120 650 120 [ex_wall; ex_door; ex_desk]))))
           ex_door).
  - simpl; tauto.
  - simpl; lra.
  - simpl; lra.
  - split.
    + exists 350, 120; split.
      * exists (1 / 4); repeat split; lra.
      * unfold strictlyInside; simpl; lra.
    + unfold strictlyInside; simpl; lra.
Defined.

(** C9, as the code has it.  For a rectangle of positive width and
    height: when the two endpoints of the segment lie on the same side of
    each of the four edge lines (a point on a line counting as outside of
    it), and in particular when both lie strictly inside the rectangle,
    the obstacle is not counted as crossed and
    [obstacleAttenuationOnPath] applies no factor for it. *)
Theorem segment_within_cell_not_counted :
  forall (r : Trilat.obstacle) (x1 y1 x2 y2 : R),
    0 < Trilat.ow r -> 0 < Trilat.oh r ->
    (strictlyInside r x1 y1 /\ strictlyInside r x2 y2
     \/ cell r x1 y1 = cell r x2 y2) ->
    Trilat.lineIntersectsRect x1 y1 x2 y2 r = false
    /\ ~ crossesBoundary x1 y1 x2 y2 r
    /\ forall before after : list Trilat.obstacle,
        Trilat.obstacleAttenuationOnPath (before ++ r :: after) x1 y1 x2 y2
        = Trilat.obstacleAttenuationOnPath (before ++ after) x1 y1 x2 y2.
Proof.
  intros r x1 y1 x2 y2 Hw Hh Hcell.
  assert (Hno : Trilat.lineIntersectsRect x1 y1 x2 y2 r = false).
  { apply same_cell_not_counted; auto.
    destruct Hcell as [[H1 H2]|H]; auto.
    now rewrite !strictlyInside_cell. }
  split; [exact Hno|]; split.
  - rewrite <- lineIntersectsRect_spec, Hno; discriminate.
  - intros before after; now apply attenuation_skip.
Qed.

Lemma segment_within_cell_not_counted_witness :
  Trilat.lineIntersectsRect 2 3 8 7 ex_box = false
  /\ ~ crossesBoundary 2 3 8 7 ex_box
  /\ forall before after : list Trilat.obstacle,
      Trilat.obstacleAttenuationOnPath (before ++ ex_box :: after) 2 3 8 7
      = Trilat.obstacleAttenuationOnPath (before ++ after) 2 3 8 7.
Proof.
  apply (segment_within_cell_not_counted ex_box 2 3 8 7).
  - simpl; lra.
  - simpl; lra.
  - left; unfold strictlyInside; simpl; lra.
Defined.

(** C9 as worded fails for touching segments.  With the rectangle
    [0,10] x [0,10] of attenuation 0.4: the segment from the centre (5,5)
    to the point (5,0) of the top edge lies strictly inside the rectangle
    except for that endpoint, the segment from the centre to the corner
    (0,0) likewise, and the segment from (-5,0) to (15,0) lies on the line
    of the top edge; all three are counted and the factor 0.6 is applied.
    The mirror image of the first one, from (5,-5) outside to the same
    point (5,0), is not counted. *)
Lemma touching_segments_counted :
  ((forall px py, onSegment 5 5 5 0 px py ->
                  strictlyInside ex_box px py \/ (px = 5 /\ py = 0))
   /\ Trilat.lineIntersectsRect 5 5 5 0 ex_box = true
   /\ Trilat.obstacleAttenuationOnPath [ex_box] 5 5 5 0 = 6 / 10)
  /\ ((forall px py, onSegment 5 5 0 0 px py ->
                     strictlyInside ex_box px py \/ (px = 0 /\ py = 0))
      /\ Trilat.lineIntersectsRect 5 5 0 0 ex_box = true
      /\ Trilat.obstacleAttenuationOnPath [ex_box] 5 5 0 0 = 6 / 10)
  /\ ((forall px py, onSegment (- 5) 0 15 0 px py -> py = Trilat.oy ex_box)
      /\ Trilat.lineIntersectsRect (- 5) 0 15 0 ex_box = true
      /\ Trilat.obstacleAttenuationOnPath [ex_box] (- 5) 0 15 0 = 6 / 10)
  /\ Trilat.lineIntersectsRect 5 (- 5) 5 0 ex_box = false.
Proof.
  split; [|split; [|split]].
  - split; [|split; eval_rect; [reflexivity | lra]].
    intros px py (t & Ht & -> & ->); unfold strictlyInside; simpl.
    destruct (Req_dec t 1) as [->|Hne]; [right | left]; lra.
  - split; [|split; eval_rect; [reflexivity | lra]].
    intros px py (t & Ht & -> & ->); unfold strictlyInside; simpl.
    destruct (Req_dec t 1) as [->|Hne]; [right | left]; lra.
  - split; [|split; eval_rect; [reflexivity | lra]].
    intros px py (t & Ht & -> & ->); simpl; lra.
  - eval_rect; reflexivity.
Qed.

(** ** Rolling-analysis scoring *)

Lemma scoreEntry_skip (k : R) (acc : option best_t) (key : string)
      (arr : list sample) :
  ~ qualifies arr -> scoreEntry k acc (key, arr) = acc.
Proof.
  unfold qualifies, scoreEntry; intros H.
  destruct (Nat.ltb_spec (List.length arr) 5); [reflexivity | lia].
Qed.

Lemma scoreEntry_take (k : R) (acc : option best_t) (key : string)
      (arr : list sample) :
  qualifies arr ->
  let cand := mkBest key (avgOf a_rssi arr) (avgOf a_dist arr) (lastMeta arr)
                     (avgOf a_rssi arr - k * avgOf a_dist arr) in
  match acc with
  | None => scoreEntry k acc (key, arr) = Some cand
  | Some a =>
      (b_score a < b_score cand /\ scoreEntry k acc (key, arr) = Some cand)
      \/ (b_score cand <= b_score a /\ scoreEntry k acc (key, arr) = acc)
  end.
Proof.
  intros H cand; unfold qualifies, scoreEntry in *.
  destruct (Nat.ltb_spec (List.length arr) 5); [lia|].
  destruct acc as [a|]; [|reflexivity].
  unfold Rgtb; destruct (Rltb (b_score a) _) eqn:E.
  - left; split; [now apply Rltb_true in E | reflexivity].
  - right; split; [now apply Rltb_false in E | reflexivity].
Qed.

Lemma fold_scoreEntry_from (k : R) (w : JsMap.t (list sample))
      (acc : option best_t) :
  scoring_from k acc w (fold_left (scoreEntry k) w acc).
Proof.
  revert acc; induction w as [|[key arr] w IH]; intros acc.
  - simpl; destruct acc as [a|]; simpl.
    + split; [now left|]; split; [intros ? [= ->]; lra | tauto].
    + tauto.
  - cbn [fold_left].
    specialize (IH (scoreEntry k acc (key, arr))).
    unfold scoring_from in IH |- *.
    destruct (Nat.le_gt_cases 5 (List.length arr)) as [Hq|Hq].
    + pose proof (scoreEntry_take k acc key arr Hq) as Ht; cbn zeta in Ht.
      destruct (fold_left _ w _) as [b|].
      * destruct IH as (Horigin & Hacc & Hmax).
        destruct acc as [a|].
        -- destruct Ht as [[Hlt Ht]|[Hle Ht]]; rewrite Ht in *; cbn [b_score] in *.
           ++ specialize (Hacc _ eq_refl); simpl in Hacc.
              split; [|split].
              ** right; destruct Horigin as [[= <-]|(arr' & Hin & Hrest)].
                 { exists arr; simpl; repeat split; auto. }
                 { exists arr'; split; [now right | exact Hrest]. }
              ** intros a' [= <-]; lra.
              ** intros key' arr' [[= <- <-]|Hin] Hq'; [lra | eauto].
           ++ specialize (Hacc _ eq_refl).
              split; [|split].
              ** destruct Horigin as [->|(arr' & Hin & Hrest)]; [now left|].
                 right; exists arr'; split; [now right | exact Hrest].
              ** intros a' [= <-]; lra.
              ** intros key' arr' [[= <- <-]|Hin] Hq'; [simpl in Hle; lra | eauto].
        -- rewrite Ht in *; specialize (Hacc _ eq_refl); simpl in Hacc.
           split; [|split].
           ++ right; destruct Horigin as [[= <-]|(arr' & Hin & Hrest)].
              { exists arr; simpl; repeat split; auto. }
              { exists arr'; split; [now right | exact Hrest]. }
           ++ discriminate.
           ++ intros key' arr' [[= <- <-]|Hin] Hq'; [lra | eauto].
      * destruct IH as [Hnone _]; exfalso.
        destruct acc as [a|]; [destruct Ht as [[_ Ht]|[_ Ht]]|];
          rewrite Ht in Hnone; discriminate.
    + assert (Hnq : ~ qualifies arr) by (unfold qualifies; lia).
      rewrite (scoreEntry_skip k acc key arr Hnq) in IH |- *.
      destruct (fold_left _ w acc) as [b|].
      * destruct IH as (Horigin & Hacc & Hmax); split; [|split]; auto.
        -- destruct Horigin as [->|(arr' & Hin & Hrest)]; [now left|].
           right; exists arr'; split; [now right | exact Hrest].
        -- intros key' arr' [[= <- <-]|Hin] Hq'; [contradiction | eauto].
      * destruct IH as [-> Hall]; split; auto.
        intros key' arr' [[= <- <-]|Hin]; eauto.
Qed.

Lemma suggestBest_ok (k : R) (w : JsMap.t (list sample)) :
  scoring_ok k w (suggestBest k w).
Proof.
  pose proof (fold_scoreEntry_from k w None) as H.
  unfold suggestBest, scoring_ok; destruct (fold_left _ w None) as [b|]; simpl in H.
  - destruct H as ([H|H] & _ & Hmax); [discriminate | tauto].
  - tauto.
Qed.

(** A [Map] never holds a key twice; [set] and the sample collection keep
    it so. *)
Lemma set_keys {V : Type} (m : JsMap.t V) (k : string) (v : V) :
  JsMap.keys (JsMap.set m k v)
  = match JsMap.get m k with
    | Some _ => JsMap.keys m
    | None => JsMap.keys m ++ [k]
    end.
Proof.
  induction m as [|[k' v'] m IH]; simpl; auto.
  destruct (String.eqb k' k) eqn:E; simpl; auto.
  rewrite IH; destruct (JsMap.get m k); reflexivity.
Qed.

Lemma set_NoDup {V : Type} (m : JsMap.t V) (k : string) (v : V) :
  NoDup (JsMap.keys m) -> NoDup (JsMap.keys (JsMap.set m k v)).
Proof.
  intros Hnd; rewrite set_keys.
  destruct (JsMap.get m k) eqn:E; auto.
  apply JsMapFacts.get_None_not_In in E.
  apply (Permutation_NoDup (l := k :: JsMap.keys m)).
  - apply Permutation_cons_append.
  - now constructor.
Qed.

Lemma collect_NoDup (f : R -> string -> R) (ts : R) (sm : JsMap.t smooth)
      (live : list network) (w : JsMap.t (list sample)) :
  NoDup (JsMap.keys w) -> NoDup (JsMap.keys (collect f ts sm live w)).
Proof.
  unfold collect; revert w; induction live as [|n live IH]; intros w Hnd; simpl; auto.
  apply IH; unfold collectOne; now apply set_NoDup.
Qed.

(** Once the duration has elapsed the step scores the collected window. *)
Lemma step_elapsed (f : R -> string -> R) (k t ts : R) (sm : JsMap.t smooth)
      (live : list network) (w : JsMap.t (list sample)) :
  30000 <= t ->
  step f k t ts sm live w = inr (suggestBest k (collect f ts sm live w)).
Proof.
  intros Ht; unfold step.
  now rewrite (proj2 (Rltb_false t 30000) Ht).
Qed.

Lemma avgOf_mean (f : sample -> R) (arr : list sample) :
  avgOf f arr = mean (map f arr).
Proof.
  unfold avgOf, mean; rewrite fold_left_Rsum, length_map; f_equal; ring.
Qed.

Lemma suggestBest_recommends (k : R) (w : JsMap.t (list sample)) :
  recommends k w (suggestBest k w).
Proof.
  pose proof (suggestBest_ok k w) as H; unfold scoring_ok, recommends in *.
  destruct (suggestBest k w) as [b|]; [|exact H].
  destruct H as [(arr & Hin & Hq & Hr & Hd & _ & Hs) Hmax].
  exists arr; unfold windowScore; rewrite <- !avgOf_mean.
  repeat split; try assumption; [congruence|].
  intros key' arr' Hin' Hq'; rewrite <- !avgOf_mean; now apply (Hmax key').
Qed.

(** C5. The scoring run at the end of the analysis.  While the elapsed
    time is below 30 000 ms a step only collects samples; once it has
    elapsed the step scores the collected window table.  The
    recommendation made from a table [w], when there is one, is an entry
    of [w] with at least 5 samples, reported with the average signal and
    average distance of its window and the score
    [avgSignal - k*avgDistance] (k = 2 in the trilateration variants,
    k = 1 in the radial ones), and that score is maximal among all
    entries with at least 5 samples; no recommendation is made exactly
    when no entry has 5 samples; and an emitter whose window has fewer
    than 5 samples is never the recommendation, as in the table where an
    emitter with 2 samples and the score -32 loses to one with 5 samples
    and the score -130. *)
Theorem suggestion_is_best_qualified :
  forall (w : JsMap.t (list sample)),
    recommends 2 w (Trilat.suggest w)
    /\ recommends 1 w (Radial.suggest w)
    /\ scoring_ok 2 w (Trilat.suggest w)
    /\ scoring_ok 1 w (Radial.suggest w)
    /\ (NoDup (JsMap.keys w) ->
        forall key arr, In (key, arr) w -> ~ qualifies arr ->
        forall b, Trilat.suggest w = Some b \/ Radial.suggest w = Some b ->
                  b_bssid b <> key)
    /\ (forall (t ts : R) (sm : JsMap.t smooth) (live : list network),
          (t < 30000 ->
           Trilat.step t ts sm live w = inl (collect Trilat.rssiToDistance ts sm live w)
           /\ Radial.step t ts sm live w
              = inl (collect Radial.rssiToDistance ts sm live w))
          /\ (30000 <= t ->
              (exists res,
                  Trilat.step t ts sm live w = inr res
                  /\ recommends 2 (collect Trilat.rssiToDistance ts sm live w) res)
              /\ (exists res,
                     Radial.step t ts sm live w = inr res
                     /\ recommends 1 (collect Radial.rssiToDistance ts sm live w) res)))
    /\ (Trilat.suggest ex_short = Some ex_steady_best
        /\ b_score ex_steady_best = - 130
        /\ windowScore 2 (ex_window "strong"%string 2 (- 30) 1) = - 32).
Proof.
  intros w.
  pose proof (suggestBest_ok 2 w) as H2.
  pose proof (suggestBest_ok 1 w) as H1.
  split; [apply suggestBest_recommends|]; split; [apply suggestBest_recommends|].
  split; [exact H2|]; split; [exact H1|].
  split; [|split].
  - intros Hnd key arr Hin Hnq b Hb Hkey; subst key.
    assert (Hex : exists arr', In (b_bssid b, arr') w /\ qualifies arr').
    { destruct Hb as [Hb|Hb]; [unfold Trilat.suggest in Hb; rewrite Hb in H2
                              |unfold Radial.suggest in Hb; rewrite Hb in H1];
        simpl in *.
      - destruct H2 as [(arr' & Hin' & Hq & _) _]; eauto.
      - destruct H1 as [(arr' & Hin' & Hq & _) _]; eauto. }
    destruct Hex as (arr' & Hin' & Hq).
    apply (JsMapFacts.In_get_NoDup _ _ _ Hnd) in Hin, Hin'.
    rewrite Hin in Hin'; injection Hin' as ->; contradiction.
  - intros t ts sm live; split.
    + intros Ht; unfold Trilat.step, Radial.step, step.
      now rewrite (proj2 (Rltb_true t 30000) Ht).
    + intros Ht; unfold Trilat.step, Radial.step; rewrite !step_elapsed by exact Ht.
      split; eexists; (split; [reflexivity | apply suggestBest_recommends]).
  - split; [reflexivity|]; split.
    + unfold ex_steady_best, avgOf; simpl; lra.
    + unfold windowScore, mean; simpl; lra.
Qed.

Lemma suggestion_is_best_qualified_witness :
  recommends 2 ex_short (Some ex_steady_best).
Proof.
  exact (proj1 (suggestion_is_best_qualified ex_short)).
Defined.

(** The two scoring scenarios: the emitter with too few samples loses
    although its score (-32) beats the other's (-130); among two emitters
    with enough samples the one averaging -40 dBm at 5 m wins over the one
    averaging -70 dBm at 30 m, with either weight. *)
Lemma scoring_scenarios :
  scoreOf 2 (ex_window "strong"%string 2 (- 30) 1) = - 32
  /\ b_score ex_steady_best = - 130
  /\ Trilat.suggest ex_short = Some ex_steady_best
  /\ (let w := [ ("near"%string, ex_window "near"%string 5 (- 40) 5);
                 ("far"%string, ex_window "far"%string 6 (- 70) 30) ] in
      (exists b, Trilat.suggest w = Some b /\ b_bssid b = "near"%string /\ b_score b = - 50)
      /\ (exists b, Radial.suggest w = Some b /\ b_bssid b = "near"%string /\ b_score b = - 45)).
Proof.
  split; [|split; [|split; [|split]]].
  - unfold scoreOf, avgOf; simpl; lra.
  - unfold ex_steady_best, avgOf; simpl; lra.
  - reflexivity.
  - eexists; split; [|split].
    + unfold Trilat.suggest, suggestBest, scoreEntry, avgOf, Rgtb; simpl.
      rltb; reflexivity.
    + reflexivity.
    + unfold avgOf; simpl; lra.
  - eexists; split; [|split].
    + unfold Radial.suggest, suggestBest, scoreEntry, avgOf, Rgtb; simpl.
      rltb; reflexivity.
    + reflexivity.
    + unfold avgOf; simpl; lra.
Qed.

(** ** Radial layout: angle table *)

Lemma goldenAngleIncrement_pos : 0 < Radial.goldenAngleIncrement.
Proof.
  unfold Radial.goldenAngleIncrement.
  apply Rmult_lt_0_compat; [apply PI_RGT_0|].
  assert (H : sqrt 5 < sqrt (3 * 3)) by (apply sqrt_lt_1; lra).
  rewrite sqrt_square in H; lra.
Qed.

Lemma assignAngle_ok (angles : JsMap.t R) (id : string) :
  angles_ok angles -> angles_ok (Radial.assignAngle angles id).
Proof.
  unfold Radial.assignAngle, JsMap.has; intros Hok.
  destruct (JsMap.get angles id) eqn:E; simpl; auto.
  rewrite JsMapFacts.set_absent by exact E.
  intros i key a Hnth.
  destruct (Nat.lt_ge_cases i (List.length angles)) as [Hlt|Hge].
  - rewrite nth_error_app1 in Hnth by exact Hlt; eauto.
  - rewrite nth_error_app2 in Hnth by exact Hge.
    destruct (i - List.length angles)%nat as [|d] eqn:Ed; simpl in Hnth.
    + injection Hnth as <- <-; unfold JsMap.size.
      replace i with (List.length angles) by lia; reflexivity.
    + destruct d; discriminate.
Qed.

Lemma assignAngle_stable (angles : JsMap.t R) (id key : string) (a : R) :
  JsMap.get angles key = Some a ->
  JsMap.get (Radial.assignAngle angles id) key = Some a.
Proof.
  unfold Radial.assignAngle, JsMap.has; intros Hget.
  destruct (JsMap.get angles id) eqn:E; simpl; auto.
  rewrite JsMapFacts.get_set_other; auto.
  intros ->; congruence.
Qed.

Lemma placeOne_angles (devX devY maxR : R) (st : Radial.frame_state) (n : network) :
  Radial.networkAngles (Radial.placeOne devX devY maxR st n)
  = Radial.assignAngle (Radial.networkAngles st) (bssid n).
Proof. reflexivity. Qed.

Lemma fold_placeOne_angles (devX devY maxR : R) (live : list network)
      (st : Radial.frame_state) :
  Radial.networkAngles (fold_left (Radial.placeOne devX devY maxR) live st)
  = fold_left Radial.assignAngle (map bssid live) (Radial.networkAngles st).
Proof.
  revert st; induction live as [|n live IH]; intros st; [reflexivity|].
  cbn [fold_left map]; now rewrite IH, placeOne_angles.
Qed.

(** The angle table after a frame: every live emitter in scan order has
    gone through [assignAngle]; the relaxation does not touch it. *)
Lemma draw_angles (devX devY maxR : R) (st : Radial.frame_state)
      (live : list network) :
  Radial.networkAngles (Radial.draw devX devY maxR st live)
  = fold_left Radial.assignAngle (map bssid live) (Radial.networkAngles st).
Proof.
  unfold Radial.draw, Radial.placeAll; simpl.
  now rewrite fold_placeOne_angles.
Qed.

Lemma fold_assignAngle_ok (ids : list string) (angles : JsMap.t R) :
  angles_ok angles -> angles_ok (fold_left Radial.assignAngle ids angles).
Proof.
  revert angles; induction ids as [|id ids IH]; intros angles Hok; simpl; auto.
  apply IH, assignAngle_ok, Hok.
Qed.

Lemma fold_assignAngle_stable (ids : list string) (angles : JsMap.t R)
      (key : string) (a : R) :
  JsMap.get angles key = Some a ->
  JsMap.get (fold_left Radial.assignAngle ids angles) key = Some a.
Proof.
  revert angles; induction ids as [|id ids IH]; intros angles Hget; simpl; auto.
  apply IH, assignAngle_stable, Hget.
Qed.

Lemma runEvent_ok (st : Radial.frame_state) (ev : event) :
  angles_ok (Radial.networkAngles st) ->
  angles_ok (Radial.networkAngles (runEvent st ev)).
Proof.
  intros Hok; destruct ev as [devX devY maxR live|]; cbn [runEvent].
  - rewrite draw_angles; now apply fold_assignAngle_ok.
  - intros [|i] key a; discriminate.
Qed.

Lemma run_ok (events : list event) (st : Radial.frame_state) :
  angles_ok (Radial.networkAngles st) ->
  angles_ok (Radial.networkAngles (run events st)).
Proof.
  unfold run; revert st; induction events as [|ev events IH]; intros st Hok; simpl; auto.
  apply IH, runEvent_ok, Hok.
Qed.

Lemma get_nth_error {V : Type} (m : JsMap.t V) (k : string) (v : V) :
  JsMap.get m k = Some v -> exists i, nth_error m i = Some (k, v).
Proof. intros H; apply JsMapFacts.get_In in H; now apply In_nth_error. Qed.

Lemma angles_ok_distinct (angles : JsMap.t R) (k1 k2 : string) (a1 a2 : R) :
  angles_ok angles ->
  JsMap.get angles k1 = Some a1 -> JsMap.get angles k2 = Some a2 ->
  k1 <> k2 -> a1 <> a2.
Proof.
  intros Hok H1 H2 Hne Heq.
  destruct (get_nth_error _ _ _ H1) as [i Hi].
  destruct (get_nth_error _ _ _ H2) as [j Hj].
  pose proof (Hok _ _ _ Hi) as E1; pose proof (Hok _ _ _ Hj) as E2.
  pose proof goldenAngleIncrement_pos as Hg.
  assert (Hij : INR i = INR j).
  { apply (Rmult_eq_reg_r Radial.goldenAngleIncrement); [congruence | lra]. }
  apply INR_eq in Hij; subst j; congruence.
Qed.

(** The square root of 5 is irrational: [p*p = 5*q*q] has no integer
    solution with [q <> 0] (descent on [q]). *)
Lemma five_divides_square (p z : Z) : (p * p = 5 * z)%Z -> exists p', (p = 5 * p')%Z.
Proof.
  intros H.
  pose proof (Z.div_mod p 5 ltac:(lia)) as Hdm.
  pose proof (Z.mod_pos_bound p 5 ltac:(lia)) as Hb.
  set (k := (p / 5)%Z) in *; set (r := (p mod 5)%Z) in *.
  assert (Hr : (r * r = 5 * (z - 5 * k * k - 2 * k * r))%Z) by (rewrite Hdm in H; lia).
  assert (r = 0 \/ r = 1 \/ r = 2 \/ r = 3 \/ r = 4)%Z as [E|[E|[E|[E|E]]]] by lia;
    rewrite E in Hr; try lia.
  exists k; lia.
Qed.

Lemma no_rational_sqrt5 (n : nat) :
  forall p q : Z, (Z.abs_nat q <= n)%nat -> (p * p = 5 * (q * q))%Z -> q = 0%Z.
Proof.
  induction n as [|n IH]; intros p q Hn H.
  - lia.
  - destruct (Z.eq_dec q 0) as [|Hq]; [assumption|exfalso].
    destruct (five_divides_square p (q * q) H) as [p' ->].
    assert (H' : (q * q = 5 * (p' * p'))%Z) by lia.
    destruct (five_divides_square q (p' * p') H') as [q' ->].
    assert (H'' : (p' * p' = 5 * (q' * q'))%Z) by lia.
    assert (q' = 0%Z) by (apply (IH p' q'); [lia | exact H'']).
    lia.
Qed.

Lemma sqrt5_irrational (a b : Z) : b <> 0%Z -> sqrt 5 * IZR b <> IZR a.
Proof.
  intros Hb E.
  assert (H5 : sqrt 5 * sqrt 5 = 5) by (apply sqrt_sqrt; lra).
  assert (Hz : IZR (a * a) = IZR (5 * (b * b))).
  { rewrite !mult_IZR, <- E. replace (IZR 5) with 5 by reflexivity. nra. }
  apply eq_IZR in Hz.
  apply Hb, (no_rational_sqrt5 (Z.abs_nat b) a b); [lia | exact Hz].
Qed.

(** Multiples of the increment never differ by whole turns: two entries
    of the table do not even point in the same direction. *)
Lemma golden_multiples_distinct_mod_turn (i j : nat) (m : Z) :
  i <> j ->
  INR i * Radial.goldenAngleIncrement
  <> INR j * Radial.goldenAngleIncrement + IZR m * (2 * PI).
Proof.
  intros Hij E; unfold Radial.goldenAngleIncrement in E.
  pose proof PI_RGT_0 as Hpi.
  assert (E' : (INR i - INR j) * (3 - sqrt 5) = 2 * IZR m).
  { apply (Rmult_eq_reg_l PI); [|lra].
    transitivity (INR i * (PI * (3 - sqrt 5)) - INR j * (PI * (3 - sqrt 5))); [ring|].
    rewrite E; ring. }
  rewrite !INR_IZR_INZ, <- minus_IZR in E'.
  set (b := (Z.of_nat i - Z.of_nat j)%Z) in *.
  apply (sqrt5_irrational (3 * b - 2 * m) b); [subst b; lia|].
  rewrite minus_IZR, !mult_IZR; lra.
Qed.

Lemma angles_ok_distinct_mod_turn (angles : JsMap.t R) (k1 k2 : string)
      (a1 a2 : R) (m : Z) :
  angles_ok angles ->
  JsMap.get angles k1 = Some a1 -> JsMap.get angles k2 = Some a2 ->
  k1 <> k2 -> a1 <> a2 + IZR m * (2 * PI).
Proof.
  intros Hok H1 H2 Hne.
  destruct (get_nth_error _ _ _ H1) as [i Hi].
  destruct (get_nth_error _ _ _ H2) as [j Hj].
  rewrite (Hok _ _ _ Hi), (Hok _ _ _ Hj).
  apply golden_multiples_distinct_mod_turn.
  intros ->; congruence.
Qed.

(** C7. After any sequence of frames and resets from the initial state:
    an emitter not yet in the angle table receives the table size times
    the golden-angle increment on its first appearance; angles already
    assigned are kept by every later assignment and frame; a reset empties
    the table; and no two distinct emitters of the table hold the same
    angle, nor angles that differ by whole turns, whatever the number of
    emitters. *)
Theorem golden_angles_distinct :
  forall (events : list event),
    let st := run events initState in
    let angles := Radial.networkAngles st in
    (forall id, JsMap.get angles id = None ->
                JsMap.get (Radial.assignAngle angles id) id
                = Some (INR (JsMap.size angles) * (PI * (3 - sqrt 5))))
    /\ (forall devX devY maxR live key a,
          JsMap.get angles key = Some a ->
          JsMap.get (Radial.networkAngles
                       (runEvent st (Frame devX devY maxR live))) key = Some a)
    /\ Radial.networkAngles (runEvent st Reset) = JsMap.empty
    /\ (forall k1 k2 a1 a2,
          JsMap.get angles k1 = Some a1 -> JsMap.get angles k2 = Some a2 ->
          k1 <> k2 -> a1 <> a2)
    /\ (forall k1 k2 a1 a2 (turns : Z),
          JsMap.get angles k1 = Some a1 -> JsMap.get angles k2 = Some a2 ->
          k1 <> k2 -> a1 <> a2 + IZR turns * (2 * PI)).
Proof.
  intros events st angles.
  assert (Hok : angles_ok angles) by (apply run_ok; intros [|i] key a; discriminate).
  split; [|split; [|split; [|split]]].
  - intros id Hnone; unfold Radial.assignAngle, JsMap.has; rewrite Hnone; simpl.
    apply JsMapFacts.get_set_same.
  - intros devX devY maxR live key a Hget; cbn [runEvent].
    rewrite draw_angles; now apply fold_assignAngle_stable.
  - reflexivity.
  - intros k1 k2 a1 a2; now apply angles_ok_distinct.
  - intros k1 k2 a1 a2 turns; now apply angles_ok_distinct_mod_turn.
Qed.

Lemma ex_scan_angles :
  Radial.networkAngles (run [Frame 400 300 220 ex_scan] initState)
  = [ ("aa:01"%string, INR 0 * Radial.goldenAngleIncrement);
      ("aa:02"%string, INR 1 * Radial.goldenAngleIncrement) ].
Proof. unfold run; cbn [fold_left runEvent]; rewrite draw_angles; reflexivity. Qed.

Lemma golden_angles_distinct_witness :
  INR 0 * Radial.goldenAngleIncrement <> INR 1 * Radial.goldenAngleIncrement.
Proof.
  apply (proj1 (proj2 (proj2 (proj2
           (golden_angles_distinct [Frame 400 300 220 ex_scan]))))
           "aa:01"%string "aa:02"%string).
  - rewrite ex_scan_angles; reflexivity.
  - rewrite ex_scan_angles; reflexivity.
  - discriminate.
Defined.

(** ** Radial layout: repulsion relaxation *)

Lemma setNth_length (i : nat) (v : Radial.node) (l : list Radial.node) :
  List.length (Radial.setNth i v l) = List.length l.
Proof.
  revert i; induction l as [|a l IH]; intros [|i]; simpl; auto.
Qed.

Lemma nth_error_setNth_other (i j : nat) (v : Radial.node) (l : list Radial.node) :
  i <> j -> nth_error (Radial.setNth i v l) j = nth_error l j.
Proof.
  revert i j; induction l as [|a l IH]; intros [|i] [|j] Hne; simpl; auto;
    try congruence.
Qed.

Lemma sum_setNth (f : Radial.node -> R) (i : nat) (v old : Radial.node)
      (l : list Radial.node) :
  nth_error l i = Some old ->
  Rsum (map f (Radial.setNth i v l)) = Rsum (map f l) - f old + f v.
Proof.
  revert i; induction l as [|a l IH]; intros [|i]; simpl; try discriminate.
  - intros [= ->]; ring.
  - intros H; rewrite (IH _ H); ring.
Qed.

(** A same-index pair never triggers the repulsion, and a triggering pair
    moves its two nodes by opposite offsets. *)
Lemma repelPair_sums (nodes : list Radial.node) (i j : nat) :
  List.length (Radial.repelPair nodes i j) = List.length nodes
  /\ sumX (Radial.repelPair nodes i j) = sumX nodes
  /\ sumY (Radial.repelPair nodes i j) = sumY nodes.
Proof.
  unfold Radial.repelPair.
  destruct (nth_error nodes i) as [nodeA|] eqn:EA; [|auto].
  destruct (nth_error nodes j) as [nodeB|] eqn:EB; [|auto].
  destruct (Rgtb _ 0 && _) eqn:Eg; [|auto].
  apply andb_true_iff in Eg; destruct Eg as [Hpos _].
  unfold Rgtb in Hpos; apply Rltb_true in Hpos.
  assert (Hij : i <> j).
  { intros ->; rewrite EA in EB; injection EB as ->; lra. }
  split; [now rewrite !setNth_length|].
  unfold sumX, sumY; split.
  - rewrite (sum_setNth _ j _ nodeB), (sum_setNth _ i _ nodeA); auto.
    + simpl; ring.
    + now rewrite nth_error_setNth_other.
  - rewrite (sum_setNth _ j _ nodeB), (sum_setNth _ i _ nodeA); auto.
    + simpl; ring.
    + now rewrite nth_error_setNth_other.
Qed.

Lemma nth_error_setNth_same (i : nat) (v old : Radial.node) (l : list Radial.node) :
  nth_error l i = Some old -> nth_error (Radial.setNth i v l) i = Some v.
Proof.
  revert i; induction l as [|a l IH]; intros [|i]; simpl; try discriminate; auto.
Qed.

(** The adjustment of a pair of distinct nodes: the first is moved by
    some offset, the second by the opposite offset, and every other node
    stays where it is. *)
Lemma repelPair_opposite (nodes : list Radial.node) (i j : nat)
      (nodeA nodeB : Radial.node) :
  i <> j ->
  nth_error nodes i = Some nodeA -> nth_error nodes j = Some nodeB ->
  exists moveX moveY,
    nth_error (Radial.repelPair nodes i j) i
    = Some (Radial.moveTo nodeA (Radial.n_x nodeA - moveX) (Radial.n_y nodeA - moveY))
    /\ nth_error (Radial.repelPair nodes i j) j
       = Some (Radial.moveTo nodeB (Radial.n_x nodeB + moveX) (Radial.n_y nodeB + moveY))
    /\ forall k, k <> i -> k <> j ->
                 nth_error (Radial.repelPair nodes i j) k = nth_error nodes k.
Proof.
  intros Hij EA EB; unfold Radial.repelPair; rewrite EA, EB.
  destruct (Rgtb _ 0 && _) eqn:Eg.
  - eexists; eexists; split; [|split].
    + rewrite nth_error_setNth_other by congruence.
      apply (nth_error_setNth_same _ _ nodeA), EA.
    + apply (nth_error_setNth_same _ _ nodeB).
      now rewrite nth_error_setNth_other.
    + intros k Hki Hkj; rewrite !nth_error_setNth_other by congruence; reflexivity.
  - exists 0, 0; rewrite EA, EB; split; [|split; [|reflexivity]].
    + destruct nodeA; unfold Radial.moveTo; simpl; do 2 f_equal; ring.
    + destruct nodeB; unfold Radial.moveTo; simpl; do 2 f_equal; ring.
Qed.

Lemma keeps_fold {A : Type} (step : list Radial.node -> A -> list Radial.node)
      (l : list A) :
  (forall a, keeps_centroid (fun ns => step ns a)) ->
  keeps_centroid (fun ns => fold_left step l ns).
Proof.
  intros Hstep; induction l as [|a l IH]; intros nodes; simpl; auto.
  destruct (IH (step nodes a)) as (Hl & Hx & Hy).
  destruct (Hstep a nodes) as (Hl' & Hx' & Hy').
  repeat split; congruence.
Qed.

Lemma repelFrom_keeps (i : nat) : keeps_centroid (Radial.repelFrom i).
Proof.
  intros nodes; unfold Radial.repelFrom.
  apply (keeps_fold (fun ns j => Radial.repelPair ns i j)).
  intros j ns; apply repelPair_sums.
Qed.

Lemma relaxOnce_keeps : keeps_centroid Radial.relaxOnce.
Proof.
  intros nodes; unfold Radial.relaxOnce.
  apply (keeps_fold (fun ns i => Radial.repelFrom i ns)).
  intros i; apply repelFrom_keeps.
Qed.

Lemma iter_keeps (n : nat) (f : list Radial.node -> list Radial.node) :
  keeps_centroid f -> keeps_centroid (Nat.iter n f).
Proof.
  intros Hf; induction n as [|n IH]; intros nodes; simpl; auto.
  destruct (Hf (Nat.iter n f nodes)) as (Hl & Hx & Hy).
  destruct (IH nodes) as (Hl' & Hx' & Hy').
  repeat split; congruence.
Qed.

Lemma relax_keeps : keeps_centroid Radial.relax.
Proof. apply iter_keeps, relaxOnce_keeps. Qed.

Lemma keeps_mean (f : list Radial.node -> list Radial.node) (nodes : list Radial.node) :
  keeps_centroid f ->
  meanX (f nodes) = meanX nodes /\ meanY (f nodes) = meanY nodes.
Proof.
  intros Hf; destruct (Hf nodes) as (Hl & Hx & Hy).
  unfold meanX, meanY; now rewrite Hl, Hx, Hy.
Qed.

(** C10. The repulsion relaxation keeps the centroid of the node set:
    every pairwise adjustment, every pass over all pairs and the whole
    five-pass relaxation leave the number of nodes, the sum of the x and
    the sum of the y coordinates, hence mean x and mean y, unchanged, for
    every node list; the nodes a frame hands to rendering have the
    centroid of the ideal positions computed from angle and radius. *)
Theorem relaxation_preserves_centroid :
  forall (nodes : list Radial.node),
    (forall i j, meanX (Radial.repelPair nodes i j) = meanX nodes
                 /\ meanY (Radial.repelPair nodes i j) = meanY nodes)
    /\ (meanX (Radial.relaxOnce nodes) = meanX nodes
        /\ meanY (Radial.relaxOnce nodes) = meanY nodes)
    /\ (meanX (Radial.relax nodes) = meanX nodes
        /\ meanY (Radial.relax nodes) = meanY nodes)
    /\ (sumX (Radial.relax nodes) = sumX nodes
        /\ sumY (Radial.relax nodes) = sumY nodes)
    /\ (forall devX devY maxR st live,
           let ideal := Radial.displayNodes (Radial.placeAll devX devY maxR st live) in
           let shown := Radial.displayNodes (Radial.draw devX devY maxR st live) in
           meanX shown = meanX ideal /\ meanY shown = meanY ideal).
Proof.
  intros nodes; split; [|split; [|split; [|split]]].
  - intros i j.
    apply (keeps_mean (fun ns => Radial.repelPair ns i j)).
    intros ns; apply repelPair_sums.
  - apply keeps_mean, relaxOnce_keeps.
  - apply keeps_mean, relax_keeps.
  - destruct (relax_keeps nodes) as (_ & Hx & Hy); auto.
  - intros devX devY maxR st live ideal shown; subst ideal shown.
    unfold Radial.draw; cbn [Radial.displayNodes].
    apply keeps_mean, relax_keeps.
Qed.

(** * Further properties of the scripts *)

(** ** Smoothing filter: what the table keeps *)

Lemma Trilat_rssiToDistance_range (r : R) (b : string) :
  5 / 10 <= Trilat.rssiToDistance r b <= 100.
Proof. rewrite Trilat_rssiToDistance_pathLoss; apply clamped_pathLoss_range. Qed.

Lemma Radial_rssiToDistance_range (r : R) (b : string) :
  5 / 10 <= Radial.rssiToDistance r b <= 100.
Proof. rewrite Radial_rssiToDistance_pathLoss; apply clamped_pathLoss_range. Qed.

Lemma lerp_in_interval (a b t lo hi : R) :
  0 <= t <= 1 -> lo <= a <= hi -> lo <= b <= hi -> lo <= lerp a b t <= hi.
Proof.
  intros Ht Ha Hb; pose proof (lerp_between a b t Ht) as H.
  unfold Rmin, Rmax in H; destruct (Rle_dec a b); lra.
Qed.

(** The distance an update blends from: the stored one or the seed. *)
Lemma Radial_updateSmoothed_dist (sm : JsMap.t smooth) (nw : network) :
  dist_in_range sm ->
  5 / 10 <= s_dist (fst (Radial.updateSmoothed sm nw)) <= 100.
Proof.
  intros Hsm; unfold Radial.updateSmoothed; simpl.
  apply lerp_in_interval; [apply alpha_range | | apply Radial_rssiToDistance_range].
  destruct (JsMap.get sm (bssid nw)) eqn:E; simpl.
  - exact (Hsm _ _ E).
  - apply Radial_rssiToDistance_range.
Qed.

Lemma Trilat_updateSmoothed_dist (u : R) (sm : JsMap.t smooth) (nw : network) :
  dist_in_range sm ->
  5 / 10 <= s_dist (fst (Trilat.updateSmoothed u sm nw)) <= 100.
Proof.
  intros Hsm; unfold Trilat.updateSmoothed; simpl.
  apply lerp_in_interval; [apply alpha_range | | apply Trilat_rssiToDistance_range].
  destruct (JsMap.get sm (bssid nw)) eqn:E; simpl.
  - exact (Hsm _ _ E).
  - apply Trilat_rssiToDistance_range.
Qed.

(** An invariant of the entries survives a [set] of a value that has it. *)
Lemma set_entries {V : Type} (P : V -> Prop) (m : JsMap.t V) (k : string) (v : V) :
  (forall key x, JsMap.get m key = Some x -> P x) -> P v ->
  forall key x, JsMap.get (JsMap.set m k v) key = Some x -> P x.
Proof.
  intros Hm Hv key x Hget.
  destruct (string_dec key k) as [->|Hne].
  - rewrite JsMapFacts.get_set_same in Hget; now injection Hget as <-.
  - rewrite JsMapFacts.get_set_other in Hget by exact Hne; eauto.
Qed.

Lemma Radial_updateSmoothed_keeps_range (sm : JsMap.t smooth) (nw : network) :
  dist_in_range sm -> dist_in_range (snd (Radial.updateSmoothed sm nw)).
Proof.
  intros Hsm.
  pose proof (Radial_updateSmoothed_dist sm nw Hsm) as Hd.
  unfold dist_in_range; unfold Radial.updateSmoothed in *; simpl in *.
  apply (set_entries (fun s => 5 / 10 <= s_dist s <= 100)); assumption.
Qed.

Lemma Trilat_updateSmoothed_keeps_range (u : R) (sm : JsMap.t smooth) (nw : network) :
  dist_in_range sm -> dist_in_range (snd (Trilat.updateSmoothed u sm nw)).
Proof.
  intros Hsm.
  pose proof (Trilat_updateSmoothed_dist u sm nw Hsm) as Hd.
  unfold dist_in_range; unfold Trilat.updateSmoothed in *; simpl in *.
  apply (set_entries (fun s => 5 / 10 <= s_dist s <= 100)); assumption.
Qed.

Lemma radialRun_keeps_range (calls : list network) (sm : JsMap.t smooth) :
  dist_in_range sm -> dist_in_range (radialRun calls sm).
Proof.
  unfold radialRun; revert sm; induction calls as [|nw calls IH]; intros sm H; simpl; auto.
  apply IH, Radial_updateSmoothed_keeps_range, H.
Qed.

Lemma trilatRun_keeps_range (calls : list (R * network)) (sm : JsMap.t smooth) :
  dist_in_range sm -> dist_in_range (trilatRun calls sm).
Proof.
  unfold trilatRun; revert sm; induction calls as [|c calls IH]; intros sm H; simpl; auto.
  apply IH, Trilat_updateSmoothed_keeps_range, H.
Qed.

Lemma empty_dist_in_range : dist_in_range JsMap.empty.
Proof. intros key s; discriminate. Qed.

(** X1. Smoothed distances never leave the clamp range: after any run of
    [updateSmoothed] calls from the empty table, in either variant and
    whatever the readings, bands and draws, every entry of the table and
    every value a further call returns has a distance in [0.5, 100]. *)
Theorem smoothed_distance_in_range :
  (forall (calls : list network) (nw : network),
     dist_in_range (radialRun calls JsMap.empty)
     /\ 5 / 10 <= s_dist (fst (Radial.updateSmoothed
                                 (radialRun calls JsMap.empty) nw)) <= 100)
  /\ (forall (calls : list (R * network)) (u : R) (nw : network),
        dist_in_range (trilatRun calls JsMap.empty)
        /\ 5 / 10 <= s_dist (fst (Trilat.updateSmoothed u
                                    (trilatRun calls JsMap.empty) nw)) <= 100).
Proof.
  split.
  - intros calls nw.
    assert (H : dist_in_range (radialRun calls JsMap.empty))
      by apply radialRun_keeps_range, empty_dist_in_range.
    split; [exact H | now apply Radial_updateSmoothed_dist].
  - intros calls u nw.
    assert (H : dist_in_range (trilatRun calls JsMap.empty))
      by apply trilatRun_keeps_range, empty_dist_in_range.
    split; [exact H | now apply Trilat_updateSmoothed_dist].
Qed.

Lemma Radial_updateSmoothed_within (lo hi : R) (sm : JsMap.t smooth) (nw : network) :
  rssi_within lo hi sm -> lo <= rssi nw <= hi ->
  rssi_within lo hi (snd (Radial.updateSmoothed sm nw)).
Proof.
  intros Hsm Hnw.
  assert (Hout : lo <= s_rssi (fst (Radial.updateSmoothed sm nw)) <= hi).
  { rewrite Radial_updateSmoothed_rssi.
    apply lerp_in_interval; [apply alpha_range | | exact Hnw].
    unfold prevRssi; destruct (JsMap.get sm (bssid nw)) eqn:E; [exact (Hsm _ _ E) | exact Hnw]. }
  unfold rssi_within; unfold Radial.updateSmoothed in *; simpl in *.
  apply (set_entries (fun s => lo <= s_rssi s <= hi)); assumption.
Qed.

Lemma Trilat_updateSmoothed_within (lo hi u : R) (sm : JsMap.t smooth) (nw : network) :
  0 <= u < 1 ->
  rssi_within (lo - 2) (hi + 2) sm -> lo <= rssi nw <= hi ->
  rssi_within (lo - 2) (hi + 2) (snd (Trilat.updateSmoothed u sm nw)).
Proof.
  intros Hu Hsm Hnw.
  assert (Hout : lo - 2 <= s_rssi (fst (Trilat.updateSmoothed u sm nw)) <= hi + 2).
  { rewrite Trilat_updateSmoothed_rssi.
    apply lerp_in_interval; [apply alpha_range | | unfold rand; lra].
    unfold prevRssi; destruct (JsMap.get sm (bssid nw)) eqn:E; [exact (Hsm _ _ E) | lra]. }
  unfold rssi_within; unfold Trilat.updateSmoothed in *; simpl in *.
  apply (set_entries (fun s => lo - 2 <= s_rssi s <= hi + 2)); assumption.
Qed.

(** X2. Smoothed signals stay where the readings are: when every raw
    reading of a run lies in [lo, hi], every entry of the table built from
    the empty table lies in [lo, hi] in the radial variants, and in
    [lo - 2, hi + 2] in the trilateration variants, whose target carries a
    drift drawn from [-2, 2). *)
Theorem smoothed_signal_within_readings :
  forall (lo hi : R),
    (forall (calls : list network),
       Forall (fun nw => lo <= rssi nw <= hi) calls ->
       rssi_within lo hi (radialRun calls JsMap.empty))
    /\ (forall (calls : list (R * network)),
          Forall (fun c => 0 <= fst c < 1 /\ lo <= rssi (snd c) <= hi) calls ->
          rssi_within (lo - 2) (hi + 2) (trilatRun calls JsMap.empty)).
Proof.
  intros lo hi; split.
  - intros calls Hall.
    assert (H : forall sm, rssi_within lo hi sm -> rssi_within lo hi (radialRun calls sm)).
    { unfold radialRun; induction Hall as [|nw calls Hnw _ IH]; intros sm Hsm; simpl; auto.
      apply IH, Radial_updateSmoothed_within; assumption. }
    apply H; intros key s; discriminate.
  - intros calls Hall.
    assert (H : forall sm, rssi_within (lo - 2) (hi + 2) sm ->
                           rssi_within (lo - 2) (hi + 2) (trilatRun calls sm)).
    { unfold trilatRun; induction Hall as [|c calls [Hu Hnw] _ IH]; intros sm Hsm; simpl; auto.
      apply IH, Trilat_updateSmoothed_within; assumption. }
    apply H; intros key s; discriminate.
Qed.

Lemma smoothed_signal_within_readings_witness :
  rssi_within (- 70) (- 40)
    (radialRun [mkNetwork "aa:01" "5 GHz" (- 48); mkNetwork "aa:02" "2.4 GHz" (- 66);
                mkNetwork "aa:01" "5 GHz" (- 52)] JsMap.empty).
Proof.
  apply (proj1 (smoothed_signal_within_readings (- 70) (- 40))).
  repeat constructor; simpl; lra.
Defined.

(** X3. What one [updateSmoothed] call touches.  In the radial variants
    the first call for an emitter returns exactly the raw reading and the
    distance estimated from it; in both variants the entry of the emitter
    is replaced by the returned value, the entries of all other emitters
    are left as they were, and no emitter is listed twice. *)
Theorem updateSmoothed_footprint :
  forall (sm : JsMap.t smooth) (nw : network) (u : R),
    (JsMap.get sm (bssid nw) = None ->
     fst (Radial.updateSmoothed sm nw)
     = mkSmooth (rssi nw) (Radial.rssiToDistance (rssi nw) (band nw)))
    /\ (forall key, key <> bssid nw ->
          JsMap.get (snd (Radial.updateSmoothed sm nw)) key = JsMap.get sm key
          /\ JsMap.get (snd (Trilat.updateSmoothed u sm nw)) key = JsMap.get sm key)
    /\ JsMap.get (snd (Radial.updateSmoothed sm nw)) (bssid nw)
       = Some (fst (Radial.updateSmoothed sm nw))
    /\ JsMap.get (snd (Trilat.updateSmoothed u sm nw)) (bssid nw)
       = Some (fst (Trilat.updateSmoothed u sm nw))
    /\ (NoDup (JsMap.keys sm) ->
        NoDup (JsMap.keys (snd (Radial.updateSmoothed sm nw)))
        /\ NoDup (JsMap.keys (snd (Trilat.updateSmoothed u sm nw)))).
Proof.
  intros sm nw u; split; [|split; [|split; [|split]]].
  - intros Hnone; unfold Radial.updateSmoothed; rewrite Hnone; simpl.
    assert (E : lerp (rssi nw) (rssi nw) alpha = rssi nw) by (unfold lerp; ring).
    rewrite E; f_equal; unfold lerp; ring.
  - intros key Hne; unfold Radial.updateSmoothed, Trilat.updateSmoothed; simpl.
    split; apply JsMapFacts.get_set_other; exact Hne.
  - apply Radial_updateSmoothed_stored.
  - apply Trilat_updateSmoothed_stored.
  - intros Hnd; unfold Radial.updateSmoothed, Trilat.updateSmoothed; simpl.
    split; apply set_NoDup; exact Hnd.
Qed.

Lemma updateSmoothed_footprint_witness :
  fst (Radial.updateSmoothed JsMap.empty (mkNetwork "aa:01" "5 GHz" (- 48)))
  = mkSmooth (- 48) (Radial.rssiToDistance (- 48) "5 GHz").
Proof.
  apply (proj1 (updateSmoothed_footprint JsMap.empty
                  (mkNetwork "aa:01" "5 GHz" (- 48)) 0)).
  reflexivity.
Defined.

(** ** Distance model: saturation and strictness *)

Lemma pathLoss_strict (n P0 r1 r2 : R) :
  0 < n -> r1 < r2 -> pathLoss n P0 r2 < pathLoss n P0 r1.
Proof.
  intros Hn Hr; unfold pathLoss.
  apply Rpower_lt; [lra|].
  unfold Rdiv; apply Rmult_lt_compat_r; [apply Rinv_0_lt_compat; lra | lra].
Qed.

Lemma pathLoss_hundred (n P0 : R) : 0 < n -> pathLoss n P0 (P0 - 20 * n) = 100.
Proof.
  intros Hn; unfold pathLoss.
  replace ((P0 - (P0 - 20 * n)) / (10 * n)) with (INR 2) by (simpl; field; lra).
  rewrite Rpower_pow by lra; simpl; lra.
Qed.

Lemma pathLoss_saturates (n P0 r : R) :
  0 < n -> (100 <= pathLoss n P0 r <-> r <= P0 - 20 * n).
Proof.
  intros Hn; rewrite <- (pathLoss_hundred n P0 Hn); split.
  - intros H; destruct (Rle_or_lt r (P0 - 20 * n)) as [|Hlt]; [assumption|].
    pose proof (pathLoss_strict n P0 _ _ Hn Hlt); lra.
  - intros H; now apply pathLoss_antitone.
Qed.

Lemma clamp_hundred (d : R) : clamp d (5 / 10) 100 = 100 <-> 100 <= d.
Proof.
  unfold clamp, Rmax, Rmin.
  destruct (Rle_dec 100 d); destruct (Rle_dec (5 / 10) _); split; intros; lra.
Qed.

Lemma clamp_strict (d1 d2 : R) :
  d2 < d1 -> clamp d1 (5 / 10) 100 < 100 -> 5 / 10 < clamp d2 (5 / 10) 100 ->
  clamp d2 (5 / 10) 100 < clamp d1 (5 / 10) 100.
Proof.
  unfold clamp, Rmax, Rmin.
  destruct (Rle_dec 100 d1), (Rle_dec 100 d2);
    repeat (destruct (Rle_dec (5 / 10) _)); intros; lra.
Qed.

(** X4. Where the distance estimate saturates and where it is strict.
    A reading maps to exactly 100 m precisely when it is at or below
    [P0 - 20 n]: -82 dBm (2.4 GHz) and -93 dBm (5 GHz) in the
    trilateration variants, -86 dBm and -101 dBm in the radial ones.
    Away from the two clamp values the estimate is strictly decreasing in
    the signal. *)
Theorem rssiToDistance_saturation :
  forall (b : string) (r : R),
    (Trilat.rssiToDistance r b = 100
     <-> r <= (if is5GHz b then - 93 else - 82))
    /\ (Radial.rssiToDistance r b = 100
        <-> r <= (if is5GHz b then - 101 else - 86))
    /\ (forall r', r < r' ->
          (Trilat.rssiToDistance r b < 100 -> 5 / 10 < Trilat.rssiToDistance r' b ->
           Trilat.rssiToDistance r' b < Trilat.rssiToDistance r b)
          /\ (Radial.rssiToDistance r b < 100 -> 5 / 10 < Radial.rssiToDistance r' b ->
              Radial.rssiToDistance r' b < Radial.rssiToDistance r b)).
Proof.
  intros b r.
  rewrite Trilat_rssiToDistance_pathLoss, Radial_rssiToDistance_pathLoss.
  rewrite !clamp_hundred.
  split; [|split].
  - destruct (is5GHz b); rewrite pathLoss_saturates by lra; split; intros; lra.
  - destruct (is5GHz b); rewrite pathLoss_saturates by lra; split; intros; lra.
  - intros r' Hlt.
    rewrite Trilat_rssiToDistance_pathLoss, Radial_rssiToDistance_pathLoss.
    split; apply clamp_strict; apply pathLoss_strict; try exact Hlt;
      destruct (is5GHz b); lra.
Qed.

Lemma rssiToDistance_saturation_witness :
  Trilat.rssiToDistance (- 50) "2.4 GHz" < Trilat.rssiToDistance (- 61) "2.4 GHz".
Proof.
  destruct rssiToDistance_samples as [H40 H61].
  apply (proj1 (proj2 (proj2 (rssiToDistance_saturation "2.4 GHz" (- 61))) (- 50)
                      ltac:(lra))).
  - rewrite H61; lra.
  - apply Rlt_le_trans with (Trilat.rssiToDistance (- 40) "2.4 GHz").
    + rewrite H40; lra.
    + rewrite !Trilat_rssiToDistance_pathLoss; apply clamped_pathLoss_antitone;
        simpl; lra.
Defined.

(** ** Multilateration: least squares, observations at one place *)












(** Observations that were all taken at the place of the first one give
    rows [A_i = [0, 0]], hence a vanishing determinant. *)
Lemma Rsum_zeros {A : Type} (l : list A) : Rsum (map (fun _ => 0) l) = 0.
Proof. induction l as [|a l IH]; simpl; [reflexivity | rewrite IH; ring]. Qed.

Lemma same_place_specDet (s1 : Trilat.snapshot) (others : list Trilat.snapshot) :
  (forall s, In s others ->
             Trilat.lat s = Trilat.lat s1 /\ Trilat.lon s = Trilat.lon s1) ->
  specRows (s1 :: others) = map (fun _ => (0, 0)) others
  /\ specDet (s1 :: others) = 0.
Proof.
  intros Hsame.
  assert (E : specRows (s1 :: others) = map (fun _ => (0, 0)) others).
  { unfold specRows; apply map_ext_in; intros s Hs.
    destruct (Hsame s Hs) as [Hlat Hlon].
    unfold Trilat.toXY; cbn [Trilat.px Trilat.py]; rewrite Hlat, Hlon.
    f_equal; ring. }
  split; [exact E|].
  unfold specDet; rewrite E, !map_map; cbn [fst snd].
  replace (0 * 0) with 0 by ring.
  rewrite !Rsum_zeros; ring.
Qed.

(** X7. Observations taken at one place give no position: when every
    observation has the latitude and longitude of the first one, every
    row of [A] is [[0, 0]], the determinant of [AtA] is zero and
    [trilaterate] returns [null], whatever the distances and however many
    observations there are. *)
Theorem trilaterate_same_place_null :
  forall (key : string) (s1 : Trilat.snapshot) (others : list Trilat.snapshot),
    (forall s, In s others ->
               Trilat.lat s = Trilat.lat s1 /\ Trilat.lon s = Trilat.lon s1) ->
    specRows (s1 :: others) = map (fun _ => (0, 0)) others
    /\ Trilat.detOf (Trilat.systemOf (s1 :: others)) = 0
    /\ Trilat.trilaterate key (s1 :: others) = None.
Proof.
  intros key s1 others Hsame.
  destruct (same_place_specDet s1 others Hsame) as [Hrows E].
  split; [exact Hrows|]; split.
  - now rewrite detOf_systemOf_specDet.
  - apply trilaterate_guard; rewrite E, Rabs_R0; lra.
Qed.

Lemma trilaterate_same_place_null_witness :
  Trilat.trilaterate "ap"
    [Trilat.mkSnapshot 1 2 30; Trilat.mkSnapshot 1 2 10; Trilat.mkSnapshot 1 2 25;
     Trilat.mkSnapshot 1 2 7] = None.
Proof.
  apply (proj2 (proj2 (trilaterate_same_place_null "ap" (Trilat.mkSnapshot 1 2 30)
                  [Trilat.mkSnapshot 1 2 10; Trilat.mkSnapshot 1 2 25;
                   Trilat.mkSnapshot 1 2 7]
                  ltac:(intros s [<-|[<-|[<-|[]]]]; split; reflexivity)))).
Defined.

(** ** [computeTrilateration]: grouping and storing *)

Lemma getList_pushSnapshot (g : Trilat.gpsfix) (m : JsMap.t (list Trilat.snapshot))
      (n : network) (k : string) :
  getList (Trilat.pushSnapshot g m n) k
  = if String.eqb (bssid n) k
    then getList m k ++ [Trilat.snapshotOf g n]
    else getList m k.
Proof.
  unfold getList, Trilat.pushSnapshot.
  destruct (String.eqb (bssid n) k) eqn:E.
  - apply String.eqb_eq in E; subst k; now rewrite JsMapFacts.get_set_same.
  - apply String.eqb_neq in E; rewrite JsMapFacts.get_set_other by congruence.
    reflexivity.
Qed.

Lemma getList_fold_push (g : Trilat.gpsfix) (ns : list network)
      (m : JsMap.t (list Trilat.snapshot)) (k : string) :
  getList (fold_left (Trilat.pushSnapshot g) ns m) k
  = getList m k
    ++ map (Trilat.snapshotOf g) (filter (fun n => String.eqb (bssid n) k) ns).
Proof.
  revert m; induction ns as [|n ns IH]; intros m; simpl.
  - now rewrite app_nil_r.
  - rewrite IH, getList_pushSnapshot.
    destruct (String.eqb (bssid n) k); simpl; [now rewrite <- app_assoc | reflexivity].
Qed.

Lemma getList_fold_groupScan (gws : list (Trilat.gpsfix * Trilat.scan))
      (m : JsMap.t (list Trilat.snapshot)) (k : string) :
  getList (fold_left Trilat.groupScan gws m) k = getList m k ++ snapshotsFor k gws.
Proof.
  revert m; induction gws as [|[g w] gws IH]; intros m; simpl.
  - now rewrite app_nil_r.
  - rewrite IH; unfold Trilat.groupScan; simpl.
    destruct (Trilat.networks w) as [ns|]; simpl.
    + now rewrite getList_fold_push, <- app_assoc.
    + reflexivity.
Qed.

Lemma fold_push_NoDup (g : Trilat.gpsfix) (ns : list network)
      (m : JsMap.t (list Trilat.snapshot)) :
  NoDup (JsMap.keys m) -> NoDup (JsMap.keys (fold_left (Trilat.pushSnapshot g) ns m)).
Proof.
  revert m; induction ns as [|n ns IH]; intros m H; simpl; auto.
  apply IH; unfold Trilat.pushSnapshot; now apply set_NoDup.
Qed.

Lemma fold_groupScan_NoDup (gws : list (Trilat.gpsfix * Trilat.scan))
      (m : JsMap.t (list Trilat.snapshot)) :
  NoDup (JsMap.keys m) -> NoDup (JsMap.keys (fold_left Trilat.groupScan gws m)).
Proof.
  revert m; induction gws as [|[g w] gws IH]; intros m H; simpl; auto.
  apply IH; unfold Trilat.groupScan; simpl.
  destruct (Trilat.networks w); [now apply fold_push_NoDup | exact H].
Qed.

Lemma trilaterate_short (key : string) (snapshots : list Trilat.snapshot) :
  (List.length snapshots < 3)%nat -> Trilat.trilaterate key snapshots = None.
Proof.
  intros H; unfold Trilat.trilaterate.
  now rewrite (proj2 (Nat.ltb_lt _ _) H).
Qed.

(** The table after the [forEach] over groups with distinct keys. *)
Lemma fold_storePosition (entries : JsMap.t (list Trilat.snapshot))
      (positions : JsMap.t Trilat.point) (k : string) :
  NoDup (JsMap.keys entries) ->
  JsMap.get (fold_left Trilat.storePosition entries positions) k
  = match Trilat.trilaterate k (getList entries k) with
    | Some pos => Some pos
    | None => JsMap.get positions k
    end.
Proof.
  revert positions; induction entries as [|[k' snaps] entries IH];
    intros positions Hnd.
  - reflexivity.
  - inversion Hnd as [|? ? Hnotin Hnd']; subst.
    cbn [fold_left]; rewrite (IH _ Hnd').
    unfold getList; cbn [JsMap.get].
    destruct (String.eqb k' k) eqn:E.
    + apply String.eqb_eq in E; subst k'.
      apply JsMapFacts.get_None_not_In in Hnotin; rewrite Hnotin.
      rewrite (trilaterate_short k []) by (simpl; lia).
      unfold Trilat.storePosition; simpl.
      destruct (Trilat.trilaterate k snaps); [apply JsMapFacts.get_set_same | reflexivity].
    + apply String.eqb_neq in E.
      destruct (Trilat.trilaterate k _); [reflexivity|].
      unfold Trilat.storePosition; simpl.
      destruct (Trilat.trilaterate k' snaps); [|reflexivity].
      apply JsMapFacts.get_set_other; congruence.
Qed.

Lemma computeTrilateration_complete
      (g1 g2 g3 : Trilat.gpsfix) (w1 w2 w3 : Trilat.scan)
      (positions : JsMap.t Trilat.point) (k : string) :
  JsMap.get (Trilat.computeTrilateration
               (Some (Trilat.mkData (Some g1) (Some g2) (Some g3)
                                    (Some w1) (Some w2) (Some w3))) positions) k
  = match Trilat.trilaterate k (snapshotsFor k (pairsOf g1 g2 g3 w1 w2 w3)) with
    | Some pos => Some pos
    | None => JsMap.get positions k
    end.
Proof.
  unfold Trilat.computeTrilateration, Trilat.groupAll; cbn [Trilat.present flat_map
    Trilat.gps_original Trilat.gps_copy1 Trilat.gps_copy2 Trilat.wifi_original
    Trilat.wifi_copy1 Trilat.wifi_copy2 app List.length Nat.ltb Nat.leb orb firstn combine].
  rewrite fold_storePosition by (apply fold_groupScan_NoDup; constructor).
  now rewrite getList_fold_groupScan.
Qed.

(** X8. What [computeTrilateration] stores.  With the three fixes and
    the three scans all present, the position of every emitter afterwards
    is the solver's answer on the emitter's snapshots (one per listing of
    the emitter in the scans, in scan order), and the position it had
    before when the solver gives none; in particular an emitter listed
    fewer than three times keeps what it had.  With a failed fetch or any
    of the six parts missing nothing changes.  A stored position is never
    removed. *)
Theorem computeTrilateration_stores :
  forall (positions : JsMap.t Trilat.point) (k : string),
    (forall g1 g2 g3 w1 w2 w3,
       let data := Some (Trilat.mkData (Some g1) (Some g2) (Some g3)
                                       (Some w1) (Some w2) (Some w3)) in
       let snaps := snapshotsFor k (pairsOf g1 g2 g3 w1 w2 w3) in
       JsMap.get (Trilat.computeTrilateration data positions) k
       = match Trilat.trilaterate k snaps with
         | Some pos => Some pos
         | None => JsMap.get positions k
         end
       /\ ((List.length snaps < 3)%nat ->
           JsMap.get (Trilat.computeTrilateration data positions) k
           = JsMap.get positions k))
    /\ (forall d,
          Trilat.gps_original d = None \/ Trilat.gps_copy1 d = None
          \/ Trilat.gps_copy2 d = None \/ Trilat.wifi_original d = None
          \/ Trilat.wifi_copy1 d = None \/ Trilat.wifi_copy2 d = None ->
          Trilat.computeTrilateration (Some d) positions = positions)
    /\ Trilat.computeTrilateration None positions = positions
    /\ (forall data p, JsMap.get positions k = Some p ->
          exists p', JsMap.get (Trilat.computeTrilateration data positions) k = Some p').
Proof.
  intros positions k.
  assert (Hmiss : forall d,
             Trilat.gps_original d = None \/ Trilat.gps_copy1 d = None
             \/ Trilat.gps_copy2 d = None \/ Trilat.wifi_original d = None
             \/ Trilat.wifi_copy1 d = None \/ Trilat.wifi_copy2 d = None ->
             Trilat.computeTrilateration (Some d) positions = positions).
  { intros [o1 o2 o3 o4 o5 o6]; simpl.
    intros H; unfold Trilat.computeTrilateration; simpl.
    destruct o1, o2, o3, o4, o5, o6; simpl; try reflexivity;
      exfalso; intuition discriminate. }
  split; [|split; [exact Hmiss | split; [reflexivity|]]].
  - intros g1 g2 g3 w1 w2 w3 data snaps; subst data snaps.
    rewrite computeTrilateration_complete; split; [reflexivity|].
    intros Hshort; now rewrite trilaterate_short.
  - intros [[o1 o2 o3 o4 o5 o6]|] p Hp; [|exists p; exact Hp].
    destruct o1 as [g1|]; [|rewrite Hmiss by (simpl; tauto); eauto].
    destruct o2 as [g2|]; [|rewrite Hmiss by (simpl; tauto); eauto].
    destruct o3 as [g3|]; [|rewrite Hmiss by (simpl; tauto); eauto].
    destruct o4 as [w1|]; [|rewrite Hmiss by (simpl; tauto); eauto].
    destruct o5 as [w2|]; [|rewrite Hmiss by (simpl; tauto); eauto].
    destruct o6 as [w3|]; [|rewrite Hmiss by (simpl; tauto); eauto].
    rewrite computeTrilateration_complete.
    destruct (Trilat.trilaterate k _) as [pos|]; eauto.
Qed.

Lemma computeTrilateration_stores_witness :
  let w := Trilat.mkScan (Some [mkNetwork "aa:01" "5 GHz" (- 50)]) in
  let none := Trilat.mkScan (Some []) in
  let g := Trilat.mkGps 10 20 in
  JsMap.get (Trilat.computeTrilateration
               (Some (Trilat.mkData (Some g) (Some g) (Some g)
                                    (Some w) (Some w) (Some none))) JsMap.empty)
            "aa:01"
  = JsMap.get JsMap.empty "aa:01".
Proof.
  intros w none g.
  apply (proj2 (proj1 (computeTrilateration_stores JsMap.empty "aa:01")
                      g g g w w none)).
  simpl; lia.
Defined.

Lemma fold_storePosition_none (entries : JsMap.t (list Trilat.snapshot))
      (positions : JsMap.t Trilat.point) :
  (forall k snaps, In (k, snaps) entries -> Trilat.trilaterate k snaps = None) ->
  fold_left Trilat.storePosition entries positions = positions.
Proof.
  induction entries as [|[k snaps] entries IH]; intros H; simpl; auto.
  unfold Trilat.storePosition at 2; simpl.
  rewrite (H k snaps) by now left.
  apply IH; intros; apply H; now right.
Qed.

Lemma snapshotsFor_fix (k : string) (gws : list (Trilat.gpsfix * Trilat.scan))
      (s : Trilat.snapshot) :
  In s (snapshotsFor k gws) ->
  exists gw, In gw gws /\ Trilat.lat s = Trilat.g_lat (fst gw)
             /\ Trilat.lon s = Trilat.g_lon (fst gw).
Proof.
  unfold snapshotsFor; intros H; apply in_flat_map in H.
  destruct H as (gw & Hgw & Hs); exists gw; split; [exact Hgw|].
  destruct (Trilat.networks (snd gw)) as [ns|]; [|contradiction].
  apply in_map_iff in Hs; destruct Hs as (n & <- & _); split; reflexivity.
Qed.

(** X9. Repeated fixes give no positions at all: when the second and the
    third GPS fix have the latitude and longitude of the first (the copies
    repeat the original fix), [computeTrilateration] leaves the position
    table as it was, whatever the scans contain. *)
Theorem computeTrilateration_repeated_fix :
  forall (positions : JsMap.t Trilat.point) (g1 g2 g3 : Trilat.gpsfix)
         (w1 w2 w3 : Trilat.scan),
    Trilat.g_lat g2 = Trilat.g_lat g1 -> Trilat.g_lon g2 = Trilat.g_lon g1 ->
    Trilat.g_lat g3 = Trilat.g_lat g1 -> Trilat.g_lon g3 = Trilat.g_lon g1 ->
    Trilat.computeTrilateration
      (Some (Trilat.mkData (Some g1) (Some g2) (Some g3)
                           (Some w1) (Some w2) (Some w3))) positions
    = positions.
Proof.
  intros positions g1 g2 g3 w1 w2 w3 Hlat2 Hlon2 Hlat3 Hlon3.
  unfold Trilat.computeTrilateration, Trilat.groupAll; cbn [Trilat.present flat_map
    Trilat.gps_original Trilat.gps_copy1 Trilat.gps_copy2 Trilat.wifi_original
    Trilat.wifi_copy1 Trilat.wifi_copy2 app List.length Nat.ltb Nat.leb orb firstn combine].
  apply fold_storePosition_none; intros k snaps Hin.
  assert (Hnd : NoDup (JsMap.keys (fold_left Trilat.groupScan
                                     [(g1, w1); (g2, w2); (g3, w3)] JsMap.empty)))
    by (apply fold_groupScan_NoDup; constructor).
  apply (JsMapFacts.In_get_NoDup _ _ _ Hnd) in Hin.
  assert (E : snaps = snapshotsFor k (pairsOf g1 g2 g3 w1 w2 w3)).
  { pose proof (getList_fold_groupScan [(g1, w1); (g2, w2); (g3, w3)] JsMap.empty k) as G.
    unfold getList in G; rewrite Hin in G; exact G. }
  assert (Hfix : forall s, In s snaps ->
             Trilat.lat s = Trilat.g_lat g1 /\ Trilat.lon s = Trilat.g_lon g1).
  { intros s Hs; rewrite E in Hs.
    destruct (snapshotsFor_fix _ _ _ Hs) as (gw & Hgw & -> & ->).
    destruct Hgw as [<-|[<-|[<-|[]]]]; simpl; split; congruence. }
  destruct snaps as [|s1 others]; [apply trilaterate_short; simpl; lia|].
  apply trilaterate_guard.
  destruct (same_place_specDet s1 others) as [_ Hdet].
  - intros s Hs.
    destruct (Hfix s1 (or_introl eq_refl)) as [F1 F2].
    destruct (Hfix s (or_intror Hs)) as [F3 F4]; split; congruence.
  - rewrite Hdet, Rabs_R0; lra.
Qed.

Lemma computeTrilateration_repeated_fix_witness :
  let w := Trilat.mkScan (Some [mkNetwork "aa:01" "5 GHz" (- 50);
                                mkNetwork "aa:02" "2.4 GHz" (- 60)]) in
  let g := Trilat.mkGps 10 20 in
  Trilat.computeTrilateration
    (Some (Trilat.mkData (Some g) (Some g) (Some g) (Some w) (Some w) (Some w)))
    JsMap.empty
  = JsMap.empty.
Proof.
  intros w g.
  apply (computeTrilateration_repeated_fix JsMap.empty g g g w w w); reflexivity.
Defined.

(** ** Obstruction model: ranges, direction of travel, stored obstacles *)

Lemma factorOf_range (x1 y1 x2 y2 lo hi : R) (ob : Trilat.obstacle) :
  0 <= lo -> lo <= Trilat.attenuation ob <= hi ->
  1 - hi <= factorOf x1 y1 x2 y2 ob <= 1.
Proof.
  intros Hlo Ha; unfold factorOf.
  destruct (Trilat.lineIntersectsRect x1 y1 x2 y2 ob); lra.
Qed.

Lemma Rprod_bounds (c : R) (l : list R) :
  0 < c <= 1 -> (forall f, In f l -> c <= f <= 1) ->
  c ^ List.length l <= Rprod l <= 1.
Proof.
  intros Hc; induction l as [|f l IH]; intros Hl; simpl; [lra|].
  destruct (IH (fun g Hg => Hl g (or_intror Hg))) as [IH1 IH2].
  destruct (Hl f (or_introl eq_refl)) as [Hf1 Hf2].
  assert (Hpow : 0 < c ^ List.length l) by (apply pow_lt; lra).
  split; [apply Rmult_le_compat; lra | nra].
Qed.

(** X10. Range of the path attenuation.  When every obstacle absorbs a
    fraction in [0, hi] with 0 <= hi < 1, the factor returned by
    [obstacleAttenuationOnPath] lies between [(1 - hi)^n] for [n]
    obstacles and 1, so it is positive and never amplifies; and one more
    obstacle in the list never makes the factor larger. *)
Theorem obstacleAttenuation_range :
  forall (obstacles : list Trilat.obstacle) (hi x1 y1 x2 y2 : R),
    0 <= hi < 1 -> attenuations_in 0 hi obstacles ->
    (1 - hi) ^ List.length obstacles
    <= Trilat.obstacleAttenuationOnPath obstacles x1 y1 x2 y2 <= 1
    /\ 0 < Trilat.obstacleAttenuationOnPath obstacles x1 y1 x2 y2
    /\ (forall ob, 0 <= Trilat.attenuation ob <= hi ->
          Trilat.obstacleAttenuationOnPath (obstacles ++ [ob]) x1 y1 x2 y2
          <= Trilat.obstacleAttenuationOnPath obstacles x1 y1 x2 y2).
Proof.
  intros obstacles hi x1 y1 x2 y2 Hhi Hall.
  assert (Hb : (1 - hi) ^ List.length obstacles
               <= Trilat.obstacleAttenuationOnPath obstacles x1 y1 x2 y2 <= 1).
  { rewrite attenuation_factors.
    rewrite <- (length_map (factorOf x1 y1 x2 y2) obstacles).
    apply Rprod_bounds; [lra|].
    intros f Hf; apply in_map_iff in Hf; destruct Hf as (ob & <- & Hob).
    apply (factorOf_range _ _ _ _ 0 hi); [lra | now apply Hall]. }
  assert (Hpos : 0 < (1 - hi) ^ List.length obstacles) by (apply pow_lt; lra).
  split; [exact Hb|]; split; [lra|].
  intros ob Hob; rewrite !attenuation_factors, map_app; simpl.
  unfold Rprod; rewrite fold_right_app; simpl.
  pose proof (factorOf_range x1 y1 x2 y2 0 hi ob ltac:(lra) Hob) as Hf.
  fold (Rprod (map (factorOf x1 y1 x2 y2) obstacles)).
  rewrite attenuation_factors in Hb.
  assert (E : forall (l : list R) (a : R),
             fold_right Rmult (a * 1) l = Rprod l * a).
  { induction l as [|f l IH]; intros a; simpl; [ring | rewrite IH; ring]. }
  rewrite E.
  assert (0 < Rprod (map (factorOf x1 y1 x2 y2) obstacles)) by lra.
  nra.
Qed.

Lemma obstacleAttenuation_range_witness :
  (1 - 5 / 10) ^ 3
  <= Trilat.obstacleAttenuationOnPath [ex_wall; ex_door; ex_desk] 50 120 650 120 <= 1.
Proof.
  apply (proj1 (obstacleAttenuation_range [ex_wall; ex_door; ex_desk] (5 / 10)
                  50 120 650 120 ltac:(lra)
                  ltac:(intros ob [<-|[<-|[<-|[]]]]; simpl; lra))).
Defined.

Lemma ccw_orient (ax ay bx by_ cx cy : R) :
  Trilat.ccw ax ay bx by_ cx cy = Rltb 0 (orient ax ay bx by_ cx cy).
Proof. unfold Trilat.ccw, Rgtb, orient; apply Rltb_ext; lra. Qed.

Lemma ccw_swap (x1 y1 x2 y2 cx cy : R) :
  orient x1 y1 x2 y2 cx cy <> 0 ->
  Trilat.ccw x2 y2 x1 y1 cx cy = negb (Trilat.ccw x1 y1 x2 y2 cx cy).
Proof.
  intros Hne; rewrite !ccw_orient.
  assert (E : orient x2 y2 x1 y1 cx cy = - orient x1 y1 x2 y2 cx cy)
    by (unfold orient; ring).
  rewrite E.
  destruct (Rltb 0 (orient x1 y1 x2 y2 cx cy)) eqn:E1;
    destruct (Rltb 0 (- orient x1 y1 x2 y2 cx cy)) eqn:E2; simpl; auto;
    rewrite ?Rltb_true, ?Rltb_false in *; lra.
Qed.

(** The test does not depend on which of the two segments comes first. *)
Lemma segmentsIntersect_exchange (x1 y1 x2 y2 x3 y3 x4 y4 : R) :
  Trilat.segmentsIntersect x1 y1 x2 y2 x3 y3 x4 y4
  = Trilat.segmentsIntersect x3 y3 x4 y4 x1 y1 x2 y2.
Proof.
  unfold Trilat.segmentsIntersect; rewrite !ccw_orient.
  replace (orient x3 y3 x1 y1 x2 y2) with (orient x1 y1 x2 y2 x3 y3)
    by (unfold orient; ring).
  replace (orient x4 y4 x1 y1 x2 y2) with (orient x1 y1 x2 y2 x4 y4)
    by (unfold orient; ring).
  replace (orient x3 y3 x4 y4 x1 y1) with (orient x1 y1 x3 y3 x4 y4)
    by (unfold orient; ring).
  replace (orient x3 y3 x4 y4 x2 y2) with (orient x2 y2 x3 y3 x4 y4)
    by (unfold orient; ring).
  apply andb_comm.
Qed.

Lemma segmentsIntersect_reverse (x1 y1 x2 y2 x3 y3 x4 y4 : R) :
  orient x1 y1 x2 y2 x3 y3 <> 0 -> orient x1 y1 x2 y2 x4 y4 <> 0 ->
  Trilat.segmentsIntersect x2 y2 x1 y1 x3 y3 x4 y4
  = Trilat.segmentsIntersect x1 y1 x2 y2 x3 y3 x4 y4.
Proof.
  intros H3 H4; unfold Trilat.segmentsIntersect, Trilat.bneq.
  rewrite (ccw_swap x1 y1 x2 y2 x3 y3 H3), (ccw_swap x1 y1 x2 y2 x4 y4 H4).
  rewrite <- negb_xorb_l, <- negb_xorb_r, negb_involutive.
  f_equal; apply xorb_comm.
Qed.

(** X11. Direction of travel.  When no corner of the rectangle lies on
    the line through the two endpoints, the segment from the first to the
    second endpoint is counted as crossing the rectangle exactly when the
    reversed segment is.  With a corner on that line the answer can depend
    on the direction: along the top edge of the rectangle [0,10] x [0,10]
    the segment from (-5,0) to (15,0) is counted and the one from (15,0)
    to (-5,0) is not. *)
Theorem lineIntersectsRect_direction :
  (forall (x1 y1 x2 y2 : R) (r : Trilat.obstacle),
     clearOfCorners x1 y1 x2 y2 r ->
     Trilat.lineIntersectsRect x2 y2 x1 y1 r = Trilat.lineIntersectsRect x1 y1 x2 y2 r)
  /\ Trilat.lineIntersectsRect (- 5) 0 15 0 ex_box = true
  /\ Trilat.lineIntersectsRect 15 0 (- 5) 0 ex_box = false.
Proof.
  split; [|split; eval_rect; reflexivity].
  intros x1 y1 x2 y2 r Hclear.
  assert (H : forall cx cy, In (cx, cy) (corners r) -> orient x1 y1 x2 y2 cx cy <> 0).
  { intros cx cy Hin; exact (Hclear (cx, cy) Hin). }
  unfold Trilat.lineIntersectsRect, Trilat.edges; cbn [existsb]; cbv beta iota.
  set (c := Trilat.ox r + Trilat.ow r); set (d := Trilat.oy r + Trilat.oh r);
    set (a := Trilat.ox r); set (b := Trilat.oy r).
  assert (Ha : orient x1 y1 x2 y2 a b <> 0) by (apply H; simpl; tauto).
  assert (Hb : orient x1 y1 x2 y2 c b <> 0) by (apply H; simpl; tauto).
  assert (Hc : orient x1 y1 x2 y2 c d <> 0) by (apply H; simpl; tauto).
  assert (Hd : orient x1 y1 x2 y2 a d <> 0) by (apply H; simpl; tauto).
  rewrite (segmentsIntersect_reverse x1 y1 x2 y2 a b c b Ha Hb),
          (segmentsIntersect_reverse x1 y1 x2 y2 c b c d Hb Hc),
          (segmentsIntersect_reverse x1 y1 x2 y2 c d a d Hc Hd),
          (segmentsIntersect_reverse x1 y1 x2 y2 a d a b Hd Ha).
  reflexivity.
Qed.

Lemma lineIntersectsRect_direction_witness :
  Trilat.lineIntersectsRect 250 120 50 130 ex_wall
  = Trilat.lineIntersectsRect 50 130 250 120 ex_wall.
Proof.
  apply (proj1 lineIntersectsRect_direction 50 130 250 120 ex_wall).
  intros c [<-|[<-|[<-|[<-|[]]]]]; unfold orient; simpl; lra.
Defined.

(** ** Stored obstacles *)

Lemma defaultObstacle_ranges (W H : R) (u : nat -> R) (i : nat) :
  (forall n, 0 <= u n < 1) ->
  let ob := Trilat.defaultObstacle W H u i in
  80 <= Trilat.ow ob < 200 /\ 40 <= Trilat.oh ob < 160
  /\ 2 / 10 <= Trilat.attenuation ob < 6 / 10.
Proof.
  intros Hu ob; subst ob; unfold Trilat.defaultObstacle, rand;
    cbn [Trilat.ow Trilat.oh Trilat.attenuation].
  pose proof (Hu (5 * i)%nat); pose proof (Hu (5 * i + 1)%nat);
    pose proof (Hu (5 * i + 4)%nat).
  repeat split; lra.
Qed.

(** X12. Obstacles are generated once and then kept.  With an empty
    store and draws in [0, 1), [loadObstacles] builds six obstacles of
    width in [80, 200), height in [40, 160) and attenuation in [0.2, 0.6)
    and saves them; with a stored list it returns that list and draws
    nothing.  Hence every later load or reset, whatever the canvas size
    and the draws, gives back the obstacles of the first load: the reset
    button does not regenerate them. *)
Theorem loadObstacles_persistent :
  forall (W H : R) (u : nat -> R),
    (forall n, 0 <= u n < 1) ->
    let first := Trilat.loadObstacles None W H u in
    List.length (fst first) = 6%nat
    /\ snd first = Some (fst first)
    /\ (forall ob, In ob (fst first) ->
          80 <= Trilat.ow ob < 200 /\ 40 <= Trilat.oh ob < 160
          /\ 2 / 10 <= Trilat.attenuation ob < 6 / 10)
    /\ (forall W' H' u',
          Trilat.resetObstacles (snd first) W' H' u' = first
          /\ Trilat.loadObstacles (snd first) W' H' u' = first)
    /\ (forall l W' H' u', Trilat.loadObstacles (Some l) W' H' u' = (l, Some l)).
Proof.
  intros W H u Hu first; subst first; cbn [Trilat.loadObstacles fst snd].
  split; [reflexivity|]; split; [reflexivity|]; split; [|split].
  - intros ob Hin; apply in_map_iff in Hin; destruct Hin as (i & <- & _).
    now apply defaultObstacle_ranges.
  - intros W' H' u'; split; reflexivity.
  - reflexivity.
Qed.

Lemma loadObstacles_persistent_witness :
  let first := Trilat.loadObstacles None 800 600 (fun _ => 1 / 2) in
  Trilat.resetObstacles (snd first) 1024 768 (fun _ => 1 / 4) = first
  /\ Trilat.loadObstacles (snd first) 1024 768 (fun _ => 1 / 4) = first.
Proof.
  exact (proj1 (proj2 (proj2 (proj2
           (loadObstacles_persistent 800 600 (fun _ => 1 / 2)
              ltac:(intros n; lra))))) 1024 768 (fun _ => 1 / 4)).
Defined.

(** ** Rolling analysis: eviction, collection, ties *)

Lemma evictOld_split (ts : R) (arr : list sample) :
  exists dropped, arr = dropped ++ evictOld ts arr
                  /\ Forall (fun a => 30000 < ts - t_ms a) dropped.
Proof.
  induction arr as [|a arr (dropped & E & Hd)]; simpl.
  - exists []; split; [reflexivity | constructor].
  - unfold Rgtb; destruct (Rltb 30000 (ts - t_ms a)) eqn:Ea.
    + exists (a :: dropped); split; [simpl; now rewrite <- E|].
      constructor; [now apply Rltb_true in Ea | exact Hd].
    + exists []; split; [reflexivity | constructor].
Qed.

Lemma evictOld_head (ts : R) (arr rest : list sample) (a : sample) :
  evictOld ts arr = a :: rest -> ts - t_ms a <= 30000.
Proof.
  induction arr as [|b arr IH]; simpl; [discriminate|].
  unfold Rgtb; destruct (Rltb 30000 (ts - t_ms b)) eqn:Eb; [exact IH|].
  intros [= -> _]; now apply Rltb_false in Eb.
Qed.

Lemma timeSorted_app_inv (l1 l2 : list sample) :
  timeSorted (l1 ++ l2) -> timeSorted l2.
Proof.
  unfold timeSorted; induction l1 as [|a l1 IH]; simpl; auto.
  intros H; inversion H; auto.
Qed.

Lemma timeSorted_fresh (ts : R) (a : sample) (rest : list sample) :
  timeSorted (a :: rest) -> ts - t_ms a <= 30000 -> fresh ts (a :: rest).
Proof.
  unfold timeSorted, fresh; simpl; intros Hs Ha.
  inversion Hs as [|? ? _ Hall]; subst.
  constructor; [exact Ha|].
  rewrite Forall_map in Hall.
  eapply Forall_impl; [|exact Hall]; simpl; intros b Hb; lra.
Qed.

Lemma evictOld_sorted_fresh (ts : R) (arr : list sample) :
  timeSorted arr -> timeSorted (evictOld ts arr) /\ fresh ts (evictOld ts arr).
Proof.
  intros Hs.
  destruct (evictOld_split ts arr) as (dropped & E & _).
  assert (Hk : timeSorted (evictOld ts arr))
    by (rewrite E in Hs; now apply timeSorted_app_inv in Hs).
  split; [exact Hk|].
  destruct (evictOld ts arr) as [|a rest] eqn:Ee; [constructor|].
  apply timeSorted_fresh; [exact Hk | now apply (evictOld_head ts arr rest)].
Qed.

(** X13. Eviction drops a prefix.  [evictOld] (the [while ... shift()]
    loop) returns the window without some leading samples, all of them
    older than 30 000 ms, and the first sample it keeps is not older than
    that.  When the timestamps of the window never decrease, the result is
    again time-ordered and none of its samples is older than 30 000 ms. *)
Theorem evictOld_drops_old_prefix :
  forall (ts : R) (arr : list sample),
    (exists dropped, arr = dropped ++ evictOld ts arr
                     /\ Forall (fun a => 30000 < ts - t_ms a) dropped)
    /\ (forall a rest, evictOld ts arr = a :: rest -> ts - t_ms a <= 30000)
    /\ (timeSorted arr -> timeSorted (evictOld ts arr) /\ fresh ts (evictOld ts arr)).
Proof.
  intros ts arr; split; [apply evictOld_split|]; split.
  - intros a rest; apply evictOld_head.
  - apply evictOld_sorted_fresh.
Qed.

Lemma evictOld_drops_old_prefix_witness :
  let arr := [mkSample 1000 (- 50) 3 (ex_net "aa"); mkSample 20000 (- 51) 3 (ex_net "aa");
              mkSample 40000 (- 52) 3 (ex_net "aa")] in
  timeSorted (evictOld 45000 arr) /\ fresh 45000 (evictOld 45000 arr).
Proof.
  intros arr.
  apply (proj2 (proj2 (evictOld_drops_old_prefix 45000 arr))).
  unfold timeSorted, arr; simpl.
  repeat constructor; simpl; lra.
Defined.

Section CollectFacts.
Variable f : R -> string -> R.
Variable ts : R.
Variable sm : JsMap.t smooth.

(** The sample [collectOne] pushes for the network [n]. *)
Let pushed (n : network) : sample :=
  match JsMap.get sm (bssid n) with
  | Some s => mkSample ts (s_rssi s) (s_dist s) n
  | None => mkSample ts (rssi n) (f (rssi n) (band n)) n
  end.

Lemma evictOld_keeps_last (arr : list sample) (a : sample) :
  t_ms a = ts -> exists kept, evictOld ts (arr ++ [a]) = kept ++ [a].
Proof.
  intros Ha; induction arr as [|b arr (kept & IH)]; simpl.
  - unfold Rgtb; rewrite (proj2 (Rltb_false _ _)) by (rewrite Ha; lra).
    now exists [].
  - unfold Rgtb; destruct (Rltb 30000 (ts - t_ms b)).
    + now exists kept.
    + now exists (b :: arr).
Qed.

Lemma collectOne_other (w : JsMap.t (list sample)) (n : network) (k : string) :
  k <> bssid n -> JsMap.get (collectOne f ts sm w n) k = JsMap.get w k.
Proof. intros Hk; unfold collectOne; now apply JsMapFacts.get_set_other. Qed.

Lemma collectOne_same (w : JsMap.t (list sample)) (n : network) :
  JsMap.get (collectOne f ts sm w n) (bssid n)
  = Some (evictOld ts (getList w (bssid n) ++ [pushed n])).
Proof.
  unfold collectOne, getList, pushed; rewrite JsMapFacts.get_set_same.
  destruct (JsMap.get sm (bssid n)); reflexivity.
Qed.

Lemma pushed_time (n : network) : t_ms (pushed n) = ts.
Proof. unfold pushed; destruct (JsMap.get sm (bssid n)); reflexivity. Qed.

Lemma timeSorted_snoc (arr : list sample) (a : sample) :
  timeSorted arr -> Forall (fun b => t_ms b <= t_ms a) arr -> timeSorted (arr ++ [a]).
Proof.
  unfold timeSorted; induction arr as [|b arr IH]; simpl; intros Hs Hall.
  - repeat constructor.
  - inversion Hs as [|? ? Hs' Hb]; inversion Hall as [|? ? Hba Hall']; subst.
    constructor; [now apply IH|].
    rewrite map_app, Forall_app; split; [exact Hb|].
    constructor; [exact Hba | constructor].
Qed.

Lemma collectOne_ordered (w : JsMap.t (list sample)) (n : network) :
  windows_ordered ts w -> windows_ordered ts (collectOne f ts sm w n).
Proof.
  intros Hw k arr Hget.
  destruct (string_dec k (bssid n)) as [->|Hne].
  - rewrite collectOne_same in Hget; injection Hget as <-.
    assert (Hold : timeSorted (getList w (bssid n))
                   /\ Forall (fun a => t_ms a <= ts) (getList w (bssid n))).
    { unfold getList; destruct (JsMap.get w (bssid n)) eqn:E; [exact (Hw _ _ E)|].
      split; constructor. }
    destruct Hold as [Hs Hle].
    assert (Hs' : timeSorted (getList w (bssid n) ++ [pushed n])).
    { apply timeSorted_snoc; [exact Hs | now rewrite pushed_time]. }
    split; [apply evictOld_sorted_fresh, Hs'|].
    destruct (evictOld_split ts (getList w (bssid n) ++ [pushed n])) as (dropped & E & _).
    assert (Hall : Forall (fun a => t_ms a <= ts) (getList w (bssid n) ++ [pushed n])).
    { rewrite Forall_app; split; [exact Hle|].
      repeat constructor; rewrite pushed_time; lra. }
    rewrite E, Forall_app in Hall; tauto.
  - rewrite collectOne_other in Hget by exact Hne; exact (Hw _ _ Hget).
Qed.

Lemma collectOne_fresh (w : JsMap.t (list sample)) (n : network) :
  windows_ordered ts w ->
  exists kept, JsMap.get (collectOne f ts sm w n) (bssid n) = Some (kept ++ [pushed n])
               /\ fresh ts (kept ++ [pushed n]).
Proof.
  intros Hw; rewrite collectOne_same.
  destruct (evictOld_keeps_last (getList w (bssid n)) (pushed n) (pushed_time n))
    as (kept & E).
  exists kept; split; [now rewrite E|].
  rewrite <- E; apply evictOld_sorted_fresh, timeSorted_snoc.
  - unfold getList; destruct (JsMap.get w (bssid n)) eqn:G; [apply (Hw _ _ G) | constructor].
  - rewrite pushed_time.
    unfold getList; destruct (JsMap.get w (bssid n)) eqn:G; [apply (Hw _ _ G) | constructor].
Qed.

(** State of a live key once its network has been handled by the loop. *)
Let handled (w : JsMap.t (list sample)) (k : string) : Prop :=
  exists kept last, JsMap.get w k = Some (kept ++ [last])
                    /\ t_ms last = ts /\ fresh ts (kept ++ [last]).

Lemma collectOne_handled (w : JsMap.t (list sample)) (n : network) (k : string) :
  windows_ordered ts w -> handled w k \/ k = bssid n ->
  handled (collectOne f ts sm w n) k.
Proof.
  intros Hw Hk.
  destruct (string_dec k (bssid n)) as [->|Hne].
  - destruct (collectOne_fresh w n Hw) as (kept & G & Hf).
    exists kept, (pushed n); split; [exact G | split; [apply pushed_time | exact Hf]].
  - destruct Hk as [(kept & last & G & Ht & Hf)|]; [|contradiction].
    exists kept, last; rewrite collectOne_other by exact Hne; tauto.
Qed.

Lemma collect_facts (live : list network) (w : JsMap.t (list sample)) :
  windows_ordered ts w ->
  windows_ordered ts (collect f ts sm live w)
  /\ (forall k, handled w k \/ In k (map bssid live) ->
                handled (collect f ts sm live w) k)
  /\ (forall k, ~ In k (map bssid live) ->
                JsMap.get (collect f ts sm live w) k = JsMap.get w k).
Proof.
  unfold collect; revert w; induction live as [|n live IH]; intros w Hw; simpl.
  - split; [exact Hw|]; split; [tauto | reflexivity].
  - destruct (IH (collectOne f ts sm w n) (collectOne_ordered w n Hw)) as (I1 & I2 & I3).
    split; [exact I1|]; split.
    + intros k Hk; apply I2.
      destruct Hk as [Hk|[Hk|Hk]].
      * left; apply collectOne_handled; [exact Hw | now left].
      * left; apply collectOne_handled; [exact Hw | now right].
      * now right.
    + intros k Hk; rewrite I3 by tauto.
      apply collectOne_other; intros ->; tauto.
Qed.
End CollectFacts.

(** X14. What one collection tick leaves in the window table.  Let the
    windows be time-ordered with no sample later than the tick time [ts]
    (as they are when the clock never runs backwards).  After the tick
    they still are; the window of every live network ends with a sample
    taken at [ts] and holds no sample older than 30 000 ms; and the window
    of an emitter that is not live is left as it was, old samples
    included. *)
Theorem collect_tick :
  forall (f : R -> string -> R) (ts0 ts : R) (sm : JsMap.t smooth)
         (live : list network) (w : JsMap.t (list sample)),
    windows_ordered ts0 w -> ts0 <= ts ->
    let w' := collect f ts sm live w in
    windows_ordered ts w'
    /\ (forall n, In n live ->
          exists kept last, JsMap.get w' (bssid n) = Some (kept ++ [last])
                            /\ t_ms last = ts /\ fresh ts (kept ++ [last]))
    /\ (forall k, ~ In k (map bssid live) -> JsMap.get w' k = JsMap.get w k).
Proof.
  intros f ts0 ts sm live w Hw Hts w'; subst w'.
  assert (Hw' : windows_ordered ts w).
  { intros k arr G; destruct (Hw k arr G) as [Hs Hall]; split; [exact Hs|].
    eapply Forall_impl; [|exact Hall]; simpl; intros; lra. }
  destruct (collect_facts f ts sm live w Hw') as (I1 & I2 & I3).
  split; [exact I1|]; split; [|exact I3].
  intros n Hn; apply I2; right; now apply in_map.
Qed.

Lemma collect_tick_witness :
  let w := [("aa:01"%string, [mkSample 1000 (- 50) 3 (ex_net "aa:01")])] in
  windows_ordered 40000
    (collect Trilat.rssiToDistance 40000 JsMap.empty [ex_net "aa:01"; ex_net "aa:02"] w).
Proof.
  intros w.
  apply (proj1 (collect_tick Trilat.rssiToDistance 1000 40000 JsMap.empty
                  [ex_net "aa:01"; ex_net "aa:02"] w
                  ltac:(intros k arr; unfold w; cbn [JsMap.get];
                        destruct (String.eqb "aa:01" k); [|discriminate];
                        intros [= <-]; split; repeat constructor; simpl; lra)
                  ltac:(lra))).
Defined.

(** The entry the scoring builds from a qualifying window. *)
Lemma fold_scoreEntry_first (k : R) (w : JsMap.t (list sample)) (acc : option best_t) :
  (fold_left (scoreEntry k) w acc = acc
   /\ forall key arr, In (key, arr) w -> qualifies arr -> covered acc (scoreOf k arr))
  \/ (exists pre key arr post,
        w = pre ++ (key, arr) :: post
        /\ qualifies arr
        /\ fold_left (scoreEntry k) w acc
           = Some (mkBest key (avgOf a_rssi arr) (avgOf a_dist arr) (lastMeta arr)
                          (scoreOf k arr))
        /\ beaten acc (scoreOf k arr)
        /\ (forall key' arr', In (key', arr') pre -> qualifies arr' ->
                              scoreOf k arr' < scoreOf k arr)
        /\ (forall key' arr', In (key', arr') post -> qualifies arr' ->
                              scoreOf k arr' <= scoreOf k arr)).
Proof.
  revert acc; induction w as [|[key arr] w IH]; intros acc.
  - left; split; [reflexivity | intros ? ? []].
  - cbn [fold_left].
    destruct (Nat.le_gt_cases 5 (List.length arr)) as [Hq|Hq].
    + pose proof (scoreEntry_take k acc key arr Hq) as Ht; cbn zeta in Ht.
      fold (scoreOf k arr) in Ht.
      set (cand := mkBest key (avgOf a_rssi arr) (avgOf a_dist arr) (lastMeta arr)
                          (scoreOf k arr)) in *.
      assert (Hcase : (scoreEntry k acc (key, arr) = Some cand /\ beaten acc (scoreOf k arr))
                      \/ (scoreEntry k acc (key, arr) = acc /\ covered acc (scoreOf k arr))).
      { destruct acc as [a|]; simpl; [|left; split; [exact Ht | exact I]].
        destruct Ht as [[Hlt Ht]|[Hle Ht]]; [left | right]; split; auto. }
      destruct Hcase as [[Hc Hb]|[Hc Hcov]]; rewrite Hc.
      * destruct (IH (Some cand)) as [[Hres Hall]|(pre & key' & arr' & post & E & Hq' & Hres & Hbt & Hpre & Hpost)].
        -- right; exists [], key, arr, w; repeat split; auto.
           ++ intros ? ? [].
        -- right; exists ((key, arr) :: pre), key', arr', post.
           subst w; repeat split; auto.
           ++ unfold cand in Hbt; unfold beaten in *; cbn [b_score] in Hbt.
              destruct acc as [a|]; [lra | exact I].
           ++ intros k2 a2 [[= <- <-]|Hin] Hq2; [exact Hbt | eauto].
      * destruct (IH acc) as [[Hres Hall]|(pre & key' & arr' & post & E & Hq' & Hres & Hbt & Hpre & Hpost)].
        -- left; split; [exact Hres|].
           intros k2 a2 [[= <- <-]|Hin] Hq2; [exact Hcov | eauto].
        -- right; exists ((key, arr) :: pre), key', arr', post.
           subst w; repeat split; auto.
           intros k2 a2 [[= <- <-]|Hin] Hq2; [|eauto].
           destruct acc as [a|]; simpl in *; [lra | contradiction].
    + assert (Hnq : ~ qualifies arr) by (unfold qualifies; lia).
      rewrite (scoreEntry_skip k acc key arr Hnq).
      destruct (IH acc) as [[Hres Hall]|(pre & key' & arr' & post & E & Hq' & Hres & Hbt & Hpre & Hpost)].
      * left; split; [exact Hres|].
        intros k2 a2 [[= <- <-]|Hin] Hq2; [contradiction | eauto].
      * right; exists ((key, arr) :: pre), key', arr', post.
        subst w; repeat split; auto.
        intros k2 a2 [[= <- <-]|Hin] Hq2; [contradiction | eauto].
Qed.

(** X15. Ties go to the emitter that entered the window table first.
    The recommendation is built from an entry of the table with at least
    5 samples; every entry with at least 5 samples listed before it has a
    strictly smaller score and every such entry listed after it has a
    score that is not larger. *)
Theorem suggestBest_first_maximum :
  forall (k : R) (w : JsMap.t (list sample)) (b : best_t),
    suggestBest k w = Some b ->
    exists pre arr post,
      w = pre ++ (b_bssid b, arr) :: post
      /\ qualifies arr
      /\ b = mkBest (b_bssid b) (avgOf a_rssi arr) (avgOf a_dist arr) (lastMeta arr)
                    (scoreOf k arr)
      /\ (forall key' arr', In (key', arr') pre -> qualifies arr' ->
                            scoreOf k arr' < b_score b)
      /\ (forall key' arr', In (key', arr') post -> qualifies arr' ->
                            scoreOf k arr' <= b_score b).
Proof.
  intros k w b Hb; unfold suggestBest in Hb.
  destruct (fold_scoreEntry_first k w None)
    as [[Hres _]|(pre & key & arr & post & E & Hq & Hres & _ & Hpre & Hpost)].
  - rewrite Hres in Hb; discriminate.
  - rewrite Hres in Hb; injection Hb as <-; simpl.
    exists pre, arr, post; repeat split; auto.
Qed.

Lemma suggestBest_first_maximum_witness :
  exists pre arr post,
    ex_short = pre ++ (b_bssid ex_steady_best, arr) :: post
    /\ qualifies arr
    /\ ex_steady_best
       = mkBest (b_bssid ex_steady_best) (avgOf a_rssi arr) (avgOf a_dist arr)
                (lastMeta arr) (scoreOf 2 arr)
    /\ (forall key' arr', In (key', arr') pre -> qualifies arr' ->
                          scoreOf 2 arr' < b_score ex_steady_best)
    /\ (forall key' arr', In (key', arr') post -> qualifies arr' ->
                          scoreOf 2 arr' <= b_score ex_steady_best).
Proof.
  apply (suggestBest_first_maximum 2 ex_short ex_steady_best); reflexivity.
Defined.

(** ** Radial layout: radius of the ideal position *)

Lemma pow07_range (b : R) : 0 <= b <= 1 -> 0 <= Radial.pow07 b <= 1.
Proof.
  intros Hb; unfold Radial.pow07; destruct (Rle_dec b 0) as [|Hpos]; [lra|].
  split; [left; apply exp_pos|].
  apply Rle_trans with (Rpower 1 (7 / 10)); [apply Rle_Rpower_l; lra|].
  right; unfold Rpower; rewrite ln_1, Rmult_0_r; apply exp_0.
Qed.

Lemma pow07_mono (a b : R) : 0 <= a <= b -> Radial.pow07 a <= Radial.pow07 b.
Proof.
  intros Hab; unfold Radial.pow07.
  destruct (Rle_dec a 0), (Rle_dec b 0); try lra.
  - left; apply exp_pos.
  - apply Rle_Rpower_l; lra.
Qed.

Lemma pow07_ends : Radial.pow07 0 = 0 /\ Radial.pow07 1 = 1.
Proof.
  unfold Radial.pow07; split.
  - destruct (Rle_dec 0 0); [reflexivity | lra].
  - destruct (Rle_dec 1 0); [lra|].
    unfold Rpower; rewrite ln_1, Rmult_0_r; apply exp_0.
Qed.

Lemma rssiT_range (s : R) : 0 <= 1 - (clamp s (- 90) (- 30) + 90) / 60 <= 1.
Proof. pose proof (clamp_bounds s (- 90) (- 30) ltac:(lra)); lra. Qed.

(** The node a [forEach] step appends. *)
Lemma placeOne_node (devX devY maxR : R) (st : Radial.frame_state) (n : network) :
  let smooth := fst (Radial.updateSmoothed (Radial.smoothed st) n) in
  let angles := Radial.assignAngle (Radial.networkAngles st) (bssid n) in
  let angle := match JsMap.get angles (bssid n) with Some a => a | None => 0 end in
  let r := radiusFor maxR (s_rssi smooth) in
  Radial.displayNodes (Radial.placeOne devX devY maxR st n)
  = Radial.displayNodes st
    ++ [Radial.mkNode (bssid n) (devX + r * cos angle) (devY + r * sin angle)
                      (s_rssi smooth) (s_dist smooth) n].
Proof. reflexivity. Qed.

(** X16. Radius of the ideal position.  The node a frame creates for a
    network lies on the circle around the device position whose radius is
    [radiusFor] of the smoothed signal.  When the outer radius is at least
    the inner one (80), that radius lies between them, a stronger smoothed
    signal never gives a larger radius, a signal of -30 dBm or more gives
    exactly the inner radius and one of -90 dBm or less exactly the outer
    radius. *)
Theorem placeOne_radius :
  forall (devX devY maxR : R) (st : Radial.frame_state) (n : network),
    let s := s_rssi (fst (Radial.updateSmoothed (Radial.smoothed st) n)) in
    (exists node,
        Radial.displayNodes (Radial.placeOne devX devY maxR st n)
        = Radial.displayNodes st ++ [node]
        /\ Radial.n_id node = bssid n
        /\ (Radial.n_x node - devX) ^ 2 + (Radial.n_y node - devY) ^ 2
           = radiusFor maxR s ^ 2)
    /\ (80 <= maxR ->
        80 <= radiusFor maxR s <= maxR
        /\ (forall s1 s2, s1 <= s2 -> radiusFor maxR s2 <= radiusFor maxR s1))
    /\ (forall s', - 30 <= s' -> radiusFor maxR s' = 80)
    /\ (forall s', s' <= - 90 -> radiusFor maxR s' = maxR).
Proof.
  intros devX devY maxR st n s; split; [|split; [|split]].
  - eexists; split; [apply placeOne_node|]; split; [reflexivity|].
    cbn [Radial.n_x Radial.n_y]; fold s.
    set (a := match JsMap.get _ _ with Some a => a | None => 0 end).
    pose proof (sin2_cos2 a) as Hsc; unfold Rsqr in Hsc.
    transitivity (radiusFor maxR s ^ 2 * (sin a * sin a + cos a * cos a)); [ring|].
    rewrite Hsc; ring.
  - intros Hmax; unfold radiusFor, Radial.MIN_RADIUS; split.
    + pose proof (pow07_range _ (rssiT_range s)); nra.
    + intros s1 s2 Hs.
      assert (Hm : Radial.pow07 (1 - (clamp s2 (- 90) (- 30) + 90) / 60)
                   <= Radial.pow07 (1 - (clamp s1 (- 90) (- 30) + 90) / 60)).
      { apply pow07_mono; pose proof (rssiT_range s2).
        pose proof (clamp_mono s1 s2 (- 90) (- 30) Hs); lra. }
      nra.
  - intros s' Hs; unfold radiusFor, Radial.MIN_RADIUS.
    assert (E : clamp s' (- 90) (- 30) = - 30).
    { unfold clamp; rewrite Rmin_left by lra; apply Rmax_right; lra. }
    rewrite E; replace (1 - (- 30 + 90) / 60) with 0 by lra.
    rewrite (proj1 pow07_ends); ring.
  - intros s' Hs; unfold radiusFor, Radial.MIN_RADIUS.
    assert (E : clamp s' (- 90) (- 30) = - 90).
    { unfold clamp; rewrite Rmin_right by lra; apply Rmax_left; lra. }
    rewrite E; replace (1 - (- 90 + 90) / 60) with 1 by lra.
    rewrite (proj2 pow07_ends); ring.
Qed.

Lemma placeOne_radius_witness :
  80 <= radiusFor 300 (s_rssi (fst (Radial.updateSmoothed JsMap.empty (ex_net "aa:01"))))
  <= 300.
Proof.
  apply (proj1 (proj1 (proj2 (placeOne_radius 0 0 300 initState (ex_net "aa:01")))
                      ltac:(lra))).
Defined.

(** ** Radial layout: one adjustment, and what the relaxation keeps *)

Lemma repelPair_idle (nodes : list Radial.node) (i j : nat) (a b : Radial.node) :
  nth_error nodes i = Some a -> nth_error nodes j = Some b ->
  distSq a b = 0 \/ 110 * 110 <= distSq a b ->
  Radial.repelPair nodes i j = nodes.
Proof.
  intros Ha Hb Hd; unfold Radial.repelPair; rewrite Ha, Hb.
  fold (distSq a b); unfold Rgtb, Radial.minSeparation.
  destruct Hd as [Hd|Hd].
  - rewrite (proj2 (Rltb_false _ _)) by lra; reflexivity.
  - rewrite (proj2 (Rltb_false (distSq a b) _)) by lra.
    now rewrite andb_false_r.
Qed.

Lemma repelPair_active (nodes : list Radial.node) (i j : nat) (a b : Radial.node) :
  nth_error nodes i = Some a -> nth_error nodes j = Some b ->
  0 < distSq a b < 110 * 110 ->
  let d := sqrt (distSq a b) in
  let force := (110 - d) / d * (6 / 10) in
  let moveX := (Radial.n_x b - Radial.n_x a) * force * (5 / 10) in
  let moveY := (Radial.n_y b - Radial.n_y a) * force * (5 / 10) in
  Radial.repelPair nodes i j
  = Radial.setNth j (Radial.moveTo b (Radial.n_x b + moveX) (Radial.n_y b + moveY))
      (Radial.setNth i (Radial.moveTo a (Radial.n_x a - moveX) (Radial.n_y a - moveY))
         nodes).
Proof.
  intros Ha Hb Hd; unfold Radial.repelPair; rewrite Ha, Hb.
  fold (distSq a b); unfold Rgtb, Radial.minSeparation, Radial.repulsionStrength.
  rewrite (proj2 (Rltb_true 0 _)), (proj2 (Rltb_true (distSq a b) _)) by lra.
  reflexivity.
Qed.

(** X17. One adjustment of a pair.  For two distinct nodes at a distance
    [d] with [0 < d < 110], the step moves them to the distance
    [0.4 d + 66]: farther apart than before and still closer than 110.
    A pair that coincides, or is at least 110 apart, is left where it
    is. *)
Theorem repelPair_distance :
  forall (nodes : list Radial.node) (i j : nat) (a b : Radial.node),
    nth_error nodes i = Some a -> nth_error nodes j = Some b ->
    (distSq a b = 0 \/ 110 * 110 <= distSq a b ->
     Radial.repelPair nodes i j = nodes)
    /\ (i <> j -> 0 < distSq a b < 110 * 110 ->
        exists a' b',
          nth_error (Radial.repelPair nodes i j) i = Some a'
          /\ nth_error (Radial.repelPair nodes i j) j = Some b'
          /\ sqrt (distSq a' b') = 4 / 10 * sqrt (distSq a b) + 66
          /\ sqrt (distSq a b) < sqrt (distSq a' b') < 110).
Proof.
  intros nodes i j a b Ha Hb; split; [now apply repelPair_idle|].
  intros Hij Hd.
  pose proof (repelPair_active nodes i j a b Ha Hb Hd) as E; cbv zeta in E.
  set (d := sqrt (distSq a b)) in *.
  assert (Hdpos : 0 < d) by (apply sqrt_lt_R0; lra).
  assert (Hd110 : d < 110).
  { replace 110 with (sqrt (110 * 110)) by (apply sqrt_square; lra).
    apply sqrt_lt_1; lra. }
  set (force := (110 - d) / d * (6 / 10)) in *.
  assert (Hf : d * (1 + force) = 4 / 10 * d + 66) by (unfold force; field; lra).
  assert (Hfpos : 0 < 1 + force).
  { unfold force; assert (0 < (110 - d) / d) by (apply Rdiv_lt_0_compat; lra); lra. }
  eexists; eexists; split; [|split; [|split]].
  - rewrite E, nth_error_setNth_other by congruence.
    apply (nth_error_setNth_same _ _ a), Ha.
  - rewrite E; apply (nth_error_setNth_same _ _ b).
    now rewrite nth_error_setNth_other.
  - unfold distSq at 1; cbn [Radial.moveTo Radial.n_x Radial.n_y].
    transitivity (sqrt (distSq a b * ((1 + force) * (1 + force)))).
    + f_equal; unfold distSq; field.
    + rewrite sqrt_mult by nra.
      rewrite sqrt_square by lra; fold d; exact Hf.
  - assert (Hnew : sqrt (distSq
                (Radial.moveTo a
                   (Radial.n_x a - (Radial.n_x b - Radial.n_x a) * force * (5 / 10))
                   (Radial.n_y a - (Radial.n_y b - Radial.n_y a) * force * (5 / 10)))
                (Radial.moveTo b
                   (Radial.n_x b + (Radial.n_x b - Radial.n_x a) * force * (5 / 10))
                   (Radial.n_y b + (Radial.n_y b - Radial.n_y a) * force * (5 / 10))))
                     = 4 / 10 * d + 66).
    { unfold distSq at 1; cbn [Radial.moveTo Radial.n_x Radial.n_y].
      transitivity (sqrt (distSq a b * ((1 + force) * (1 + force)))).
      + f_equal; unfold distSq; field.
      + rewrite sqrt_mult by nra.
        rewrite sqrt_square by lra; fold d; exact Hf. }
    rewrite Hnew; lra.
Qed.

Lemma repelPair_distance_witness :
  let a := Radial.mkNode "aa:01" 0 0 (- 50) 3 (ex_net "aa:01") in
  let b := Radial.mkNode "aa:02" 30 40 (- 60) 9 (ex_net "aa:02") in
  exists a' b',
    nth_error (Radial.repelPair [a; b] 0 1) 0 = Some a'
    /\ nth_error (Radial.repelPair [a; b] 0 1) 1 = Some b'
    /\ sqrt (distSq a' b') = 4 / 10 * sqrt (distSq a b) + 66
    /\ sqrt (distSq a b) < sqrt (distSq a' b') < 110.
Proof.
  intros a b.
  apply (proj2 (repelPair_distance [a; b] 0 1 a b eq_refl eq_refl));
    [discriminate | unfold distSq, a, b; simpl; lra].
Defined.

Lemma setNth_identity (i : nat) (old : Radial.node) (x y : R) (l : list Radial.node) :
  nth_error l i = Some old ->
  map identityOf (Radial.setNth i (Radial.moveTo old x y) l) = map identityOf l.
Proof.
  revert i; induction l as [|a l IH]; intros [|i]; simpl; try discriminate.
  - intros [= ->]; reflexivity.
  - intros H; now rewrite IH.
Qed.

Lemma repelPair_identity (nodes : list Radial.node) (i j : nat) :
  map identityOf (Radial.repelPair nodes i j) = map identityOf nodes.
Proof.
  unfold Radial.repelPair.
  destruct (nth_error nodes i) as [a|] eqn:Ea; [|reflexivity].
  destruct (nth_error nodes j) as [b|] eqn:Eb; [|reflexivity].
  destruct (Rgtb _ 0 && _) eqn:Eg; [|reflexivity].
  assert (Hij : i <> j).
  { intros ->; rewrite Ea in Eb; injection Eb as ->.
    apply andb_true_iff in Eg; destruct Eg as [Hpos _].
    unfold Rgtb in Hpos; apply Rltb_true in Hpos; lra. }
  rewrite (setNth_identity j b), (setNth_identity i a); auto.
  now rewrite nth_error_setNth_other.
Qed.

Lemma fold_identity {A : Type} (step : list Radial.node -> A -> list Radial.node)
      (l : list A) (nodes : list Radial.node) :
  (forall ns a, map identityOf (step ns a) = map identityOf ns) ->
  map identityOf (fold_left step l nodes) = map identityOf nodes.
Proof.
  intros Hstep; revert nodes; induction l as [|a l IH]; intros nodes; simpl; auto.
  now rewrite IH, Hstep.
Qed.

Lemma relaxOnce_identity (nodes : list Radial.node) :
  map identityOf (Radial.relaxOnce nodes) = map identityOf nodes.
Proof.
  unfold Radial.relaxOnce; apply fold_identity; intros ns i.
  unfold Radial.repelFrom; apply fold_identity; intros ns' j.
  apply repelPair_identity.
Qed.

Lemma fold_fixed {A : Type} (step : list Radial.node -> A -> list Radial.node)
      (l : list A) (nodes : list Radial.node) :
  (forall a, step nodes a = nodes) -> fold_left step l nodes = nodes.
Proof.
  intros Hstep; induction l as [|a l IH]; simpl; auto.
  now rewrite Hstep.
Qed.

Lemma settled_repelPair (nodes : list Radial.node) (i j : nat) :
  settled nodes -> Radial.repelPair nodes i j = nodes.
Proof.
  intros Hs.
  destruct (nth_error nodes i) as [a|] eqn:Ea;
    [|unfold Radial.repelPair; now rewrite Ea].
  destruct (nth_error nodes j) as [b|] eqn:Eb;
    [|unfold Radial.repelPair; now rewrite Ea, Eb].
  apply (repelPair_idle nodes i j a b Ea Eb), (Hs i j a b Ea Eb).
Qed.

(** X18. What the relaxation keeps.  The five passes change coordinates
    only: the nodes come out in the same order with the same id, signal,
    distance and network record.  And a layout in which every two nodes
    either coincide or are at least 110 apart is returned unchanged; in
    particular nodes that share one position are never pulled apart. *)
Theorem relax_keeps_nodes :
  forall (nodes : list Radial.node),
    map identityOf (Radial.relax nodes) = map identityOf nodes
    /\ (settled nodes -> Radial.relax nodes = nodes).
Proof.
  intros nodes; split.
  - unfold Radial.relax, Radial.iterations.
    cbn [Nat.iter nat_rect]; now rewrite !relaxOnce_identity.
  - intros Hs.
    assert (H1 : Radial.relaxOnce nodes = nodes).
    { unfold Radial.relaxOnce; apply fold_fixed; intros i.
      unfold Radial.repelFrom; apply fold_fixed; intros j.
      now apply settled_repelPair. }
    unfold Radial.relax, Radial.iterations; cbn [Nat.iter nat_rect].
    now rewrite !H1.
Qed.

Lemma relax_keeps_nodes_witness :
  let a := Radial.mkNode "aa:01" 0 0 (- 50) 3 (ex_net "aa:01") in
  let b := Radial.mkNode "aa:02" 0 0 (- 60) 9 (ex_net "aa:02") in
  let c := Radial.mkNode "aa:03" 200 0 (- 70) 20 (ex_net "aa:03") in
  Radial.relax [a; b; c] = [a; b; c].
Proof.
  intros a b c.
  apply (proj2 (relax_keeps_nodes [a; b; c])).
  intros i j x y Hx Hy.
  destruct i as [|[|[|i]]]; simpl in Hx; try (destruct i; discriminate);
    destruct j as [|[|[|j]]]; simpl in Hy; try (destruct j; discriminate);
    injection Hx as <-; injection Hy as <-; unfold distSq; simpl; lra.
Defined.

(** ** Interactive radial variant: zooming and dragging *)

Lemma viewStep_zoom (v : Radial.view) (e : viewEvent) :
  2 / 10 <= Radial.zoom v <= 10 -> 2 / 10 <= Radial.zoom (viewStep v e) <= 10.
Proof.
  intros Hz; destruct e; simpl; try lra.
  - destruct (Rltb deltaY 0); unfold Rmin, Rmax;
      destruct (Rle_dec _ _); lra.
  - unfold Radial.mousemove; destruct (Radial.isPanning v); simpl; lra.
Qed.

Lemma wheel_anchor (W H rleft rtop cx cy dy : R) (v : Radial.view) :
  2 / 10 <= Radial.zoom v <= 10 ->
  Radial.pointerX W rleft cx (Radial.wheel W H rleft rtop cx cy dy v)
  = Radial.pointerX W rleft cx v
  /\ Radial.pointerY H rtop cy (Radial.wheel W H rleft rtop cx cy dy v)
     = Radial.pointerY H rtop cy v.
Proof.
  intros Hz.
  pose proof (viewStep_zoom v (Wheel W H rleft rtop cx cy dy) Hz) as Hz'.
  unfold Radial.pointerX, Radial.pointerY; simpl in *.
  set (z' := if Rltb dy 0 then _ else _) in *.
  split; field; lra.
Qed.

Lemma last_cons_default {A : Type} (x d : A) (l : list A) :
  last (x :: l) d = last l x.
Proof.
  destruct l as [|y l]; [reflexivity|].
  change (last (x :: y :: l) d) with (last (y :: l) d).
  revert y; induction l as [|z l IH]; intros y; [reflexivity|].
  change (last (z :: l) d = last (z :: l) x); apply IH.
Qed.

Lemma drag_moves (path : list (R * R)) (v : Radial.view) :
  Radial.isPanning v = true ->
  let v' := fold_left viewStep (dragMoves path) v in
  let final := last path (Radial.lastPanX v, Radial.lastPanY v) in
  Radial.isPanning v' = true
  /\ Radial.zoom v' = Radial.zoom v
  /\ Radial.panX v' = Radial.panX v + (fst final - Radial.lastPanX v)
  /\ Radial.panY v' = Radial.panY v + (snd final - Radial.lastPanY v)
  /\ Radial.lastPanX v' = fst final /\ Radial.lastPanY v' = snd final.
Proof.
  revert v; induction path as [|[x y] path IH]; intros v Hp.
  - simpl; repeat split; auto; ring.
  - cbv zeta; rewrite last_cons_default.
    cbn [dragMoves map fold_left viewStep fst snd]; fold (dragMoves path).
    assert (E : Radial.mousemove x y v
                = Radial.mkView (Radial.zoom v) (Radial.panX v + (x - Radial.lastPanX v))
                                (Radial.panY v + (y - Radial.lastPanY v)) true x y)
      by (unfold Radial.mousemove; now rewrite Hp).
    rewrite E.
    pose proof (IH (Radial.mkView (Radial.zoom v) (Radial.panX v + (x - Radial.lastPanX v))
                                  (Radial.panY v + (y - Radial.lastPanY v)) true x y)
                   eq_refl) as I.
    cbv zeta in I.
    cbn [Radial.zoom Radial.panX Radial.panY Radial.lastPanX Radial.lastPanY] in I.
    destruct I as (I1 & I2 & I3 & I4 & I5 & I6).
    repeat split; auto; lra.
Qed.

(** X19. Pan and zoom of the interactive radial variant.  From the
    initial view, after any sequence of wheel, mouse and reset events the
    zoom lies in [0.2, 10].  A wheel step keeps the layout point under
    the pointer where it is.  A drag (a mouse-down followed by moves)
    shifts the pan by exactly the displacement of the pointer from where
    the button went down, and leaves the zoom alone. *)
Theorem view_pan_zoom :
  (forall (events : list viewEvent),
     2 / 10 <= Radial.zoom (fold_left viewStep events Radial.initView) <= 10)
  /\ (forall (events : list viewEvent) (W H rleft rtop cx cy dy : R),
        let v := fold_left viewStep events Radial.initView in
        let v' := viewStep v (Wheel W H rleft rtop cx cy dy) in
        Radial.pointerX W rleft cx v' = Radial.pointerX W rleft cx v
        /\ Radial.pointerY H rtop cy v' = Radial.pointerY H rtop cy v)
  /\ (forall (v : Radial.view) (x0 y0 : R) (path : list (R * R)),
        let v' := fold_left viewStep (MouseDown x0 y0 :: dragMoves path) v in
        let final := last path (x0, y0) in
        Radial.panX v' = Radial.panX v + (fst final - x0)
        /\ Radial.panY v' = Radial.panY v + (snd final - y0)
        /\ Radial.zoom v' = Radial.zoom v).
Proof.
  assert (Hinv : forall events v, 2 / 10 <= Radial.zoom v <= 10 ->
                   2 / 10 <= Radial.zoom (fold_left viewStep events v) <= 10).
  { induction events as [|e events IH]; intros v Hv; simpl; auto.
    apply IH, viewStep_zoom, Hv. }
  assert (H0 : 2 / 10 <= Radial.zoom Radial.initView <= 10) by (simpl; lra).
  split; [|split].
  - intros events; now apply Hinv.
  - intros events W H rleft rtop cx cy dy v v'; subst v v'.
    apply wheel_anchor, Hinv, H0.
  - intros v x0 y0 path v' final; subst v' final; cbn [fold_left viewStep].
    destruct (drag_moves path (Radial.mousedown x0 y0 v) eq_refl)
      as (_ & I2 & I3 & I4 & _); cbn [Radial.mousedown Radial.zoom Radial.panX
      Radial.panY Radial.lastPanX Radial.lastPanY] in *.
    repeat split; assumption.
Qed.

(** ** Drawing: aura, zoom wheel, graph and colour *)

Lemma maxGlow_range (rssi : R) : 2 / 10 <= maxGlow rssi <= 1.
Proof. unfold maxGlow; apply clamp_bounds; lra. Qed.

Lemma maxGlow_antitone (r1 r2 : R) : r1 <= r2 -> maxGlow r2 <= maxGlow r1.
Proof. intros H; unfold maxGlow; apply clamp_mono; lra. Qed.

Lemma maxGlow_ends (rssi : R) :
  (rssi <= - 90 -> maxGlow rssi = 1) /\ (- 42 <= rssi -> maxGlow rssi = 2 / 10).
Proof.
  unfold maxGlow, clamp, Rmax, Rmin; split; intros H;
    repeat destruct (Rle_dec _ _); lra.
Qed.

Lemma lineAtten_range (obstacles : list Trilat.obstacle) (hi devX devY zoom x y : R) :
  0 <= hi < 1 -> attenuations_in 0 hi obstacles ->
  0 < Trilat.lineAtten obstacles devX devY zoom x y <= 1.
Proof.
  intros Hhi Hall; unfold Trilat.lineAtten; cbv zeta.
  rewrite attenuation_factors.
  match goal with |- 0 < Rprod ?l <= 1 =>
    assert (Hb : (1 - hi) ^ List.length l <= Rprod l <= 1) end.
  { apply Rprod_bounds; [lra|].
    intros f Hf; apply in_map_iff in Hf; destruct Hf as (ob & <- & Hob).
    apply (factorOf_range _ _ _ _ 0 hi); [lra | now apply Hall]. }
  match type of Hb with ?c <= _ <= _ => assert (0 < c) by (apply pow_lt; lra) end.
  lra.
Qed.

(** X20. The aura of a hotspot.  With obstacles that each absorb a
    fraction in [0, hi], hi < 1, the aura drawn by the trilateration
    variants has a radius in (21.6, 108] and the connection line an alpha
    in (0, 0.35].  For one position the radius never grows with the
    signal: a stronger signal gives an aura that is at most as large, the
    largest one belongs to signals of -90 dBm and below, the smallest one
    to signals of -42 dBm and above.  The radial variants draw the radius
    [18 + 90*maxGlow], between 36 and 108, with the same dependence on
    the signal. *)
Theorem aura_radius :
  forall (obstacles : list Trilat.obstacle) (hi devX devY zoom x y : R),
    0 <= hi < 1 -> attenuations_in 0 hi obstacles ->
    let a := Trilat.lineAtten obstacles devX devY zoom x y in
    0 < Trilat.strokeAlpha obstacles devX devY zoom x y <= 35 / 100
    /\ (forall rssi,
          216 / 10 < Trilat.glowR obstacles devX devY zoom x y rssi <= 108
          /\ 36 <= Radial.glowR rssi <= 108)
    /\ (forall r1 r2, r1 <= r2 ->
          Trilat.glowR obstacles devX devY zoom x y r2
          <= Trilat.glowR obstacles devX devY zoom x y r1
          /\ Radial.glowR r2 <= Radial.glowR r1)
    /\ (forall rssi, rssi <= - 90 ->
          Trilat.glowR obstacles devX devY zoom x y rssi = 108 * (6 / 10 + 4 / 10 * a)
          /\ Radial.glowR rssi = 108)
    /\ (forall rssi, - 42 <= rssi ->
          Trilat.glowR obstacles devX devY zoom x y rssi = 36 * (6 / 10 + 4 / 10 * a)
          /\ Radial.glowR rssi = 36).
Proof.
  intros obstacles hi devX devY zoom x y Hhi Hall a.
  pose proof (lineAtten_range obstacles hi devX devY zoom x y Hhi Hall) as Ha.
  fold a in Ha; unfold Trilat.strokeAlpha, Trilat.glowR, Radial.glowR; fold a.
  split; [lra|]; split; [|split; [|split]].
  - intros rssi; pose proof (maxGlow_range rssi); split; [nra | lra].
  - intros r1 r2 H12; pose proof (maxGlow_antitone r1 r2 H12).
    pose proof (maxGlow_range r1); pose proof (maxGlow_range r2); split; [nra | lra].
  - intros rssi Hr; rewrite (proj1 (maxGlow_ends rssi) Hr); split; ring.
  - intros rssi Hr; rewrite (proj2 (maxGlow_ends rssi) Hr); split; field.
Qed.

Lemma aura_radius_witness :
  216 / 10 < Trilat.glowR [ex_wall; ex_door] 400 300 20 5 (- 3) (- 60) <= 108.
Proof.
  apply (proj1 (proj1 (proj2 (aura_radius [ex_wall; ex_door] (8 / 10) 400 300 20 5 (- 3)
           ltac:(lra)
           ltac:(intros ob [<-|[<-|[]]]; simpl; lra)))
         (- 60))).
Defined.

Lemma sign_cases (x : R) :
  (x < 0 -> Trilat.sign x = - 1) /\ (x = 0 -> Trilat.sign x = 0)
  /\ (0 < x -> Trilat.sign x = 1).
Proof.
  unfold Trilat.sign, Rltb; repeat split; intros Hx;
    repeat destruct (Rlt_dec _ _); lra.
Qed.

Lemma clamp_id (v a b : R) : a <= v <= b -> clamp v a b = v.
Proof.
  intros H; unfold clamp, Rmax, Rmin; repeat destruct (Rle_dec _ _); lra.
Qed.

Lemma Radial_wheel_in (W H rleft rtop cx cy dy : R) (v : Radial.view) :
  dy < 0 -> Radial.zoom v * (11 / 10) <= 10 ->
  Radial.zoom (Radial.wheel W H rleft rtop cx cy dy v) = Radial.zoom v * (11 / 10).
Proof.
  intros Hdy Hz; cbn [Radial.wheel Radial.zoom].
  rewrite (proj2 (Rltb_true dy 0)) by exact Hdy.
  unfold Rmin; destruct (Rle_dec _ _); lra.
Qed.

Lemma Radial_wheel_out (W H rleft rtop cx cy dy : R) (v : Radial.view) :
  0 <= dy -> 2 / 10 <= Radial.zoom v / (11 / 10) ->
  Radial.zoom (Radial.wheel W H rleft rtop cx cy dy v) = Radial.zoom v / (11 / 10).
Proof.
  intros Hdy Hz; cbn [Radial.wheel Radial.zoom].
  rewrite (proj2 (Rltb_false dy 0)) by lra.
  unfold Rmax; destruct (Rle_dec _ _); lra.
Qed.

(** X21. Zooming in and back out.  In the trilateration variants the
    zoom always ends in [2, 200]; one notch in followed by one notch out
    multiplies it by 0.99 when no bound is hit, so the scale drifts down
    by one percent per round trip; a wheel event with [deltaY = 0] leaves
    a zoom of that range as it is.  In the interactive radial variant one
    notch in followed by one notch out at the same pointer position
    restores zoom and pan exactly, when the zoom stays within its bound
    of 10. *)
Theorem wheel_round_trip :
  (forall deltaY zoom, 2 <= Trilat.wheel deltaY zoom <= 200)
  /\ (forall zoom, 2 <= zoom <= 200 -> Trilat.wheel 0 zoom = zoom)
  /\ (forall dIn dOut zoom,
        dIn < 0 -> 0 < dOut -> 2 <= 99 / 100 * zoom -> 11 / 10 * zoom <= 200 ->
        Trilat.wheel dOut (Trilat.wheel dIn zoom) = 99 / 100 * zoom)
  /\ (forall W H rleft rtop cx cy dIn dOut (v : Radial.view),
        dIn < 0 -> 0 <= dOut ->
        2 / 10 <= Radial.zoom v -> Radial.zoom v * (11 / 10) <= 10 ->
        Radial.wheel W H rleft rtop cx cy dOut
          (Radial.wheel W H rleft rtop cx cy dIn v) = v).
Proof.
  split; [|split; [|split]].
  - intros deltaY zoom; unfold Trilat.wheel; apply clamp_bounds; lra.
  - intros zoom Hz; unfold Trilat.wheel; cbv zeta.
    rewrite (proj1 (proj2 (sign_cases 0)) eq_refl).
    rewrite clamp_id by lra; ring.
  - intros dIn dOut zoom HIn HOut Hlo Hhi; unfold Trilat.wheel; cbv zeta.
    rewrite (proj1 (sign_cases dIn) HIn), (proj2 (proj2 (sign_cases dOut)) HOut).
    rewrite (clamp_id (zoom * _)) by lra.
    rewrite clamp_id by lra; field.
  - intros W H rleft rtop cx cy dIn dOut v HIn HOut Hlo Hhi.
    set (v1 := Radial.wheel W H rleft rtop cx cy dIn v).
    assert (E1 : Radial.zoom v1 = Radial.zoom v * (11 / 10))
      by (now apply Radial_wheel_in).
    assert (E2 : Radial.zoom (Radial.wheel W H rleft rtop cx cy dOut v1) = Radial.zoom v).
    { rewrite Radial_wheel_out; [rewrite E1; field | exact HOut |].
      rewrite E1; apply Rle_trans with (Radial.zoom v); [exact Hlo | right; field]. }
    destruct v as [z px py ip lx ly]; cbn [Radial.zoom] in *.
    assert (P1 : Radial.panX v1 = (cx - rleft - W / 2) - ((cx - rleft - W / 2) - px) * (Radial.zoom v1 / z)
                 /\ Radial.panY v1 = (cy - rtop - H / 2) - ((cy - rtop - H / 2) - py) * (Radial.zoom v1 / z)
                 /\ Radial.isPanning v1 = ip /\ Radial.lastPanX v1 = lx
                 /\ Radial.lastPanY v1 = ly) by (repeat split; reflexivity).
    destruct P1 as (P1 & P2 & P3 & P4 & P5).
    clearbody v1; destruct v1 as [z1 px1 py1 ip1 lx1 ly1];
      cbn [Radial.zoom Radial.panX Radial.panY Radial.isPanning Radial.lastPanX
           Radial.lastPanY] in *.
    subst ip1 lx1 ly1 z1.
    unfold Radial.wheel in *; cbn [Radial.zoom Radial.panX Radial.panY Radial.isPanning
      Radial.lastPanX Radial.lastPanY] in *.
    rewrite E2; f_equal.
    + rewrite P1; field; lra.
    + rewrite P2; field; lra.
Qed.

Lemma wheel_round_trip_witness :
  Trilat.wheel 120 (Trilat.wheel (- 120) 40) = 99 / 100 * 40
  /\ Radial.wheel 800 600 0 0 500 200 120
       (Radial.wheel 800 600 0 0 500 200 (- 120) (Radial.mkView 2 30 (- 10) false 0 0))
     = Radial.mkView 2 30 (- 10) false 0 0.
Proof.
  split.
  - apply (proj1 (proj2 (proj2 wheel_round_trip)) (- 120) 120 40); lra.
  - apply (proj2 (proj2 (proj2 wheel_round_trip)) 800 600 0 0 500 200 (- 120) 120
             (Radial.mkView 2 30 (- 10) false 0 0)); simpl; lra.
Defined.

Lemma fold_Rmax_bounds (l : list R) (a : R) :
  a <= fold_left Rmax l a /\ (forall d, In d l -> d <= fold_left Rmax l a).
Proof.
  revert a; induction l as [|x l IH]; intros a; simpl.
  - split; [lra | intros ? []].
  - destruct (IH (Rmax a x)) as [I1 I2].
    pose proof (Rmax_l a x); pose proof (Rmax_r a x).
    split; [lra|].
    intros d [<-|Hd]; [lra | now apply I2].
Qed.

Lemma fold_Rmax_attained (l : list R) (a : R) :
  fold_left Rmax l a = a \/ In (fold_left Rmax l a) l.
Proof.
  revert a; induction l as [|x l IH]; intros a; simpl; [now left|].
  destruct (IH (Rmax a x)) as [E|Hin]; [|now right; right].
  rewrite E; unfold Rmax; destruct (Rle_dec a x); [right; now left | now left].
Qed.

(** X22. The distance/strength graph stays inside its axes.  The
    horizontal scale is taken from the points themselves and is never
    below 5 m: with a plot at least as wide as its margins and no negative
    distance, every point is drawn between the left axis (x = 48) and the
    last distance tick (x = gW - 12), which the farthest point reaches
    once some distance is 5 m or more; a point without a distance is drawn
    on the left axis.  Vertically nothing is clipped: a reading between
    -90 and -30 dBm is drawn between the top tick and the distance axis,
    a reading below -90 dBm below the axis and one above -30 dBm above the
    top tick. *)
Theorem graph_points_in_axes :
  forall (gW gH : R) (graphPoints : list graphPoint),
    60 <= gW -> 54 < gH ->
    (forall p, In p graphPoints -> 0 <= distanceOr0 p) ->
    5 <= maxDist graphPoints
    /\ tickX gW graphPoints 0 = 48 /\ tickX gW graphPoints 5 = gW - 12
    /\ tickY gH (- 30) = 18 /\ tickY gH (- 90) = gH - 36
    /\ (forall p, In p graphPoints ->
          48 <= graphX gW graphPoints p <= gW - 12
          /\ (gp_distance p = None -> graphX gW graphPoints p = 48)
          /\ (- 90 <= gp_rssi p <= - 30 -> 18 <= graphY gH p <= gH - 36)
          /\ (gp_rssi p < - 90 -> gH - 36 < graphY gH p)
          /\ (- 30 < gp_rssi p -> graphY gH p < 18))
    /\ ((exists p, In p graphPoints /\ 5 <= distanceOr0 p) ->
        exists p, In p graphPoints /\ graphX gW graphPoints p = gW - 12).
Proof.
  intros gW gH pts HW HH Hpos.
  destruct (fold_Rmax_bounds (map distanceOr0 pts) 5) as [H5 Hmax].
  fold (maxDist pts) in H5, Hmax.
  unfold tickX, tickY, graphX, graphY, m_l, m_r, m_t, m_b, rssiMin, rssiMax.
  set (M := maxDist pts) in *.
  split; [exact H5|]; split; [simpl; field; lra|]; split; [simpl; field; lra|].
  split; [field|]; split; [field|]; split.
  - intros p Hp.
    assert (Hd : 0 <= distanceOr0 p <= M)
      by (split; [now apply Hpos | apply Hmax, in_map, Hp]).
    assert (Hq : 0 <= distanceOr0 p / M <= 1).
    { split; [apply Rmult_le_pos; [lra | left; apply Rinv_0_lt_compat; lra]|].
      apply Rmult_le_reg_r with M; [lra|].
      unfold Rdiv; rewrite Rmult_assoc, Rinv_l by lra; lra. }
    replace (distanceOr0 p * ((gW - 48 - 12) / M))
      with ((gW - 60) * (distanceOr0 p / M)) by (field; lra).
    replace ((gH - 36 - 18) / (- 30 - - 90)) with ((gH - 54) / 60) by (field; lra).
    set (s := (gH - 54) / 60).
    assert (Hs : 0 < s /\ 60 * s = gH - 54) by (unfold s; split; [lra | field]).
    destruct Hs as [Hs Hs60].
    split; [split; nra|]; split; [|split; [|split]].
    + intros Hn; unfold distanceOr0; rewrite Hn; unfold Rdiv; ring.
    + intros Hr; split; nra.
    + intros Hr; nra.
    + intros Hr; nra.
  - intros (p & Hp & Hp5).
    destruct (fold_Rmax_attained (map distanceOr0 pts) 5) as [E|Hin];
      fold (maxDist pts) in *; fold M in E || fold M in Hin.
    + exists p; split; [exact Hp|].
      assert (distanceOr0 p = M)
        by (pose proof (Hmax _ (in_map distanceOr0 _ _ Hp)); lra).
      rewrite H; field; lra.
    + apply in_map_iff in Hin; destruct Hin as (q & Hq & Hqin).
      exists q; split; [exact Hqin|]; rewrite Hq; field; lra.
Qed.

Lemma graph_points_in_axes_witness :
  let pts := [mkGraphPoint (Some 12) (- 60) "5 GHz"; mkGraphPoint None (- 95) "2.4 GHz"] in
  5 <= maxDist pts.
Proof.
  intros pts.
  apply (proj1 (graph_points_in_axes 640 280 pts ltac:(lra) ltac:(lra)
                  ltac:(intros p [<-|[<-|[]]]; unfold distanceOr0; simpl; lra))).
Defined.

Lemma Int_part_bounds (x : R) (lo hi : Z) :
  IZR lo <= x <= IZR hi -> (lo <= Int_part x <= hi)%Z.
Proof.
  intros [Hlo Hhi]; destruct (base_Int_part x) as [Hb1 Hb2]; split.
  - assert (IZR (lo - 1) < IZR (Int_part x)) by (rewrite minus_IZR; lra).
    apply lt_IZR in H; lia.
  - apply le_IZR; lra.
Qed.

Lemma Int_part_mono (x y : R) : x <= y -> (Int_part x <= Int_part y)%Z.
Proof.
  intros Hxy; destruct (base_Int_part x) as [Hx1 Hx2], (base_Int_part y) as [Hy1 Hy2].
  assert (IZR (Int_part x - 1) < IZR (Int_part y)) by (rewrite minus_IZR; lra).
  apply lt_IZR in H; lia.
Qed.

Lemma Int_part_IZR (z : Z) : Int_part (IZR z) = z.
Proof.
  symmetry; apply Int_part_spec; lra.
Qed.

Lemma colorT_facts (rssi : R) :
  0 <= colorT rssi <= 1
  /\ (rssi <= - 90 -> colorT rssi = 0) /\ (- 30 <= rssi -> colorT rssi = 1).
Proof.
  unfold colorT; split; [apply clamp_bounds; lra|].
  unfold clamp, Rmax, Rmin; split; intros H; repeat destruct (Rle_dec _ _); lra.
Qed.

(** X23. The colour ramp.  [rssiToColor] always yields channels that are
    valid for [rgb()]: red between 20 and 255, green between 40 and 255,
    blue 80.  A stronger signal never has more red or less green; signals
    of -90 dBm and below get rgb(255,40,80), signals of -30 dBm and above
    rgb(20,255,80). *)
Theorem rssiToColor_ramp :
  (forall rssi,
     let '(r, g, b) := rssiToColor rssi in
     (20 <= r <= 255)%Z /\ (40 <= g <= 255)%Z /\ b = 80%Z)
  /\ (forall r1 r2, r1 <= r2 ->
        let '(red1, green1, _) := rssiToColor r1 in
        let '(red2, green2, _) := rssiToColor r2 in
        (red2 <= red1)%Z /\ (green1 <= green2)%Z)
  /\ (forall rssi, rssi <= - 90 -> rssiToColor rssi = (255, 40, 80)%Z)
  /\ (forall rssi, - 30 <= rssi -> rssiToColor rssi = (20, 255, 80)%Z).
Proof.
  split; [|split; [|split]].
  - intros rssi; unfold rssiToColor; cbv zeta.
    destruct (colorT_facts rssi) as [Ht _]; unfold lerp.
    split; [|split; [|reflexivity]]; apply Int_part_bounds; lra.
  - intros r1 r2 H12; unfold rssiToColor; cbv zeta.
    assert (Ht : colorT r1 <= colorT r2) by (unfold colorT; apply clamp_mono; lra).
    unfold lerp; split; apply Int_part_mono; lra.
  - intros rssi Hr; unfold rssiToColor; cbv zeta.
    rewrite (proj1 (proj2 (colorT_facts rssi)) Hr); unfold lerp.
    replace (255 + (20 - 255) * 0) with (IZR 255) by ring.
    replace (40 + (255 - 40) * 0) with (IZR 40) by ring.
    now rewrite !Int_part_IZR.
  - intros rssi Hr; unfold rssiToColor; cbv zeta.
    rewrite (proj2 (proj2 (colorT_facts rssi)) Hr); unfold lerp.
    replace (255 + (20 - 255) * 1) with (IZR 20) by ring.
    replace (40 + (255 - 40) * 1) with (IZR 255) by ring.
    now rewrite !Int_part_IZR.
Qed.

Lemma rssiToColor_ramp_witness : rssiToColor (- 95) = (255, 40, 80)%Z.
Proof.
  apply (proj1 (proj2 (proj2 rssiToColor_ramp)) (- 95)); lra.
Defined.
